(** * The chat, handoff and rating library of kiloshare-mobile

    A shallow embedding of [src/lib/chat.ts] and of the handoff handler of
    [src/screens/messages/ChatScreen.tsx].

    Every exported function of [chat.ts] is an [async] function that talks
    to the backend through the query builder of the database client.  It is
    embedded as a tree of requests ([Async]): each [await] of a query, each
    call of [Math.random] and each [new Date()] is one node.  The tree is
    given two semantics: [run] executes one call from start to end, and
    [interleave] lets two calls take turns request by request.

    Conventions:
    - a table is the list of its rows, in insertion order;
    - a timestamp is the number of milliseconds that [Date.getTime] gives;
    - a JavaScript string is the [string] of the bytes of its UTF-8 form;
      its builtins ([JsString]) see the characters and count UTF-16 code
      units;
    - a JavaScript number is a double: a finite one is the rational it
      stands for, and the result of [+] and [/] is rounded to the nearest
      double ([JsNumber]); the product of the value of [Math.random] with
      the 32 of the alphabet is exact. *)

From Stdlib Require Import String Ascii List Bool Arith ZArith QArith Qround Lia.
From Stdlib Require Import Permutation Sorted Lqa Qpower Qabs.
Import ListNotations.

Local Close Scope Q_scope.
Local Open Scope nat_scope.
Local Open Scope string_scope.
Local Open Scope list_scope.

Set Implicit Arguments.

(* ================================================================= *)
(** ** JavaScript strings *)

Module JsString.

(** A string of the program is held as the bytes of its UTF-8 form, which
    is also how the literals of this file are read.  The builtins look at
    the characters these bytes spell and count in UTF-16 code units, as
    [String.prototype] does. *)

Local Open Scope N_scope.

Definition byte (c : ascii) : N := N_of_ascii c.

Definition continuation (c : ascii) : bool :=
  (128 <=? byte c)%N && (byte c <? 192)%N.

(** The six payload bits of a continuation byte. *)
Definition payload (c : ascii) : N := (byte c - 128)%N.

(** The code points of a string.  A byte that starts no character counts
    as U+FFFD. *)
Fixpoint codePoints (s : string) : list N :=
  match s with
  | EmptyString => []
  | String a r1 =>
      if (byte a <? 128)%N then byte a :: codePoints r1
      else
        match r1 with
        | EmptyString => [65533%N]
        | String b r2 =>
            if (194 <=? byte a)%N && (byte a <? 224)%N && continuation b then
              ((byte a - 192) * 64 + payload b)%N :: codePoints r2
            else
              match r2 with
              | EmptyString => 65533%N :: codePoints r1
              | String c r3 =>
                  let cp3 := (((byte a - 224) * 64 + payload b) * 64 + payload c)%N in
                  if (224 <=? byte a)%N && (byte a <? 240)%N
                     && continuation b && continuation c && (2048 <=? cp3)%N then
                    cp3 :: codePoints r3
                  else
                    match r3 with
                    | EmptyString => 65533%N :: codePoints r1
                    | String d r4 =>
                        let cp4 := ((((byte a - 240) * 64 + payload b) * 64 + payload c)
                                    * 64 + payload d)%N in
                        if (240 <=? byte a)%N && (byte a <? 248)%N
                           && continuation b && continuation c && continuation d
                           && (65536 <=? cp4)%N && (cp4 <? 1114112)%N then
                          cp4 :: codePoints r4
                        else 65533%N :: codePoints r1
                    end
              end
        end
  end.

(** The UTF-8 form of a code point. *)
Definition utf8 (cp : N) : string :=
  let lead (n : N) := ascii_of_N n in
  let next (n : N) := ascii_of_N (128 + n mod 64) in
  if (cp <? 128)%N then String (lead cp) ""
  else if (cp <? 2048)%N then String (lead (192 + cp / 64)) (String (next cp) "")
  else if (cp <? 65536)%N then
    String (lead (224 + cp / 4096)) (String (next (cp / 64)) (String (next cp) ""))
  else
    String (lead (240 + cp / 262144))
      (String (next (cp / 4096)) (String (next (cp / 64)) (String (next cp) ""))).

Definition fromCodePoints (l : list N) : string := String.concat "" (map utf8 l).

(** [s.length]: the number of UTF-16 code units, two for a code point
    outside the basic plane. *)
Definition codeUnits (cp : N) : nat := if cp <? 65536 then 1%nat else 2%nat.

Definition length (s : string) : nat := list_sum (map codeUnits (codePoints s)).

(** WhiteSpace and LineTerminator of ECMAScript: TAB, LF, VT, FF, CR, SP,
    NBSP, the other space separators of Unicode, LS, PS and ZWNBSP. *)
Definition whiteSpace : list N :=
  [0x9; 0xA; 0xB; 0xC; 0xD; 0x20; 0xA0; 0x1680;
   0x2000; 0x2001; 0x2002; 0x2003; 0x2004; 0x2005; 0x2006; 0x2007; 0x2008; 0x2009;
   0x200A; 0x2028; 0x2029; 0x202F; 0x205F; 0x3000; 0xFEFF]%N.

(** The string is one white space character. *)
Definition isWhiteSpace (s : string) : bool :=
  existsb (fun cp => s =? utf8 cp)%string whiteSpace.

(** The rest of the string after its first character, when that is white
    space. *)
Definition afterWhiteSpace (s : string) : option string :=
  match s with
  | EmptyString => None
  | String a r1 =>
      if isWhiteSpace (String a "") then Some r1
      else
        match r1 with
        | EmptyString => None
        | String b r2 =>
            if isWhiteSpace (String a (String b "")) then Some r2
            else
              match r2 with
              | EmptyString => None
              | String c r3 =>
                  if isWhiteSpace (String a (String b (String c ""))) then Some r3
                  else None
              end
        end
  end.

Fixpoint trimStart (s : string) : string :=
  match s with
  | EmptyString => EmptyString
  | String a r1 =>
      if isWhiteSpace (String a "") then trimStart r1
      else
        match r1 with
        | EmptyString => s
        | String b r2 =>
            if isWhiteSpace (String a (String b "")) then trimStart r2
            else
              match r2 with
              | EmptyString => s
              | String c r3 =>
                  if isWhiteSpace (String a (String b (String c ""))) then trimStart r3
                  else s
              end
        end
  end.

(** The white space at the end goes character by character: what is left
    of the tail, with the byte before it, is white space or stays. *)
Fixpoint trimEnd (s : string) : string :=
  match s with
  | EmptyString => EmptyString
  | String a r =>
      let kept := String a (trimEnd r) in
      if isWhiteSpace kept then EmptyString else kept
  end.

Definition trim (s : string) : string := trimEnd (trimStart s).

(** The case mapping of Unicode 14 ([UnicodeData.txt] and the
    unconditional entries of [SpecialCasing.txt]) that
    [String.prototype.toUpperCase] applies.  [upperRanges] lists the code
    points with one upper case code point: every [step]-th code point
    from [first] to [last] moves by [delta]. *)
Definition upperRanges : list (N * N * N * Z) :=
  [
   (0x61, 0x7A, 1, (-32)%Z); (0xB5, 0xB5, 1, (743)%Z); (0xE0, 0xF6, 1, (-32)%Z);
   (0xF8, 0xFE, 1, (-32)%Z); (0xFF, 0xFF, 1, (121)%Z); (0x101, 0x12F, 2, (-1)%Z);
   (0x131, 0x131, 1, (-232)%Z); (0x133, 0x137, 2, (-1)%Z); (0x13A, 0x148, 2, (-1)%Z);
   (0x14B, 0x177, 2, (-1)%Z); (0x17A, 0x17E, 2, (-1)%Z); (0x17F, 0x17F, 1, (-300)%Z);
   (0x180, 0x180, 1, (195)%Z); (0x183, 0x185, 2, (-1)%Z); (0x188, 0x188, 1, (-1)%Z);
   (0x18C, 0x18C, 1, (-1)%Z); (0x192, 0x192, 1, (-1)%Z); (0x195, 0x195, 1, (97)%Z);
   (0x199, 0x199, 1, (-1)%Z); (0x19A, 0x19A, 1, (163)%Z); (0x19E, 0x19E, 1, (130)%Z);
   (0x1A1, 0x1A5, 2, (-1)%Z); (0x1A8, 0x1A8, 1, (-1)%Z); (0x1AD, 0x1AD, 1, (-1)%Z);
   (0x1B0, 0x1B0, 1, (-1)%Z); (0x1B4, 0x1B6, 2, (-1)%Z); (0x1B9, 0x1B9, 1, (-1)%Z);
   (0x1BD, 0x1BD, 1, (-1)%Z); (0x1BF, 0x1BF, 1, (56)%Z); (0x1C5, 0x1C5, 1, (-1)%Z);
   (0x1C6, 0x1C6, 1, (-2)%Z); (0x1C8, 0x1C8, 1, (-1)%Z); (0x1C9, 0x1C9, 1, (-2)%Z);
   (0x1CB, 0x1CB, 1, (-1)%Z); (0x1CC, 0x1CC, 1, (-2)%Z); (0x1CE, 0x1DC, 2, (-1)%Z);
   (0x1DD, 0x1DD, 1, (-79)%Z); (0x1DF, 0x1EF, 2, (-1)%Z); (0x1F2, 0x1F2, 1, (-1)%Z);
   (0x1F3, 0x1F3, 1, (-2)%Z); (0x1F5, 0x1F5, 1, (-1)%Z); (0x1F9, 0x21F, 2, (-1)%Z);
   (0x223, 0x233, 2, (-1)%Z); (0x23C, 0x23C, 1, (-1)%Z); (0x23F, 0x240, 1, (10815)%Z);
   (0x242, 0x242, 1, (-1)%Z); (0x247, 0x24F, 2, (-1)%Z); (0x250, 0x250, 1, (10783)%Z);
   (0x251, 0x251, 1, (10780)%Z); (0x252, 0x252, 1, (10782)%Z); (0x253, 0x253, 1, (-210)%Z);
   (0x254, 0x254, 1, (-206)%Z); (0x256, 0x257, 1, (-205)%Z); (0x259, 0x259, 1, (-202)%Z);
   (0x25B, 0x25B, 1, (-203)%Z); (0x25C, 0x25C, 1, (42319)%Z); (0x260, 0x260, 1, (-205)%Z);
   (0x261, 0x261, 1, (42315)%Z); (0x263, 0x263, 1, (-207)%Z); (0x265, 0x265, 1, (42280)%Z);
   (0x266, 0x266, 1, (42308)%Z); (0x268, 0x268, 1, (-209)%Z); (0x269, 0x269, 1, (-211)%Z);
   (0x26A, 0x26A, 1, (42308)%Z); (0x26B, 0x26B, 1, (10743)%Z); (0x26C, 0x26C, 1, (42305)%Z);
   (0x26F, 0x26F, 1, (-211)%Z); (0x271, 0x271, 1, (10749)%Z); (0x272, 0x272, 1, (-213)%Z);
   (0x275, 0x275, 1, (-214)%Z); (0x27D, 0x27D, 1, (10727)%Z); (0x280, 0x280, 1, (-218)%Z);
   (0x282, 0x282, 1, (42307)%Z); (0x283, 0x283, 1, (-218)%Z); (0x287, 0x287, 1, (42282)%Z);
   (0x288, 0x288, 1, (-218)%Z); (0x289, 0x289, 1, (-69)%Z); (0x28A, 0x28B, 1, (-217)%Z);
   (0x28C, 0x28C, 1, (-71)%Z); (0x292, 0x292, 1, (-219)%Z); (0x29D, 0x29D, 1, (42261)%Z);
   (0x29E, 0x29E, 1, (42258)%Z); (0x345, 0x345, 1, (84)%Z); (0x371, 0x373, 2, (-1)%Z);
   (0x377, 0x377, 1, (-1)%Z); (0x37B, 0x37D, 1, (130)%Z); (0x3AC, 0x3AC, 1, (-38)%Z);
   (0x3AD, 0x3AF, 1, (-37)%Z); (0x3B1, 0x3C1, 1, (-32)%Z); (0x3C2, 0x3C2, 1, (-31)%Z);
   (0x3C3, 0x3CB, 1, (-32)%Z); (0x3CC, 0x3CC, 1, (-64)%Z); (0x3CD, 0x3CE, 1, (-63)%Z);
   (0x3D0, 0x3D0, 1, (-62)%Z); (0x3D1, 0x3D1, 1, (-57)%Z); (0x3D5, 0x3D5, 1, (-47)%Z);
   (0x3D6, 0x3D6, 1, (-54)%Z); (0x3D7, 0x3D7, 1, (-8)%Z); (0x3D9, 0x3EF, 2, (-1)%Z);
   (0x3F0, 0x3F0, 1, (-86)%Z); (0x3F1, 0x3F1, 1, (-80)%Z); (0x3F2, 0x3F2, 1, (7)%Z);
   (0x3F3, 0x3F3, 1, (-116)%Z); (0x3F5, 0x3F5, 1, (-96)%Z); (0x3F8, 0x3F8, 1, (-1)%Z);
   (0x3FB, 0x3FB, 1, (-1)%Z); (0x430, 0x44F, 1, (-32)%Z); (0x450, 0x45F, 1, (-80)%Z);
   (0x461, 0x481, 2, (-1)%Z); (0x48B, 0x4BF, 2, (-1)%Z); (0x4C2, 0x4CE, 2, (-1)%Z);
   (0x4CF, 0x4CF, 1, (-15)%Z); (0x4D1, 0x52F, 2, (-1)%Z); (0x561, 0x586, 1, (-48)%Z);
   (0x10D0, 0x10FA, 1, (3008)%Z); (0x10FD, 0x10FF, 1, (3008)%Z); (0x13F8, 0x13FD, 1, (-8)%Z);
   (0x1C80, 0x1C80, 1, (-6254)%Z); (0x1C81, 0x1C81, 1, (-6253)%Z);
   (0x1C82, 0x1C82, 1, (-6244)%Z); (0x1C83, 0x1C84, 1, (-6242)%Z);
   (0x1C85, 0x1C85, 1, (-6243)%Z); (0x1C86, 0x1C86, 1, (-6236)%Z);
   (0x1C87, 0x1C87, 1, (-6181)%Z); (0x1C88, 0x1C88, 1, (35266)%Z);
   (0x1D79, 0x1D79, 1, (35332)%Z); (0x1D7D, 0x1D7D, 1, (3814)%Z);
   (0x1D8E, 0x1D8E, 1, (35384)%Z); (0x1E01, 0x1E95, 2, (-1)%Z); (0x1E9B, 0x1E9B, 1, (-59)%Z);
   (0x1EA1, 0x1EFF, 2, (-1)%Z); (0x1F00, 0x1F07, 1, (8)%Z); (0x1F10, 0x1F15, 1, (8)%Z);
   (0x1F20, 0x1F27, 1, (8)%Z); (0x1F30, 0x1F37, 1, (8)%Z); (0x1F40, 0x1F45, 1, (8)%Z);
   (0x1F51, 0x1F57, 2, (8)%Z); (0x1F60, 0x1F67, 1, (8)%Z); (0x1F70, 0x1F71, 1, (74)%Z);
   (0x1F72, 0x1F75, 1, (86)%Z); (0x1F76, 0x1F77, 1, (100)%Z); (0x1F78, 0x1F79, 1, (128)%Z);
   (0x1F7A, 0x1F7B, 1, (112)%Z); (0x1F7C, 0x1F7D, 1, (126)%Z); (0x1FB0, 0x1FB1, 1, (8)%Z);
   (0x1FBE, 0x1FBE, 1, (-7205)%Z); (0x1FD0, 0x1FD1, 1, (8)%Z); (0x1FE0, 0x1FE1, 1, (8)%Z);
   (0x1FE5, 0x1FE5, 1, (7)%Z); (0x214E, 0x214E, 1, (-28)%Z); (0x2170, 0x217F, 1, (-16)%Z);
   (0x2184, 0x2184, 1, (-1)%Z); (0x24D0, 0x24E9, 1, (-26)%Z); (0x2C30, 0x2C5F, 1, (-48)%Z);
   (0x2C61, 0x2C61, 1, (-1)%Z); (0x2C65, 0x2C65, 1, (-10795)%Z);
   (0x2C66, 0x2C66, 1, (-10792)%Z); (0x2C68, 0x2C6C, 2, (-1)%Z); (0x2C73, 0x2C73, 1, (-1)%Z);
   (0x2C76, 0x2C76, 1, (-1)%Z); (0x2C81, 0x2CE3, 2, (-1)%Z); (0x2CEC, 0x2CEE, 2, (-1)%Z);
   (0x2CF3, 0x2CF3, 1, (-1)%Z); (0x2D00, 0x2D25, 1, (-7264)%Z);
   (0x2D27, 0x2D27, 1, (-7264)%Z); (0x2D2D, 0x2D2D, 1, (-7264)%Z);
   (0xA641, 0xA66D, 2, (-1)%Z); (0xA681, 0xA69B, 2, (-1)%Z); (0xA723, 0xA72F, 2, (-1)%Z);
   (0xA733, 0xA76F, 2, (-1)%Z); (0xA77A, 0xA77C, 2, (-1)%Z); (0xA77F, 0xA787, 2, (-1)%Z);
   (0xA78C, 0xA78C, 1, (-1)%Z); (0xA791, 0xA793, 2, (-1)%Z); (0xA794, 0xA794, 1, (48)%Z);
   (0xA797, 0xA7A9, 2, (-1)%Z); (0xA7B5, 0xA7C3, 2, (-1)%Z); (0xA7C8, 0xA7CA, 2, (-1)%Z);
   (0xA7D1, 0xA7D1, 1, (-1)%Z); (0xA7D7, 0xA7D9, 2, (-1)%Z); (0xA7F6, 0xA7F6, 1, (-1)%Z);
   (0xAB53, 0xAB53, 1, (-928)%Z); (0xAB70, 0xABBF, 1, (-38864)%Z);
   (0xFF41, 0xFF5A, 1, (-32)%Z); (0x10428, 0x1044F, 1, (-40)%Z);
   (0x104D8, 0x104FB, 1, (-40)%Z); (0x10597, 0x105BB, 2, (-39)%Z);
   (0x10598, 0x105A0, 2, (-39)%Z); (0x105A4, 0x105B0, 2, (-39)%Z);
   (0x105B4, 0x105B8, 2, (-39)%Z); (0x105BC, 0x105BC, 1, (-39)%Z);
   (0x10CC0, 0x10CF2, 1, (-64)%Z); (0x118C0, 0x118DF, 1, (-32)%Z);
   (0x16E60, 0x16E7F, 1, (-32)%Z); (0x1E922, 0x1E943, 1, (-34)%Z)
  ]%N.

Definition upperSpecial : list (N * list N) :=
  [
   (0xDF, [0x53; 0x53]); (0x149, [0x2BC; 0x4E]); (0x1F0, [0x4A; 0x30C]);
   (0x390, [0x399; 0x308; 0x301]); (0x3B0, [0x3A5; 0x308; 0x301]);
   (0x587, [0x535; 0x552]); (0x1E96, [0x48; 0x331]); (0x1E97, [0x54; 0x308]);
   (0x1E98, [0x57; 0x30A]); (0x1E99, [0x59; 0x30A]); (0x1E9A, [0x41; 0x2BE]);
   (0x1F50, [0x3A5; 0x313]); (0x1F52, [0x3A5; 0x313; 0x300]);
   (0x1F54, [0x3A5; 0x313; 0x301]); (0x1F56, [0x3A5; 0x313; 0x342]);
   (0x1F80, [0x1F08; 0x399]); (0x1F81, [0x1F09; 0x399]); (0x1F82, [0x1F0A; 0x399]);
   (0x1F83, [0x1F0B; 0x399]); (0x1F84, [0x1F0C; 0x399]); (0x1F85, [0x1F0D; 0x399]);
   (0x1F86, [0x1F0E; 0x399]); (0x1F87, [0x1F0F; 0x399]); (0x1F88, [0x1F08; 0x399]);
   (0x1F89, [0x1F09; 0x399]); (0x1F8A, [0x1F0A; 0x399]); (0x1F8B, [0x1F0B; 0x399]);
   (0x1F8C, [0x1F0C; 0x399]); (0x1F8D, [0x1F0D; 0x399]); (0x1F8E, [0x1F0E; 0x399]);
   (0x1F8F, [0x1F0F; 0x399]); (0x1F90, [0x1F28; 0x399]); (0x1F91, [0x1F29; 0x399]);
   (0x1F92, [0x1F2A; 0x399]); (0x1F93, [0x1F2B; 0x399]); (0x1F94, [0x1F2C; 0x399]);
   (0x1F95, [0x1F2D; 0x399]); (0x1F96, [0x1F2E; 0x399]); (0x1F97, [0x1F2F; 0x399]);
   (0x1F98, [0x1F28; 0x399]); (0x1F99, [0x1F29; 0x399]); (0x1F9A, [0x1F2A; 0x399]);
   (0x1F9B, [0x1F2B; 0x399]); (0x1F9C, [0x1F2C; 0x399]); (0x1F9D, [0x1F2D; 0x399]);
   (0x1F9E, [0x1F2E; 0x399]); (0x1F9F, [0x1F2F; 0x399]); (0x1FA0, [0x1F68; 0x399]);
   (0x1FA1, [0x1F69; 0x399]); (0x1FA2, [0x1F6A; 0x399]); (0x1FA3, [0x1F6B; 0x399]);
   (0x1FA4, [0x1F6C; 0x399]); (0x1FA5, [0x1F6D; 0x399]); (0x1FA6, [0x1F6E; 0x399]);
   (0x1FA7, [0x1F6F; 0x399]); (0x1FA8, [0x1F68; 0x399]); (0x1FA9, [0x1F69; 0x399]);
   (0x1FAA, [0x1F6A; 0x399]); (0x1FAB, [0x1F6B; 0x399]); (0x1FAC, [0x1F6C; 0x399]);
   (0x1FAD, [0x1F6D; 0x399]); (0x1FAE, [0x1F6E; 0x399]); (0x1FAF, [0x1F6F; 0x399]);
   (0x1FB2, [0x1FBA; 0x399]); (0x1FB3, [0x391; 0x399]); (0x1FB4, [0x386; 0x399]);
   (0x1FB6, [0x391; 0x342]); (0x1FB7, [0x391; 0x342; 0x399]); (0x1FBC, [0x391; 0x399]);
   (0x1FC2, [0x1FCA; 0x399]); (0x1FC3, [0x397; 0x399]); (0x1FC4, [0x389; 0x399]);
   (0x1FC6, [0x397; 0x342]); (0x1FC7, [0x397; 0x342; 0x399]); (0x1FCC, [0x397; 0x399]);
   (0x1FD2, [0x399; 0x308; 0x300]); (0x1FD3, [0x399; 0x308; 0x301]);
   (0x1FD6, [0x399; 0x342]); (0x1FD7, [0x399; 0x308; 0x342]);
   (0x1FE2, [0x3A5; 0x308; 0x300]); (0x1FE3, [0x3A5; 0x308; 0x301]);
   (0x1FE4, [0x3A1; 0x313]); (0x1FE6, [0x3A5; 0x342]); (0x1FE7, [0x3A5; 0x308; 0x342]);
   (0x1FF2, [0x1FFA; 0x399]); (0x1FF3, [0x3A9; 0x399]); (0x1FF4, [0x38F; 0x399]);
   (0x1FF6, [0x3A9; 0x342]); (0x1FF7, [0x3A9; 0x342; 0x399]); (0x1FFC, [0x3A9; 0x399]);
   (0xFB00, [0x46; 0x46]); (0xFB01, [0x46; 0x49]); (0xFB02, [0x46; 0x4C]);
   (0xFB03, [0x46; 0x46; 0x49]); (0xFB04, [0x46; 0x46; 0x4C]); (0xFB05, [0x53; 0x54]);
   (0xFB06, [0x53; 0x54]); (0xFB13, [0x544; 0x546]); (0xFB14, [0x544; 0x535]);
   (0xFB15, [0x544; 0x53B]); (0xFB16, [0x54E; 0x546]); (0xFB17, [0x544; 0x53D])
  ]%N.

Definition inRange (cp : N) (e : N * N * N * Z) : bool :=
  let '(first, last, step, _) := e in
  (first <=? cp)%N && (cp <=? last)%N && ((cp - first) mod step =? 0)%N.

Definition upperCodePoint (cp : N) : list N :=
  match find (fun e => (fst e =? cp)%N) upperSpecial with
  | Some e => snd e
  | None =>
      match find (inRange cp) upperRanges with
      | Some (_, _, _, delta) => [Z.to_N (Z.of_N cp + delta)]
      | None => [cp]
      end
  end.

Definition toUpperCase (s : string) : string :=
  fromCodePoints (flat_map upperCodePoint (codePoints s)).

(** [s.repeat(n)] for a one-character [s]. *)
Fixpoint repeat (c : ascii) (n : nat) : string :=
  match n with
  | O => EmptyString
  | S k => String c (repeat c k)
  end.

(** [s.split(sep)[0]]: the part of [s] before the first [sep]. *)
Fixpoint splitHead (sep : ascii) (s : string) : string :=
  match s with
  | EmptyString => EmptyString
  | String c r => if Ascii.eqb c sep then EmptyString else String c (splitHead sep r)
  end.

(** Truthiness of a [string | null] value. *)
Definition truthy (v : option string) : bool :=
  match v with
  | Some s => negb (s =? "")%string
  | None => false
  end.

(** [a || b] on [string | null] values. *)
Definition or (a b : option string) : option string :=
  if truthy a then a else b.

End JsString.

(* ================================================================= *)
(** ** Data model ([lib/types.ts]) *)

Inductive HandoffStep : Type :=
| none
| sender_confirmed
| handed_over
| delivered.

Inductive BookingStatus : Type :=
| status_pending
| status_approved
| status_rejected
| status_cancelled
| status_handed_over
| status_delivered.

Definition HandoffStep_eqb (a b : HandoffStep) : bool :=
  match a, b with
  | none, none | sender_confirmed, sender_confirmed
  | handed_over, handed_over | delivered, delivered => true
  | _, _ => false
  end.

Definition BookingStatus_eqb (a b : BookingStatus) : bool :=
  match a, b with
  | status_pending, status_pending | status_approved, status_approved
  | status_rejected, status_rejected | status_cancelled, status_cancelled
  | status_handed_over, status_handed_over
  | status_delivered, status_delivered => true
  | _, _ => false
  end.

Record BookingRequest : Type := {
  br_id : string;
  br_user_id : string;
  br_announcement_id : string;
  br_status : BookingStatus;
  br_handoff_step : option HandoffStep;
  br_delivery_code : option string
}.

Record Announcement : Type := {
  an_id : string;
  an_user_id : string;
  an_departure_city : string;
  an_destination_city : string;
  an_departure_date : string
}.

Record Profile : Type := {
  pr_id : string;
  pr_email : option string;
  pr_username : option string;
  pr_first_name : option string;
  pr_last_name : option string;
  pr_avatar_url : option string
}.

Record Message : Type := {
  msg_id : nat;
  msg_booking_request_id : string;
  msg_sender_id : string;
  msg_content : string;
  msg_is_system : bool;
  msg_read_at : option Z;
  msg_created_at : Z
}.

Record Rating : Type := {
  rt_booking_request_id : string;
  rt_rater_id : string;
  rt_rated_id : string;
  rt_score : Z;
  rt_comment : option string
}.

Record DisplayProfile : Type := {
  dp_first_name : option string;
  dp_last_name : option string;
  dp_avatar_url : option string
}.

Record Route : Type := {
  departure_city : string;
  destination_city : string;
  departure_date : string
}.

Record ConversationSummary : Type := {
  booking_request_id : string;
  other_user : DisplayProfile;
  other_user_id : string;
  last_message : option string;
  last_message_at : option Z;
  unread_count : nat;
  announcement : Route
}.

(* ================================================================= *)
(** ** The backend *)

Record Store : Type := {
  booking_requests : list BookingRequest;
  announcements : list Announcement;
  profiles : list Profile;
  messages : list Message;
  ratings : list Rating
}.

(** The world a call runs in: the tables, the requests that are going to
    fail ([true] at the head: the next query comes back with an error and
    has no effect), the clock, and the values [Math.random] is going to
    return. *)
Record World : Type := {
  store : Store;
  faults : list bool;
  clock : Z;
  random : list Q
}.

Inductive Error : Type :=
| StorageError            (* the [error] of a failed query *)
| NoSingleRow             (* [single] or [maybeSingle] on the wrong number of rows *)
| JsError (message : string).   (* [new Error(message)] *)

Record Response (T : Type) : Type := {
  data : option T;
  error : option Error
}.

Record CountResponse : Type := {
  count : option nat;
  count_error : option Error
}.

Definition ok {T} (x : T) : Response T := {| data := Some x; error := None |}.
Definition empty {T} : Response T := {| data := None; error := None |}.
Definition failed {T} (e : Error) : Response T := {| data := None; error := Some e |}.

(** *** Filters of the query builder *)

Inductive BookingFilter : Type :=
| booking_eq_id (v : string)
| booking_not_status_in (vs : list BookingStatus).

Inductive AnnouncementFilter : Type :=
| announcement_eq_id (v : string).

Inductive ProfileFilter : Type :=
| profile_eq_id (v : string).

Inductive MessageFilter : Type :=
| message_eq_booking_request_id (v : string)
| message_neq_sender_id (v : string)
| message_is_read_at_null.

Inductive RatingFilter : Type :=
| rating_eq_rated_id (v : string).

Definition booking_matches (f : BookingFilter) (b : BookingRequest) : bool :=
  match f with
  | booking_eq_id v => br_id b =? v
  | booking_not_status_in vs => negb (existsb (BookingStatus_eqb (br_status b)) vs)
  end.

Definition announcement_matches (f : AnnouncementFilter) (a : Announcement) : bool :=
  match f with
  | announcement_eq_id v => an_id a =? v
  end.

Definition profile_matches (f : ProfileFilter) (p : Profile) : bool :=
  match f with
  | profile_eq_id v => pr_id p =? v
  end.

Definition message_matches (f : MessageFilter) (m : Message) : bool :=
  match f with
  | message_eq_booking_request_id v => msg_booking_request_id m =? v
  | message_neq_sender_id v => negb (msg_sender_id m =? v)
  | message_is_read_at_null =>
      match msg_read_at m with None => true | Some _ => false end
  end.

Definition rating_matches (f : RatingFilter) (r : Rating) : bool :=
  match f with
  | rating_eq_rated_id v => rt_rated_id r =? v
  end.

(** A row is selected when it passes every filter of the chain. *)
Definition selects {F T} (matches : F -> T -> bool) (fs : list F) (row : T) : bool :=
  forallb (fun f => matches f row) fs.

(** *** Rows to write *)

(** The [updateData] object of a booking update: [handoff_step] is always
    present, [status] and [delivery_code] only when assigned. *)
Record BookingPatch : Type := {
  patch_handoff_step : HandoffStep;
  patch_status : option BookingStatus;
  patch_delivery_code : option string
}.

Record NewMessage : Type := {
  new_booking_request_id : string;
  new_sender_id : string;
  new_content : string;
  new_is_system : option bool     (* omitted: the column default, false *)
}.

Definition apply_booking_patch (p : BookingPatch) (b : BookingRequest) : BookingRequest :=
  {| br_id := br_id b;
     br_user_id := br_user_id b;
     br_announcement_id := br_announcement_id b;
     br_status := match patch_status p with Some s => s | None => br_status b end;
     br_handoff_step := Some (patch_handoff_step p);
     br_delivery_code :=
       match patch_delivery_code p with
       | Some c => Some c
       | None => br_delivery_code b
       end |}.

Definition set_read_at (t : Z) (m : Message) : Message :=
  {| msg_id := msg_id m;
     msg_booking_request_id := msg_booking_request_id m;
     msg_sender_id := msg_sender_id m;
     msg_content := msg_content m;
     msg_is_system := msg_is_system m;
     msg_read_at := Some t;
     msg_created_at := msg_created_at m |}.

(** The row the backend stores for an insert into [messages]: it gives the
    identity and [created_at], and [read_at] starts null. *)
Definition stored_message (st : Store) (now : Z) (n : NewMessage) : Message :=
  {| msg_id := List.length (messages st);
     msg_booking_request_id := new_booking_request_id n;
     msg_sender_id := new_sender_id n;
     msg_content := new_content n;
     msg_is_system := match new_is_system n with Some b => b | None => false end;
     msg_read_at := None;
     msg_created_at := now |}.

Definition with_booking_requests (st : Store) (l : list BookingRequest) : Store :=
  {| booking_requests := l; announcements := announcements st;
     profiles := profiles st; messages := messages st; ratings := ratings st |}.

Definition with_messages (st : Store) (l : list Message) : Store :=
  {| booking_requests := booking_requests st; announcements := announcements st;
     profiles := profiles st; messages := l; ratings := ratings st |}.

Definition with_ratings (st : Store) (l : list Rating) : Store :=
  {| booking_requests := booking_requests st; announcements := announcements st;
     profiles := profiles st; messages := messages st; ratings := l |}.

(** *** Result modifiers *)

(** [.single()]: exactly one row, or an error. *)
Definition single {T} (rows : list T) : Response T :=
  match rows with
  | [r] => ok r
  | _ => failed NoSingleRow
  end.

(** [.maybeSingle()]: no row gives null without an error. *)
Definition maybeSingle {T} (rows : list T) : Response T :=
  match rows with
  | [] => empty
  | [r] => ok r
  | _ => failed NoSingleRow
  end.

(** [.order('created_at', { ascending: false }).limit(1)]: the row with the
    greatest [created_at], the earliest stored one among equals. *)
Fixpoint latest_from (best : Message) (rows : list Message) : Message :=
  match rows with
  | [] => best
  | m :: rest =>
      if (msg_created_at best <? msg_created_at m)%Z
      then latest_from m rest else latest_from best rest
  end.

Definition latest (rows : list Message) : list Message :=
  match rows with
  | [] => []
  | m :: rest => [latest_from m rest]
  end.

(* ================================================================= *)
(** ** Requests *)

Inductive Request : Type -> Type :=
| BookingsSelect (fs : list BookingFilter) : Request (Response (list BookingRequest))
| BookingsSelectSingle (fs : list BookingFilter) : Request (Response BookingRequest)
| BookingsUpdate (p : BookingPatch) (fs : list BookingFilter) : Request (Response unit)
| AnnouncementsSelectSingle (fs : list AnnouncementFilter) : Request (Response Announcement)
| ProfilesSelectMaybeSingle (fs : list ProfileFilter) : Request (Response Profile)
| MessagesSelectLatestMaybeSingle (fs : list MessageFilter) : Request (Response Message)
| MessagesCount (fs : list MessageFilter) : Request CountResponse
| MessagesInsert (row : NewMessage) : Request (Response unit)
| MessagesInsertSelectSingle (row : NewMessage) : Request (Response Message)
| MessagesUpdateReadAt (read_at : Z) (fs : list MessageFilter) : Request (Response unit)
| RatingsInsert (row : Rating) : Request (Response unit)
| RatingsSelect (fs : list RatingFilter) : Request (Response (list Rating))
| MathRandom : Request Q
| DateNow : Request Z.

Definition next_fault (w : World) : bool :=
  match faults w with
  | b :: _ => b
  | [] => false
  end.

Definition with_store (w : World) (st : Store) : World :=
  {| store := st; faults := tl (faults w); clock := clock w; random := random w |}.

(** The world after a query that did not write. *)
Definition answered (w : World) : World := with_store w (store w).

(** What the backend does with a query that reaches it. *)
Definition serve {R} (req : Request R) (w : World) : R * World :=
  let st := store w in
  match req in Request R return R * World with
  | BookingsSelect fs =>
      (ok (filter (selects booking_matches fs) (booking_requests st)), answered w)
  | BookingsSelectSingle fs =>
      (single (filter (selects booking_matches fs) (booking_requests st)), answered w)
  | BookingsUpdate p fs =>
      (empty,
       with_store w (with_booking_requests st
         (map (fun b => if selects booking_matches fs b
                        then apply_booking_patch p b else b)
              (booking_requests st))))
  | AnnouncementsSelectSingle fs =>
      (single (filter (selects announcement_matches fs) (announcements st)), answered w)
  | ProfilesSelectMaybeSingle fs =>
      (maybeSingle (filter (selects profile_matches fs) (profiles st)), answered w)
  | MessagesSelectLatestMaybeSingle fs =>
      (maybeSingle (latest (filter (selects message_matches fs) (messages st))), answered w)
  | MessagesCount fs =>
      ({| count := Some (List.length (filter (selects message_matches fs) (messages st)));
          count_error := None |}, answered w)
  | MessagesInsert row =>
      (empty,
       with_store w (with_messages st (messages st ++ [stored_message st (clock w) row])))
  | MessagesInsertSelectSingle row =>
      (ok (stored_message st (clock w) row),
       with_store w (with_messages st (messages st ++ [stored_message st (clock w) row])))
  | MessagesUpdateReadAt t fs =>
      (empty,
       with_store w (with_messages st
         (map (fun m => if selects message_matches fs m then set_read_at t m else m)
              (messages st))))
  | RatingsInsert row =>
      (empty, with_store w (with_ratings st (ratings st ++ [row])))
  | RatingsSelect fs =>
      (ok (filter (selects rating_matches fs) (ratings st)), answered w)
  | MathRandom => (0%Q, w)
  | DateNow => (clock w, w)
  end.

(** The answer to a query that fails. *)
Definition refuse {R} (req : Request R) : R :=
  match req in Request R return R with
  | BookingsSelect _ => failed StorageError
  | BookingsSelectSingle _ => failed StorageError
  | BookingsUpdate _ _ => failed StorageError
  | AnnouncementsSelectSingle _ => failed StorageError
  | ProfilesSelectMaybeSingle _ => failed StorageError
  | MessagesSelectLatestMaybeSingle _ => failed StorageError
  | MessagesCount _ => {| count := None; count_error := Some StorageError |}
  | MessagesInsert _ => failed StorageError
  | MessagesInsertSelectSingle _ => failed StorageError
  | MessagesUpdateReadAt _ _ => failed StorageError
  | RatingsInsert _ => failed StorageError
  | RatingsSelect _ => failed StorageError
  | MathRandom => 0%Q
  | DateNow => 0%Z
  end.

(** One request against the world.  [Math.random] takes the next value of
    the random source, [new Date()] reads the clock; a query fails when the
    next fault says so and is served otherwise. *)
Definition perform {R} (req : Request R) (w : World) : R * World :=
  match req in Request R return R * World with
  | MathRandom =>
      (match random w with r :: _ => r | [] => 0%Q end,
       {| store := store w; faults := faults w; clock := clock w;
          random := tl (random w) |})
  | DateNow => (clock w, w)
  | q => if next_fault w then (refuse q, answered w) else serve q w
  end.

(* ================================================================= *)
(** ** Asynchronous functions *)

Inductive Async (A : Type) : Type :=
| Return (a : A)
| Throw (e : Error)
| Await {R : Type} (req : Request R) (k : R -> Async A).

Arguments Return {A} a.
Arguments Throw {A} e.
Arguments Await {A R} req k.

Fixpoint bind {A B} (p : Async A) (f : A -> Async B) : Async B :=
  match p with
  | Return a => f a
  | Throw e => Throw e
  | Await req k => Await req (fun r => bind (k r) f)
  end.

(** [try { p } catch { h }]. *)
Fixpoint try_catch {A} (p : Async A) (h : Error -> Async A) : Async A :=
  match p with
  | Return a => Return a
  | Throw e => h e
  | Await req k => Await req (fun r => try_catch (k r) h)
  end.

Declare Scope async_scope.
Delimit Scope async_scope with async.
Notation "'let*' x ':=' p 'in' q" := (bind p (fun x => q))
  (at level 10, x name, p at level 100, q at level 200) : async_scope.
Notation "'await' x ':=' req 'in' q" := (Await req (fun x => q))
  (at level 10, x name, req at level 100, q at level 200) : async_scope.
Local Open Scope async_scope.

(** How a promise settles. *)
Inductive Outcome (A : Type) : Type :=
| Resolved (a : A)
| Rejected (e : Error).

Arguments Resolved {A} a.
Arguments Rejected {A} e.

(** A whole call, with nothing else touching the world meanwhile. *)
Fixpoint run {A} (p : Async A) (w : World) : Outcome A * World :=
  match p with
  | Return a => (Resolved a, w)
  | Throw e => (Rejected e, w)
  | Await req k => let (r, w') := perform req w in run (k r) w'
  end.

(** The next request of a call that has not settled yet. *)
Definition step {A} (p : Async A) (w : World) : Async A * World :=
  match p with
  | Await req k => let (r, w') := perform req w in (k r, w')
  | settled => (settled, w)
  end.

(** Two calls against the same backend.  The schedule says whose request
    goes next ([true]: the first call's); when it runs out the first call
    runs to its end and then the second. *)
Fixpoint interleave {A B} (schedule : list bool) (p : Async A) (q : Async B)
    (w : World) : (Outcome A * Outcome B) * World :=
  match schedule with
  | [] =>
      let (a, w1) := run p w in
      let (b, w2) := run q w1 in
      ((a, b), w2)
  | true :: rest => let (p', w') := step p w in interleave rest p' q w'
  | false :: rest => let (q', w') := step q w in interleave rest p q' w'
  end.

(* ================================================================= *)
(** ** [lib/chat.ts] *)

Definition sendMessage (bookingRequestId senderId content : string)
  : Async (option Message) :=
  let trimmed := JsString.trim content in
  if (trimmed =? "") || (2000 <? JsString.length trimmed)%nat then
    Throw (JsError "Message must be between 1 and 2000 characters")
  else
    await r := MessagesInsertSelectSingle
                 {| new_booking_request_id := bookingRequestId;
                    new_sender_id := senderId;
                    new_content := trimmed;
                    new_is_system := None |} in
    match error r with
    | Some e => Throw e
    | None => Return (data r)
    end.

Definition markAsRead (bookingRequestId userId : string) : Async unit :=
  await now := DateNow in
  await r := MessagesUpdateReadAt now
               [message_eq_booking_request_id bookingRequestId;
                message_neq_sender_id userId;
                message_is_read_at_null] in
  match error r with
  | Some e => Throw e
  | None => Return tt
  end.

(** The statuses without a chat. *)
Definition closed_statuses : list BookingStatus :=
  [status_pending; status_rejected; status_cancelled].

Definition displayProfile (otherProfile : option Profile) : DisplayProfile :=
  match otherProfile with
  | Some p =>
      {| dp_first_name :=
           JsString.or (JsString.or (JsString.or (pr_first_name p) (pr_username p))
                          (option_map (JsString.splitHead "@") (pr_email p)))
                       None;
         dp_last_name := pr_last_name p;
         dp_avatar_url := pr_avatar_url p |}
  | None => {| dp_first_name := None; dp_last_name := None; dp_avatar_url := None |}
  end.

(** The comparator given to [conversations.sort]. *)
Definition compareConversations (a b : ConversationSummary) : Z :=
  match last_message_at a, last_message_at b with
  | None, None => 0
  | None, Some _ => 1
  | Some _, None => -1
  | Some ta, Some tb => tb - ta
  end.

(** [Array.prototype.sort]: a stable sort by the comparator. *)
Module JsArray.
Section Sort.
Variable T : Type.
Variable compare : T -> T -> Z.

Fixpoint insert (x : T) (l : list T) : list T :=
  match l with
  | [] => [x]
  | y :: rest => if (compare x y <=? 0)%Z then x :: l else y :: insert x rest
  end.

Definition sort (l : list T) : list T := fold_right insert [] l.
End Sort.
End JsArray.

(** The body of the [for (const booking of bookings)] loop, with the
    conversations pushed so far. *)
Fixpoint conversationsLoop (userId : string) (bookings : list BookingRequest)
    (conversations : list ConversationSummary) : Async (list ConversationSummary) :=
  match bookings with
  | [] => Return conversations
  | booking :: rest =>
      await annR := AnnouncementsSelectSingle
                      [announcement_eq_id (br_announcement_id booking)] in
      match data annR with
      | None => conversationsLoop userId rest conversations
      | Some ann =>
          if negb (br_user_id booking =? userId) && negb (an_user_id ann =? userId)
          then conversationsLoop userId rest conversations
          else
            let otherUserId :=
              if br_user_id booking =? userId then an_user_id ann
              else br_user_id booking in
            await profileR := ProfilesSelectMaybeSingle [profile_eq_id otherUserId] in
            await lastMsgR := MessagesSelectLatestMaybeSingle
                                [message_eq_booking_request_id (br_id booking)] in
            await countR := MessagesCount
                              [message_eq_booking_request_id (br_id booking);
                               message_neq_sender_id userId;
                               message_is_read_at_null] in
            conversationsLoop userId rest
              (conversations ++
               [{| booking_request_id := br_id booking;
                   other_user := displayProfile (data profileR);
                   other_user_id := otherUserId;
                   last_message :=
                     JsString.or (option_map msg_content (data lastMsgR)) None;
                   last_message_at := option_map msg_created_at (data lastMsgR);
                   unread_count := match count countR with Some n => n | None => 0 end;
                   announcement :=
                     {| departure_city := an_departure_city ann;
                        destination_city := an_destination_city ann;
                        departure_date := an_departure_date ann |} |}])
      end
  end.

Definition fetchConversations (userId : string) : Async (list ConversationSummary) :=
  await bookingsR := BookingsSelect [booking_not_status_in closed_statuses] in
  match error bookingsR with
  | Some bookingsError => Throw bookingsError
  | None =>
      match data bookingsR with
      | None => Return []
      | Some bookings =>
          let* conversations := conversationsLoop userId bookings [] in
          Return (JsArray.sort compareConversations conversations)
      end
  end.

Definition chars : string := "ABCDEFGHJKLMNPQRSTUVWXYZ23456789".

(** [Math.floor(r * chars.length)]. *)
Definition randomIndex (r : Q) : Z :=
  Qfloor (r * inject_Z (Z.of_nat (JsString.length chars))).

(** [chars[i]] appended to a string: the character, or the text of
    [undefined] outside the string. *)
Definition charAt (s : string) (i : Z) : string :=
  if (i <? 0)%Z then "undefined"
  else match String.get (Z.to_nat i) s with
       | Some c => String c EmptyString
       | None => "undefined"
       end.

(** [n] more rounds of the loop of [generateDeliveryCode]. *)
Fixpoint generateLoop (n : nat) (code : string) : Async string :=
  match n with
  | O => Return code
  | S k => await r := MathRandom in generateLoop k (code ++ charAt chars (randomIndex r))
  end.

Definition generateDeliveryCode : Async string := generateLoop 10 "".

Definition systemMessages (step : HandoffStep) : option string :=
  match step with
  | sender_confirmed => Some "[HANDOFF] sender_confirmed"
  | handed_over => Some "[HANDOFF] handed_over"
  | delivered => Some "[HANDOFF] delivered"
  | none => None
  end.

Definition statusForStep (step : HandoffStep) : option BookingStatus :=
  match step with
  | handed_over => Some status_handed_over
  | delivered => Some status_delivered
  | _ => None
  end.

Definition confirmHandoff (bookingRequestId senderId : string) (step : HandoffStep)
  : Async (option string) :=
  let* deliveryCode :=
    (match step with
     | handed_over => let* code := generateDeliveryCode in Return (Some code)
     | _ => Return None
     end) in
  let updateData :=
    {| patch_handoff_step := step;
       patch_status := statusForStep step;
       patch_delivery_code := deliveryCode |} in
  await updateR := BookingsUpdate updateData [booking_eq_id bookingRequestId] in
  match error updateR with
  | Some updateError => Throw updateError
  | None =>
      match systemMessages step with
      | Some content =>
          await msgR := MessagesInsert
                          {| new_booking_request_id := bookingRequestId;
                             new_sender_id := senderId;
                             new_content := content;
                             new_is_system := Some true |} in
          match error msgR with
          | Some msgError => Throw msgError
          | None => Return deliveryCode
          end
      | None => Return deliveryCode
      end
  end.

Definition fetchDeliveryCode (bookingRequestId : string) : Async (option string) :=
  await r := BookingsSelectSingle [booking_eq_id bookingRequestId] in
  match error r with
  | Some _ => Return None
  | None =>
      Return (JsString.or
                (match data r with Some b => br_delivery_code b | None => None end)
                None)
  end.

Definition validateDeliveryCode (bookingRequestId code senderId : string) : Async bool :=
  await r := BookingsSelectSingle [booking_eq_id bookingRequestId] in
  match error r, data r with
  | Some _, _ | None, None => Return false
  | None, Some row =>
      match br_handoff_step row with
      | Some handed_over =>
          match br_delivery_code row with
          | Some delivery_code =>
              if JsString.truthy (Some delivery_code)
                 && (JsString.trim (JsString.toUpperCase code)
                     =? JsString.trim (JsString.toUpperCase delivery_code))
              then
                await updateR := BookingsUpdate
                                   {| patch_handoff_step := delivered;
                                      patch_status := Some status_delivered;
                                      patch_delivery_code := None |}
                                   [booking_eq_id bookingRequestId] in
                match error updateR with
                | Some updateError => Throw updateError
                | None =>
                    await msgR := MessagesInsert
                                    {| new_booking_request_id := bookingRequestId;
                                       new_sender_id := senderId;
                                       new_content := "[HANDOFF] delivered";
                                       new_is_system := Some true |} in
                    match error msgR with
                    | Some msgError => Throw msgError
                    | None => Return true
                    end
                end
              else Return false
          | None => Return false
          end
      | _ => Return false
      end
  end.

Definition fetchHandoffStep (bookingRequestId : string) : Async HandoffStep :=
  await r := BookingsSelectSingle [booking_eq_id bookingRequestId] in
  match error r with
  | Some _ => Return none
  | None =>
      match data r with
      | Some row =>
          match br_handoff_step row with
          | Some step => Return step
          | None => Return none
          end
      | None => Return none
      end
  end.

Definition submitRating (bookingRequestId raterId ratedId : string) (score : Z)
    (comment : option string) : Async unit :=
  await r := RatingsInsert
               {| rt_booking_request_id := bookingRequestId;
                  rt_rater_id := raterId;
                  rt_rated_id := ratedId;
                  rt_score := score;
                  rt_comment := JsString.or comment None |} in
  match error r with
  | Some e => Throw e
  | None => Return tt
  end.

(** A JavaScript number: a finite double, kept as the rational it stands
    for, or one of the values that are not finite.  The sign of zero is not
    kept. *)
Inductive number : Type :=
| Finite (q : Q)
| NaN
| Infinity (negative : bool).

Module JsNumber.

(** The arithmetic of doubles: the exact result, rounded to nearest with
    ties to even, and an infinity from [2^1024] on. *)

Local Open Scope Q_scope.

Definition pow2 (e : Z) : Q := 2 ^ e.

(** The integer nearest to [x], the even one of two at the same distance. *)
Definition roundEven (x : Q) : Z :=
  let f := Qfloor x in
  match Qcompare (x - inject_Z f) (1 # 2) with
  | Lt => f
  | Gt => (f + 1)%Z
  | Eq => if Z.even f then f else (f + 1)%Z
  end.

(** The exponent [e] of the last place of the doubles next to a positive
    [q]: the one with [2^52 <= q / 2^e < 2^53], and -1074 where that is
    lower, in the subnormal range. *)
Definition lastPlace (q : Q) : Z :=
  let e := (Z.log2 (Qnum q) - Z.log2 (Zpos (Qden q)) - 53)%Z in
  let e := if Qle_bool (pow2 53) (q * pow2 (- e)) then (e + 1)%Z else e in
  Z.max e (-1074).

Definition nearestPositive (q : Q) : Q :=
  let e := lastPlace q in
  inject_Z (roundEven (q * pow2 (- e))) * pow2 e.

(** The rational rounded to 53 bits, to nearest and ties to even, the
    exponent unbounded above. *)
Definition nearest (q : Q) : Q :=
  let q := Qred q in
  Qred (match Qcompare q 0 with
        | Eq => 0
        | Gt => nearestPositive q
        | Lt => - nearestPositive (- q)
        end).

(** The double that an exact result is delivered as. *)
Definition round (q : Q) : number :=
  let r := nearest q in
  if Qle_bool (pow2 1024) (Qabs r) then Infinity (negb (Qle_bool 0 r)) else Finite r.

Definition isZero (q : Q) : bool := Qeq_bool q 0.

Definition negative (q : Q) : bool := negb (Qle_bool 0 q).

(** [a + b]. *)
Definition add (a b : number) : number :=
  match a, b with
  | NaN, _ | _, NaN => NaN
  | Finite x, Finite y => round (x + y)
  | Infinity s, Infinity t => if Bool.eqb s t then Infinity s else NaN
  | Infinity s, Finite _ | Finite _, Infinity s => Infinity s
  end.

(** [a / b]. *)
Definition divide (a b : number) : number :=
  match a, b with
  | NaN, _ | _, NaN => NaN
  | Finite x, Finite y =>
      if isZero y then (if isZero x then NaN else Infinity (negative x))
      else round (x / y)
  | Infinity _, Infinity _ => NaN
  | Infinity s, Finite y => Infinity (xorb s (negative y))
  | Finite _, Infinity _ => Finite 0
  end.

(** An integer of the database or a length, as a number. *)
Definition ofZ (z : Z) : number := round (inject_Z z).

End JsNumber.

Record AverageRating : Type := {
  average : number;
  rating_count : nat
}.

Definition fetchUserAverageRating (userId : string) : Async AverageRating :=
  await r := RatingsSelect [rating_eq_rated_id userId] in
  match error r, data r with
  | Some _, _ | None, None =>
      Return {| average := Finite 0; rating_count := 0 |}
  | None, Some rows =>
      if (List.length rows =? 0)%nat then
        Return {| average := Finite 0; rating_count := 0 |}
      else
        let total :=
          fold_left (fun sum r => JsNumber.add sum (JsNumber.ofZ (rt_score r)))
                    rows (Finite 0) in
        Return {| average :=
                    JsNumber.divide total (JsNumber.ofZ (Z.of_nat (List.length rows)));
                  rating_count := List.length rows |}
  end.

(* ================================================================= *)
(** ** The handoff button of the chat screen ([ChatScreen.tsx]) *)

(** The React state of an open chat that the handler reads and writes;
    [alerts] counts the error dialogs shown. *)
Record ChatState : Type := {
  user : option string;
  handoffLoading : bool;
  isSender : bool;
  isTraveler : bool;
  handoffStep : HandoffStep;
  deliveryCode : option string;
  alerts : nat
}.

Definition setHandoffLoading (v : bool) (s : ChatState) : ChatState :=
  {| user := user s; handoffLoading := v; isSender := isSender s;
     isTraveler := isTraveler s; handoffStep := handoffStep s;
     deliveryCode := deliveryCode s; alerts := alerts s |}.

Definition setHandoffStep (v : HandoffStep) (s : ChatState) : ChatState :=
  {| user := user s; handoffLoading := handoffLoading s; isSender := isSender s;
     isTraveler := isTraveler s; handoffStep := v;
     deliveryCode := deliveryCode s; alerts := alerts s |}.

Definition setDeliveryCode (v : option string) (s : ChatState) : ChatState :=
  {| user := user s; handoffLoading := handoffLoading s; isSender := isSender s;
     isTraveler := isTraveler s; handoffStep := handoffStep s;
     deliveryCode := v; alerts := alerts s |}.

Definition alert (s : ChatState) : ChatState :=
  {| user := user s; handoffLoading := handoffLoading s; isSender := isSender s;
     isTraveler := isTraveler s; handoffStep := handoffStep s;
     deliveryCode := deliveryCode s; alerts := S (alerts s) |}.

Definition handleHandoffAction (bookingRequestId : string) (s : ChatState)
  : Async ChatState :=
  match user s with
  | None => Return s
  | Some userId =>
      if handoffLoading s then Return s
      else
        let s := setHandoffLoading true s in
        let* s :=
          try_catch
            (if isSender s && HandoffStep_eqb (handoffStep s) none then
               let* _ := confirmHandoff bookingRequestId userId sender_confirmed in
               Return (setHandoffStep sender_confirmed s)
             else if isTraveler s && HandoffStep_eqb (handoffStep s) sender_confirmed then
               let* code := confirmHandoff bookingRequestId userId handed_over in
               let s := setHandoffStep handed_over s in
               Return (if JsString.truthy code then setDeliveryCode code s else s)
             else Return s)
            (fun _ => Return (alert s)) in
        Return (setHandoffLoading false s)
  end.

(* ================================================================= *)
(** ** A small backend to run the functions on *)

Module Sample.

(** Booking [B1] of sender [S] on the announcement [A1] of traveler [T]. *)
Definition B1 (step : option HandoffStep) (code : option string) : BookingRequest :=
  {| br_id := "B1"; br_user_id := "S"; br_announcement_id := "A1";
     br_status := status_approved; br_handoff_step := step;
     br_delivery_code := code |}.

Definition A1 : Announcement :=
  {| an_id := "A1"; an_user_id := "T"; an_departure_city := "Paris";
     an_destination_city := "Dakar"; an_departure_date := "2026-01-10" |}.

Definition hello (t : Z) : Message :=
  {| msg_id := 0; msg_booking_request_id := "B1"; msg_sender_id := "T";
     msg_content := "hello"; msg_is_system := false; msg_read_at := None;
     msg_created_at := t |}.

Definition tables (step : option HandoffStep) (code : option string)
    (msgs : list Message) : Store :=
  {| booking_requests := [B1 step code]; announcements := [A1];
     profiles := []; messages := msgs; ratings := [] |}.

(** A backend that answers every query. *)
Definition world (st : Store) : World :=
  {| store := st; faults := []; clock := 1000%Z; random := [] |}.

(** A backend whose queries fail as [fs] says. *)
Definition faulty (fs : list bool) (st : Store) : World :=
  {| store := st; faults := fs; clock := 1000%Z; random := [] |}.

End Sample.

(* ================================================================= *)
(** ** Vocabulary of the statements *)

(** No query of the world is going to fail. *)
Definition reliable (w : World) : Prop := forallb negb (faults w) = true.

(** The rows of [booking_requests] with the given identity. *)
Definition bookings_with_id (id : string) (st : Store) : list BookingRequest :=
  filter (fun b => br_id b =? id) (booking_requests st).

(** The scores given to a user, in table order. *)
Definition scores_of (userId : string) (st : Store) : list Z :=
  map rt_score (filter (fun r => rt_rated_id r =? userId) (ratings st)).

Definition sum (l : list Z) : Z := fold_right Z.add 0%Z l.

(** The exact mean of a list of scores. *)
Definition mean (scores : list Z) : Q :=
  (inject_Z (sum scores) / inject_Z (Z.of_nat (List.length scores)))%Q.

(** The finite doubles: 53 bits and an exponent from -1074 to 971. *)
Definition double (d : Q) : Prop :=
  exists m e : Z,
    (d == inject_Z m * JsNumber.pow2 e)%Q
    /\ (Z.abs m < 2 ^ 53)%Z
    /\ (-1074 <= e <= 971)%Z.

(** The number is the integer, exactly. *)
Definition is_integer (v : number) (z : Z) : Prop :=
  exists a, v = Finite a /\ (a == inject_Z z)%Q.

(** Scores that the doubles add without rounding: their absolute values
    sum to less than [2^53], and so does their number. *)
Definition summable (scores : list Z) : Prop :=
  (sum (map Z.abs scores) < 2 ^ 53)%Z /\ (Z.of_nat (List.length scores) < 2 ^ 53)%Z.

(** The row [submitRating] sends. *)
Definition rating_row (bookingRequestId raterId ratedId : string) (score : Z)
    (comment : option string) : Rating :=
  {| rt_booking_request_id := bookingRequestId;
     rt_rater_id := raterId;
     rt_rated_id := ratedId;
     rt_score := score;
     rt_comment := JsString.or comment None |}.

(** What the delivered transition does to a booking row. *)
Definition deliver (b : BookingRequest) : BookingRequest :=
  {| br_id := br_id b;
     br_user_id := br_user_id b;
     br_announcement_id := br_announcement_id b;
     br_status := status_delivered;
     br_handoff_step := Some delivered;
     br_delivery_code := br_delivery_code b |}.

(** The system message of a handoff step, as the backend stores it. *)
Definition system_message (st : Store) (now : Z) (bookingRequestId senderId content : string)
  : Message :=
  {| msg_id := List.length (messages st);
     msg_booking_request_id := bookingRequestId;
     msg_sender_id := senderId;
     msg_content := content;
     msg_is_system := true;
     msg_read_at := None;
     msg_created_at := now |}.

(** The conditions of the code check: the booking exists, its step is
    [handed_over], a delivery code is set (not null and not empty), and the
    two codes agree once both are uppercased and trimmed. *)
Definition code_accepted (st : Store) (bookingRequestId code : string) : Prop :=
  exists b stored,
    bookings_with_id bookingRequestId st = [b]
    /\ br_handoff_step b = Some handed_over
    /\ br_delivery_code b = Some stored
    /\ stored <> ""
    /\ JsString.trim (JsString.toUpperCase code)
       = JsString.trim (JsString.toUpperCase stored).

Definition length_error : Error :=
  JsError "Message must be between 1 and 2000 characters".

(** The row the backend stores for a chat message. *)
Definition chat_message (st : Store) (now : Z) (bookingRequestId senderId content : string)
  : Message :=
  {| msg_id := List.length (messages st);
     msg_booking_request_id := bookingRequestId;
     msg_sender_id := senderId;
     msg_content := content;
     msg_is_system := false;
     msg_read_at := None;
     msg_created_at := now |}.

(** A message of the conversation, sent by the other party, still unread. *)
Definition unread_from_other (bookingRequestId userId : string) (m : Message) : bool :=
  (msg_booking_request_id m =? bookingRequestId)
  && negb (msg_sender_id m =? userId)
  && match msg_read_at m with None => true | Some _ => false end.

(** What one [markAsRead] at time [now] does to a row. *)
Definition mark (bookingRequestId userId : string) (now : Z) (m : Message) : Message :=
  if unread_from_other bookingRequestId userId m then set_read_at now m else m.

(** The same world at another time. *)
Definition at_time (t : Z) (w : World) : World :=
  {| store := store w; faults := faults w; clock := t; random := random w |}.

(** [Math.random] returns a number from 0 up to, not including, 1. *)
Definition unit_interval (r : Q) : Prop := (0 <= r /\ r < 1)%Q.

Definition alphabet : list ascii := list_ascii_of_string chars.

(** The values the next [n] calls of [Math.random] return. *)
Fixpoint draws (n : nat) (rs : list Q) : list Q :=
  match n with
  | O => []
  | S k => match rs with r :: _ => r | [] => 0%Q end :: draws k (tl rs)
  end.

(** The code that a list of random values spells. *)
Definition spell (rs : list Q) (code : string) : string :=
  fold_left (fun code r => (code ++ charAt chars (randomIndex r))%string) rs code.

Definition with_random (w : World) (rs : list Q) : World :=
  {| store := store w; faults := faults w; clock := clock w; random := rs |}.

(** The code a call of [confirmHandoff] issues: none, except for the step
    [handed_over], where it is spelled by the next ten random values. *)
Definition issued_code (step : HandoffStep) (w : World) : option string :=
  match step with
  | handed_over => Some (spell (draws 10 (random w)) "")
  | _ => None
  end.

Definition handoff_patch (step : HandoffStep) (code : option string) : BookingPatch :=
  {| patch_handoff_step := step;
     patch_status := statusForStep step;
     patch_delivery_code := code |}.

(** The system message a step appends, if it has one. *)
Definition announced (st : Store) (now : Z) (bookingRequestId senderId : string)
    (step : HandoffStep) : list Message :=
  match systemMessages step with
  | Some content => [system_message st now bookingRequestId senderId content]
  | None => []
  end.

(** The step after a step in none, sender_confirmed, handed_over,
    delivered. *)
Definition successor (s : HandoffStep) : option HandoffStep :=
  match s with
  | none => Some sender_confirmed
  | sender_confirmed => Some handed_over
  | handed_over => Some delivered
  | delivered => None
  end.

(** The stored step of the rows with a booking identity. *)
Definition stored_steps (bookingRequestId : string) (st : Store)
  : list (option HandoffStep) :=
  map br_handoff_step (bookings_with_id bookingRequestId st).

(** The chat screen of the sender [S] of booking [B1], holding a step. *)
Definition sender_screen (held : HandoffStep) : ChatState :=
  {| user := Some "S"; handoffLoading := false; isSender := true;
     isTraveler := false; handoffStep := held; deliveryCode := None; alerts := 0 |}.

(** [latest_first a b]: [a] may come before [b] in the inbox: its latest
    message is not older, and a conversation without messages comes before
    nothing but another one without messages. *)
Definition latest_first (a b : ConversationSummary) : Prop :=
  match last_message_at a, last_message_at b with
  | Some ta, Some tb => (tb <= ta)%Z
  | Some _, None => True
  | None, Some _ => False
  | None, None => True
  end.

(** The announcement a booking was made on. *)
Definition announcement_of (st : Store) (b : BookingRequest) : list Announcement :=
  filter (fun a => an_id a =? br_announcement_id b) (announcements st).

(** The traveler of a booking: the owner of its announcement. *)
Definition traveler_of (st : Store) (b : BookingRequest) : option string :=
  match announcement_of st b with
  | [a] => Some (an_user_id a)
  | _ => None
  end.

(** Every booking points to exactly one announcement. *)
Definition referential (st : Store) : Prop :=
  forall b, In b (booking_requests st) -> exists a, announcement_of st b = [a].

(** The status gives the booking a chat. *)
Definition has_chat (b : BookingRequest) : bool :=
  negb (existsb (BookingStatus_eqb (br_status b)) closed_statuses).

(** The user is the sender or the traveler of the booking. *)
Definition participant (st : Store) (userId : string) (b : BookingRequest) : bool :=
  (br_user_id b =? userId)
  || match traveler_of st b with
     | Some t => t =? userId
     | None => false
     end.

Definition qualifies (st : Store) (userId : string) (b : BookingRequest) : bool :=
  participant st userId b && has_chat b.

Definition conversation_messages (st : Store) (bookingRequestId : string) : list Message :=
  filter (fun m => msg_booking_request_id m =? bookingRequestId) (messages st).

(** The time of the latest message of a conversation, if it has one. *)
Definition latest_time (st : Store) (bookingRequestId : string) : option Z :=
  match map msg_created_at (conversation_messages st bookingRequestId) with
  | [] => None
  | t :: ts => Some (fold_left Z.max ts t)
  end.

(** What one round of the loop pushes for a booking when every query is
    answered. *)
Definition pushed (st : Store) (userId : string) (booking : BookingRequest)
  : list ConversationSummary :=
  match data (single (filter (selects announcement_matches
                                [announcement_eq_id (br_announcement_id booking)])
                             (announcements st))) with
  | None => []
  | Some ann =>
      if negb (br_user_id booking =? userId) && negb (an_user_id ann =? userId)
      then []
      else
        let otherUserId :=
          if br_user_id booking =? userId then an_user_id ann else br_user_id booking in
        let lastMsg :=
          data (maybeSingle (latest (filter (selects message_matches
                                               [message_eq_booking_request_id (br_id booking)])
                                            (messages st)))) in
        [{| booking_request_id := br_id booking;
            other_user :=
              displayProfile
                (data (maybeSingle (filter (selects profile_matches
                                              [profile_eq_id otherUserId])
                                           (profiles st))));
            other_user_id := otherUserId;
            last_message := JsString.or (option_map msg_content lastMsg) None;
            last_message_at := option_map msg_created_at lastMsg;
            unread_count :=
              List.length (filter (selects message_matches
                                     [message_eq_booking_request_id (br_id booking);
                                      message_neq_sender_id userId;
                                      message_is_read_at_null])
                                  (messages st));
            announcement :=
              {| departure_city := an_departure_city ann;
                 destination_city := an_destination_city ann;
                 departure_date := an_departure_date ann |} |}]
  end.

Module Inbox.

(** Three bookings on the announcement of [T]: [B1] of sender [S] with
    one message, [B2] of sender [S] approved and silent, [B3] of sender
    [S] still pending; and [B4] of another sender with a later message. *)
Definition booking (id sender : string) (status : BookingStatus) : BookingRequest :=
  {| br_id := id; br_user_id := sender; br_announcement_id := "A1";
     br_status := status; br_handoff_step := Some none; br_delivery_code := None |}.

Definition said (n : nat) (id sender : string) (t : Z) : Message :=
  {| msg_id := n; msg_booking_request_id := id; msg_sender_id := sender;
     msg_content := "hi"; msg_is_system := false; msg_read_at := None;
     msg_created_at := t |}.

Definition tables : Store :=
  {| booking_requests :=
       [booking "B2" "S" status_approved; booking "B1" "S" status_approved;
        booking "B3" "S" status_pending; booking "B4" "U" status_handed_over];
     announcements := [Sample.A1];
     profiles := [];
     messages := [said 0 "B1" "S" 10; said 1 "B4" "U" 20];
     ratings := [] |}.

End Inbox.

Module Rated.

(** The ratings 5, 4 and 3 given to the traveler [T]. *)
Definition given (rater : string) (score : Z) : Rating :=
  {| rt_booking_request_id := "B1"; rt_rater_id := rater; rt_rated_id := "T";
     rt_score := score; rt_comment := None |}.

Definition tables : Store :=
  {| booking_requests := []; announcements := []; profiles := []; messages := [];
     ratings := [given "S" 5; given "U" 4; given "V" 3] |}.

End Rated.

(** [not_after compare a b]: the comparator does not put [a] after [b]. *)
Definition not_after {T} (compare : T -> T -> Z) (a b : T) : Prop :=
  (compare a b <= 0)%Z.

(* ================================================================= *)
(** ** The message hook ([hooks/useChat.ts]) *)

(** [send] of [useChat]: nothing without a user, otherwise [sendMessage]
    with its error logged and thrown again. *)
Definition send (bookingRequestId : string) (userId : option string) (content : string)
  : Async unit :=
  match userId with
  | None => Return tt
  | Some u =>
      try_catch (let* _ := sendMessage bookingRequestId u content in Return tt)
                (fun err => Throw err)
  end.

(** [markRead] of [useChat]: the error of [markAsRead] is logged and
    dropped. *)
Definition markRead (bookingRequestId : string) (userId : option string) : Async unit :=
  match userId with
  | None => Return tt
  | Some u => try_catch (markAsRead bookingRequestId u) (fun _ => Return tt)
  end.

(** A message with the profile joined on [sender_id]. *)
Record MessageWithSender : Type := {
  row : Message;
  sender_profile : option DisplayProfile
}.

(** [{ ...m, read_at: v }]. *)
Definition with_read_at (v : option Z) (m : MessageWithSender) : MessageWithSender :=
  {| row := {| msg_id := msg_id (row m);
               msg_booking_request_id := msg_booking_request_id (row m);
               msg_sender_id := msg_sender_id (row m);
               msg_content := msg_content (row m);
               msg_is_system := msg_is_system (row m);
               msg_read_at := v;
               msg_created_at := msg_created_at (row m) |};
     sender_profile := sender_profile m |}.

(** The state update of the INSERT subscription, given the row fetched for
    the event ([data], null when the fetch failed). *)
Definition onInsert (fetched : option MessageWithSender) (prev : list MessageWithSender)
  : list MessageWithSender :=
  match fetched with
  | None => prev
  | Some d =>
      if existsb (fun m => (msg_id (row m) =? msg_id (row d))%nat) prev
      then prev
      else (prev ++ [d])%list
  end.

(** The state update of the UPDATE subscription, given [payload.new]. *)
Definition onUpdate (payload_new : Message) (prev : list MessageWithSender)
  : list MessageWithSender :=
  map (fun m => if (msg_id (row m) =? msg_id payload_new)%nat
                then with_read_at (msg_read_at payload_new) m
                else m)
      prev.

(* ================================================================= *)
(** ** The chat screen: sending and rating ([ChatScreen.tsx]) *)

(** The state of the screen beside the handoff state: the composer, the
    rating form, and the number of confirmation dialogs shown. *)
Record Screen : Type := {
  chat : ChatState;
  inputText : string;
  sending : bool;
  showRating : bool;
  otherUserId : option string;
  ratingScore : Z;
  ratingComment : string;
  ratingSubmitting : bool;
  notices : nat
}.

Definition setChat (v : ChatState) (s : Screen) : Screen :=
  {| chat := v; inputText := inputText s; sending := sending s;
     showRating := showRating s; otherUserId := otherUserId s;
     ratingScore := ratingScore s; ratingComment := ratingComment s;
     ratingSubmitting := ratingSubmitting s; notices := notices s |}.

Definition setInputText (v : string) (s : Screen) : Screen :=
  {| chat := chat s; inputText := v; sending := sending s;
     showRating := showRating s; otherUserId := otherUserId s;
     ratingScore := ratingScore s; ratingComment := ratingComment s;
     ratingSubmitting := ratingSubmitting s; notices := notices s |}.

Definition setSending (v : bool) (s : Screen) : Screen :=
  {| chat := chat s; inputText := inputText s; sending := v;
     showRating := showRating s; otherUserId := otherUserId s;
     ratingScore := ratingScore s; ratingComment := ratingComment s;
     ratingSubmitting := ratingSubmitting s; notices := notices s |}.

Definition setShowRating (v : bool) (s : Screen) : Screen :=
  {| chat := chat s; inputText := inputText s; sending := sending s;
     showRating := v; otherUserId := otherUserId s;
     ratingScore := ratingScore s; ratingComment := ratingComment s;
     ratingSubmitting := ratingSubmitting s; notices := notices s |}.

Definition setRatingScore (v : Z) (s : Screen) : Screen :=
  {| chat := chat s; inputText := inputText s; sending := sending s;
     showRating := showRating s; otherUserId := otherUserId s;
     ratingScore := v; ratingComment := ratingComment s;
     ratingSubmitting := ratingSubmitting s; notices := notices s |}.

Definition setRatingComment (v : string) (s : Screen) : Screen :=
  {| chat := chat s; inputText := inputText s; sending := sending s;
     showRating := showRating s; otherUserId := otherUserId s;
     ratingScore := ratingScore s; ratingComment := v;
     ratingSubmitting := ratingSubmitting s; notices := notices s |}.

Definition setRatingSubmitting (v : bool) (s : Screen) : Screen :=
  {| chat := chat s; inputText := inputText s; sending := sending s;
     showRating := showRating s; otherUserId := otherUserId s;
     ratingScore := ratingScore s; ratingComment := ratingComment s;
     ratingSubmitting := v; notices := notices s |}.

(** [Alert.alert('', t('rating.submitted'))]. *)
Definition notice (s : Screen) : Screen :=
  {| chat := chat s; inputText := inputText s; sending := sending s;
     showRating := showRating s; otherUserId := otherUserId s;
     ratingScore := ratingScore s; ratingComment := ratingComment s;
     ratingSubmitting := ratingSubmitting s; notices := S (notices s) |}.

Definition handleSend (bookingRequestId : string) (s : Screen) : Async Screen :=
  let text := JsString.trim (inputText s) in
  if (text =? "") || sending s then Return s
  else
    let s := setInputText "" (setSending true s) in
    let sendText := (let* _ := send bookingRequestId (user (chat s)) text in Return s) in
    let* s :=
      try_catch
        (if HandoffStep_eqb (handoffStep (chat s)) handed_over && isSender (chat s) then
           let* valid :=
             (match user (chat s) with
              | Some userId => validateDeliveryCode bookingRequestId text userId
              | None => Throw (JsError "TypeError: null is not an object")
              end) in
           if valid
           then Return (setShowRating true (setChat (setHandoffStep delivered (chat s)) s))
           else sendText
         else sendText)
        (fun _ => Return (setInputText text (setChat (alert (chat s)) s))) in
    Return (setSending false s).

(** The scores of the star buttons of the rating form. *)
Definition stars : list Z := [1; 2; 3; 4; 5]%Z.

Definition handleSubmitRating (bookingRequestId : string) (s : Screen) : Async Screen :=
  match user (chat s), otherUserId s with
  | Some userId, Some other =>
      if (other =? "") || (ratingScore s =? 0)%Z then Return s
      else
        let s := setRatingSubmitting true s in
        let* s :=
          try_catch
            (let* _ := submitRating bookingRequestId userId other (ratingScore s)
                         (JsString.or (Some (JsString.trim (ratingComment s))) None) in
             Return (notice (setShowRating false s)))
            (fun _ => Return (setChat (alert (chat s)) s)) in
        Return (setRatingSubmitting false s)
  | _, _ => Return s
  end.

(** What the user can do on the screen: type, press the send button, press
    the handoff banner, press the [i]-th star, edit the comment, press the
    submit button of the rating form. *)
Inductive ScreenEvent : Type :=
| ChangeText (text : string)
| PressSend
| PressHandoff
| PressStar (i : nat)
| ChangeComment (text : string)
| PressSubmitRating.

Definition handle (bookingRequestId : string) (e : ScreenEvent) (s : Screen) : Async Screen :=
  match e with
  | ChangeText text => Return (setInputText text s)
  | PressSend => handleSend bookingRequestId s
  | PressHandoff =>
      let* c := handleHandoffAction bookingRequestId (chat s) in Return (setChat c s)
  | PressStar i =>
      match nth_error stars i with
      | Some star => Return (setRatingScore star s)
      | None => Return s
      end
  | ChangeComment text => Return (setRatingComment text s)
  | PressSubmitRating => handleSubmitRating bookingRequestId s
  end.

(** A sequence of events, each handler running to its end before the next
    event. *)
Fixpoint session (bookingRequestId : string) (events : list ScreenEvent) (s : Screen)
    (w : World) : Outcome Screen * World :=
  match events with
  | [] => (Resolved s, w)
  | e :: rest =>
      match run (handle bookingRequestId e s) w with
      | (Resolved s', w') => session bookingRequestId rest s' w'
      | (Rejected err, w') => (Rejected err, w')
      end
  end.

Section Rendering.

(** The translation function of the screen. *)
Variable t : string -> string.

Definition parseSystemMessage (content : string) : option string :=
  if content =? "[HANDOFF] sender_confirmed"
  then Some (t "handoff.systemMessages.senderConfirmed")
  else if content =? "[HANDOFF] handed_over"
  then Some (t "handoff.systemMessages.handedOver")
  else if content =? "[HANDOFF] delivered"
  then Some (t "handoff.systemMessages.delivered")
  else None.

(** [systemText] of [renderMessage]: when it is truthy the item is drawn
    as a system notice, otherwise as a chat bubble. *)
Definition systemText (item : Message) : option string :=
  if msg_is_system item || String.prefix "[HANDOFF]" (msg_content item)
  then parseSystemMessage (msg_content item)
  else None.

End Rendering.

(** The translation key of the notice of a step. *)
Definition notice_key (step : HandoffStep) : option string :=
  match step with
  | sender_confirmed => Some "handoff.systemMessages.senderConfirmed"
  | handed_over => Some "handoff.systemMessages.handedOver"
  | delivered => Some "handoff.systemMessages.delivered"
  | none => None
  end.

(* ================================================================= *)
(** ** Several calls at once *)

(** Every request a call can issue satisfies [P]. *)
Inductive issues (P : forall R, Request R -> Prop) {A : Type} : Async A -> Prop :=
| issues_Return (a : A) : issues P (Return a)
| issues_Throw (e : Error) : issues P (Throw e)
| issues_Await (R : Type) (req : Request R) (k : R -> Async A) :
    P R req -> (forall r, issues P (k r)) -> issues P (Await req k).

(** The [i]-th of the calls in flight makes its next request. *)
Fixpoint step_nth (i : nat) (calls : list (Async unit)) (w : World)
  : list (Async unit) * World :=
  match calls with
  | [] => ([], w)
  | p :: rest =>
      match i with
      | O => let (p', w') := step p w in (p' :: rest, w')
      | S j => let (rest', w') := step_nth j rest w in (p :: rest', w')
      end
  end.

(** The calls in flight run to their ends, one after the other. *)
Fixpoint finish (calls : list (Async unit)) (w : World) : World :=
  match calls with
  | [] => w
  | p :: rest => finish rest (snd (run p w))
  end.

(** Any number of calls against the same backend: the schedule names the
    call whose request goes next, and when it runs out the calls finish in
    order. *)
Fixpoint concurrently (schedule : list nat) (calls : list (Async unit)) (w : World)
  : World :=
  match schedule with
  | [] => finish calls w
  | i :: rest => let (calls', w') := step_nth i calls w in concurrently rest calls' w'
  end.

(** The calls of the library and of the chat screen. *)
Inductive Call : Type :=
| call_sendMessage (bookingRequestId senderId content : string)
| call_markAsRead (bookingRequestId userId : string)
| call_fetchConversations (userId : string)
| call_confirmHandoff (bookingRequestId senderId : string) (step : HandoffStep)
| call_fetchDeliveryCode (bookingRequestId : string)
| call_validateDeliveryCode (bookingRequestId code senderId : string)
| call_fetchHandoffStep (bookingRequestId : string)
| call_submitRating (bookingRequestId raterId ratedId : string) (score : Z)
    (comment : option string)
| call_fetchUserAverageRating (userId : string)
| call_handle (bookingRequestId : string) (e : ScreenEvent) (s : Screen).

(** A call with its result dropped. *)
Definition program (c : Call) : Async unit :=
  match c with
  | call_sendMessage b s c => let* _ := sendMessage b s c in Return tt
  | call_markAsRead b u => markAsRead b u
  | call_fetchConversations u => let* _ := fetchConversations u in Return tt
  | call_confirmHandoff b s step => let* _ := confirmHandoff b s step in Return tt
  | call_fetchDeliveryCode b => let* _ := fetchDeliveryCode b in Return tt
  | call_validateDeliveryCode b c s => let* _ := validateDeliveryCode b c s in Return tt
  | call_fetchHandoffStep b => let* _ := fetchHandoffStep b in Return tt
  | call_submitRating b r d score comment => submitRating b r d score comment
  | call_fetchUserAverageRating u => let* _ := fetchUserAverageRating u in Return tt
  | call_handle b e s => let* _ := handle b e s in Return tt
  end.

(** [status] follows [handoff_step]: a handed-over booking has the status
    handed_over and a delivered booking the status delivered. *)
Definition lockstep (b : BookingRequest) : Prop :=
  match br_handoff_step b with
  | Some handed_over => br_status b = status_handed_over
  | Some delivered => br_status b = status_delivered
  | _ => True
  end.

(** A booking update that writes the status of its step. *)
Definition keeps_lockstep (p : BookingPatch) : Prop :=
  match patch_handoff_step p with
  | handed_over => patch_status p = Some status_handed_over
  | delivered => patch_status p = Some status_delivered
  | _ => True
  end.

(** A message and what it may become: itself, or itself read if it was
    unread. *)
Definition read_later (m m' : Message) : Prop :=
  m' = m \/ (msg_read_at m = None /\ exists t, m' = set_read_at t m).

(** A table of messages and what it may become: every row itself or read,
    in place, followed by new rows. *)
Definition extends (old new : list Message) : Prop :=
  exists kept added, new = (kept ++ added)%list /\ Forall2 read_later old kept.

(** The writes the library makes: booking updates that keep the lockstep,
    and read marks on unread messages only. *)
Definition guarded (R : Type) (req : Request R) : Prop :=
  match req with
  | BookingsUpdate p _ => keeps_lockstep p
  | MessagesUpdateReadAt _ fs => In message_is_read_at_null fs
  | _ => True
  end.

(** The writes of a call that sends messages or moves the handoff: the
    guarded writes, and no rating. *)
Definition quiet (R : Type) (req : Request R) : Prop :=
  guarded req
  /\ match req with
     | RatingsInsert _ => False
     | _ => True
     end.

(** Every value a call can resolve to satisfies [Q]. *)
Inductive yields {A : Type} (Q : A -> Prop) : Async A -> Prop :=
| yields_Return (a : A) : Q a -> yields Q (Return a)
| yields_Throw (e : Error) : yields Q (Throw e)
| yields_Await (R : Type) (req : Request R) (k : R -> Async A) :
    (forall r, yields Q (k r)) -> yields Q (Await req k).

(** A score the rating form can hold: none yet, or one of the stars. *)
Definition star_or_none (score : Z) : Prop := (0 <= score <= 5)%Z.

(** A score of one to five. *)
Definition in_range (r : Rating) : Prop := (1 <= rt_score r <= 5)%Z.

(** The screen as it opens, before the booking is loaded. *)
Definition opened (userId : option string) : Screen :=
  {| chat := {| user := userId; handoffLoading := false; isSender := false;
                isTraveler := false; handoffStep := none; deliveryCode := None;
                alerts := 0 |};
     inputText := ""; sending := false; showRating := false; otherUserId := None;
     ratingScore := 0; ratingComment := ""; ratingSubmitting := false; notices := 0 |}.

(** The screen of the sender [S] of booking [B1], facing the traveler [T],
    holding a step and a typed text. *)
Definition sender_composer (held : HandoffStep) (text : string) : Screen :=
  {| chat := sender_screen held;
     inputText := text; sending := false; showRating := false; otherUserId := Some "T";
     ratingScore := 0; ratingComment := ""; ratingSubmitting := false; notices := 0 |}.

(* ================================================================= *)
(** ** The remaining queries of [lib/chat.ts] *)

(** The filters and queries that only [fetchMessages],
    [fetchRatingForBooking] and [getUnreadCount] use.  A call that uses
    them is a tree of queries ([Task]), run by [exec]; the requests above
    are queries too ([Narrow]). *)
Inductive WideAnnouncementFilter : Type :=
| announcement_in_id (vs : list string).

Inductive WideMessageFilter : Type :=
| message_in_booking_request_id (vs : list string)
| message_also (f : MessageFilter).

Inductive WideRatingFilter : Type :=
| rating_eq_booking_request_id (v : string)
| rating_eq_rater_id (v : string).

Definition wide_announcement_matches (f : WideAnnouncementFilter) (a : Announcement)
  : bool :=
  match f with
  | announcement_in_id vs => existsb (String.eqb (an_id a)) vs
  end.

Definition wide_message_matches (f : WideMessageFilter) (m : Message) : bool :=
  match f with
  | message_in_booking_request_id vs => existsb (String.eqb (msg_booking_request_id m)) vs
  | message_also g => message_matches g m
  end.

Definition wide_rating_matches (f : WideRatingFilter) (r : Rating) : bool :=
  match f with
  | rating_eq_booking_request_id v => rt_booking_request_id r =? v
  | rating_eq_rater_id v => rt_rater_id r =? v
  end.

(** [profiles:sender_id (first_name, last_name, avatar_url)]: the profile
    the message points to, if there is one. *)
Definition joined (st : Store) (m : Message) : MessageWithSender :=
  {| row := m;
     sender_profile :=
       option_map (fun p => {| dp_first_name := pr_first_name p;
                               dp_last_name := pr_last_name p;
                               dp_avatar_url := pr_avatar_url p |})
                  (find (fun p => pr_id p =? msg_sender_id m) (profiles st)) |}.

(** [.order('created_at', { ascending: true })]; rows of the same time
    stay in table order. *)
Definition compareCreatedAt (a b : Message) : Z := (msg_created_at a - msg_created_at b)%Z.

Definition ascending (rows : list Message) : list Message :=
  JsArray.sort compareCreatedAt rows.

Inductive Query : Type -> Type :=
| Narrow {R : Type} (req : Request R) : Query R
| AnnouncementsSelect (fs : list WideAnnouncementFilter)
  : Query (Response (list Announcement))
| MessagesCountWide (fs : list WideMessageFilter) : Query CountResponse
| MessagesSelectAscending (fs : list MessageFilter)
  : Query (Response (list MessageWithSender))
| RatingsSelectMaybeSingle (fs : list WideRatingFilter) : Query (Response Rating).

(** One query against the world: a request as before, and the other
    queries failing when the next fault says so. *)
Definition answer {R} (q : Query R) (w : World) : R * World :=
  match q in Query R return R * World with
  | Narrow req => perform req w
  | AnnouncementsSelect fs =>
      (if next_fault w then failed StorageError
       else ok (filter (selects wide_announcement_matches fs) (announcements (store w))),
       answered w)
  | MessagesCountWide fs =>
      (if next_fault w then {| count := None; count_error := Some StorageError |}
       else {| count := Some (List.length
                                (filter (selects wide_message_matches fs)
                                        (messages (store w))));
               count_error := None |},
       answered w)
  | MessagesSelectAscending fs =>
      (if next_fault w then failed StorageError
       else ok (map (joined (store w))
                    (ascending (filter (selects message_matches fs)
                                       (messages (store w))))),
       answered w)
  | RatingsSelectMaybeSingle fs =>
      (if next_fault w then failed StorageError
       else maybeSingle (filter (selects wide_rating_matches fs) (ratings (store w))),
       answered w)
  end.

Inductive Task (A : Type) : Type :=
| Finish (a : A)
| Raise (e : Error)
| Ask {R : Type} (q : Query R) (k : R -> Task A).

Arguments Finish {A} a.
Arguments Raise {A} e.
Arguments Ask {A R} q k.

Notation "'ask' x ':=' q 'in' k" := (Ask q (fun x => k))
  (at level 10, x name, q at level 100, k at level 200) : async_scope.

Fixpoint exec {A} (p : Task A) (w : World) : Outcome A * World :=
  match p with
  | Finish a => (Resolved a, w)
  | Raise e => (Rejected e, w)
  | Ask q k => let (r, w') := answer q w in exec (k r) w'
  end.

(** A call of the requests above, as a task. *)
Fixpoint widen {A} (p : Async A) : Task A :=
  match p with
  | Return a => Finish a
  | Throw e => Raise e
  | Await req k => Ask (Narrow req) (fun r => widen (k r))
  end.

Definition fetchMessages (bookingRequestId : string) : Task (list MessageWithSender) :=
  ask r := MessagesSelectAscending [message_eq_booking_request_id bookingRequestId] in
  match error r with
  | Some e => Raise e
  | None => Finish (match data r with Some rows => rows | None => [] end)
  end.


(** [[...new Set(xs)]]: the first occurrence of each value, in order. *)
Fixpoint unique (xs : list string) : list string :=
  match xs with
  | [] => []
  | x :: rest => x :: filter (fun y => negb (y =? x)) (unique rest)
  end.

(** [annOwnerMap] after the [forEach]: the assignments, latest first. *)
Definition owners (found : option (list Announcement)) : list (string * string) :=
  match found with
  | Some l => fold_left (fun m a => (an_id a, an_user_id a) :: m) l []
  | None => []
  end.

(** [annOwnerMap[key]]: the latest assignment to the key. *)
Definition owner (annOwnerMap : list (string * string)) (key : string) : option string :=
  option_map snd (find (fun kv => fst kv =? key) annOwnerMap).

Definition getUnreadCount (userId : string) : Task nat :=
  ask bookingsR := Narrow (BookingsSelect [booking_not_status_in closed_statuses]) in
  match error bookingsR, data bookingsR with
  | Some _, _ | None, None => Finish 0
  | None, Some bookings =>
      let annIds := unique (map br_announcement_id bookings) in
      ask annR := AnnouncementsSelect [announcement_in_id annIds] in
      let annOwnerMap := owners (data annR) in
      let myBookingIds :=
        map br_id
            (filter (fun b =>
                       (br_user_id b =? userId)
                       || match owner annOwnerMap (br_announcement_id b) with
                          | Some o => o =? userId
                          | None => false
                          end)
                    bookings) in
      if (List.length myBookingIds =? 0)%nat then Finish 0
      else
        ask countR := MessagesCountWide
                        [message_in_booking_request_id myBookingIds;
                         message_also (message_neq_sender_id userId);
                         message_also message_is_read_at_null] in
        match count_error countR with
        | Some _ => Finish 0
        | None => Finish (match count countR with Some n => n | None => 0 end)
        end
  end.

(** The sum of the badges of an inbox. *)
Definition unread_total (conversations : list ConversationSummary) : nat :=
  fold_right (fun c n => unread_count c + n) 0 conversations.

(** The unread messages a user has from others, over all conversations. *)
Definition unread_for (userId : string) (st : Store) : list Message :=
  filter (fun m => negb (msg_sender_id m =? userId)
                   && match msg_read_at m with None => true | Some _ => false end)
         (messages st).


(** The unread messages a user has from the other party in one
    conversation. *)
Definition unread_in (st : Store) (userId bookingRequestId : string) : nat :=
  List.length (filter (unread_from_other bookingRequestId userId) (messages st)).

(* ================================================================= *)
(** ** Running a call *)

(** A conjunction of closed facts, each settled by evaluation. *)
Ltac evaluated :=
  repeat match goal with |- _ /\ _ => split end;
  try discriminate; try (vm_compute; reflexivity).

Lemma run_bind {A B} (p : Async A) (f : A -> Async B) (w : World) :
  run (bind p f) w =
  match run p w with
  | (Resolved a, w') => run (f a) w'
  | (Rejected e, w') => (Rejected e, w')
  end.
Proof.
  revert w. induction p as [a | e | R req k IH]; intro w; simpl; auto.
  destruct (perform req w) as [r w']. apply IH.
Qed.

Lemma run_try_catch {A} (p : Async A) (h : Error -> Async A) (w : World) :
  run (try_catch p h) w =
  match run p w with
  | (Resolved a, w') => (Resolved a, w')
  | (Rejected e, w') => run (h e) w'
  end.
Proof.
  revert w. induction p as [a | e | R req k IH]; intro w; simpl; auto.
  destruct (perform req w) as [r w']. apply IH.
Qed.

Lemma reliable_next_fault (w : World) : reliable w -> next_fault w = false.
Proof.
  unfold reliable, next_fault.
  destruct (faults w) as [| [] fs]; simpl; auto; discriminate.
Qed.

Lemma reliable_with_store (w : World) (st : Store) :
  reliable w -> reliable (with_store w st).
Proof.
  unfold reliable, with_store; simpl.
  destruct (faults w) as [| b fs]; simpl; auto.
  intro H. apply andb_true_iff in H. tauto.
Qed.

Lemma reliable_answered (w : World) : reliable w -> reliable (answered w).
Proof. apply reliable_with_store. Qed.

Lemma selects_eq_id (id : string) (l : list BookingRequest) :
  filter (selects booking_matches [booking_eq_id id]) l
  = filter (fun b => br_id b =? id) l.
Proof.
  apply filter_ext. intro b. unfold selects; simpl. apply andb_true_r.
Qed.

(** The answer to [.eq('id', id).single()] on [booking_requests]. *)
Lemma perform_select_booking (id : string) (w : World) :
  perform (BookingsSelectSingle [booking_eq_id id]) w
  = (if next_fault w then failed StorageError
     else single (bookings_with_id id (store w)), answered w).
Proof.
  unfold perform, bookings_with_id. destruct (next_fault w); simpl; auto.
  now rewrite selects_eq_id.
Qed.

(* ================================================================= *)
(** ** fetchHandoffStep *)

(** C10. [fetchHandoffStep] settles with a step for every booking identity
    and every backend, and never rejects or writes.  The step is [none]
    when the lookup fails, when no booking has the identity and when the
    stored field is null, which is also the answer for a booking whose
    stored step is [none]; otherwise it is the stored step. *)
Theorem fetchHandoffStep_never_raises (id : string) (w : World) :
  exists step w',
    run (fetchHandoffStep id) w = (Resolved step, w')
    /\ store w' = store w
    /\ (next_fault w = true -> step = none)
    /\ (bookings_with_id id (store w) = [] -> step = none)
    /\ (forall b, bookings_with_id id (store w) = [b] ->
          br_handoff_step b = None \/ br_handoff_step b = Some none -> step = none)
    /\ (forall b s, next_fault w = false -> bookings_with_id id (store w) = [b] ->
          br_handoff_step b = Some s -> step = s).
Proof.
  unfold fetchHandoffStep. cbn [run]. rewrite perform_select_booking.
  destruct (next_fault w) eqn:F.
  - exists none, (answered w). simpl. repeat split; auto. discriminate.
  - destruct (bookings_with_id id (store w)) as [| b [| b' l]] eqn:L; simpl.
    + exists none, (answered w). repeat split; auto; discriminate.
    + destruct (br_handoff_step b) as [s |] eqn:S; simpl.
      * exists s, (answered w). repeat split; auto; try discriminate.
        -- intros b0 E [N | N]; inversion E; subst b0; congruence.
        -- intros b0 s0 _ E N. inversion E; subst b0; congruence.
      * exists none, (answered w). repeat split; auto; try discriminate.
        intros b0 s0 _ E N. inversion E; subst b0; congruence.
    + exists none, (answered w). repeat split; auto; discriminate.
Qed.

(** C10 on the sample backend: a booking that does not exist, booking
    [B1] with nothing confirmed, and a handed-over [B1] whose lookup fails
    all give [none]. *)
Lemma fetchHandoffStep_never_raises_witness :
  let w := Sample.world (Sample.tables (Some none) None []) in
  let down := Sample.faulty [true] (Sample.tables (Some handed_over) None []) in
  (exists w', run (fetchHandoffStep "B9") w = (Resolved none, w'))
  /\ (exists w', run (fetchHandoffStep "B1") w = (Resolved none, w'))
  /\ (exists w', run (fetchHandoffStep "B1") down = (Resolved none, w')).
Proof.
  intros w down. split; [| split].
  - destruct (fetchHandoffStep_never_raises "B9" w)
      as (step & w' & Hrun & _ & _ & Missing & _).
    rewrite (Missing eq_refl) in Hrun. exists w'. exact Hrun.
  - destruct (fetchHandoffStep_never_raises "B1" w)
      as (step & w' & Hrun & _ & _ & _ & Null & _).
    rewrite (Null (Sample.B1 (Some none) None) eq_refl (or_intror eq_refl)) in Hrun.
    exists w'. exact Hrun.
  - destruct (fetchHandoffStep_never_raises "B1" down)
      as (step & w' & Hrun & _ & Failed & _).
    rewrite (Failed eq_refl) in Hrun. exists w'. exact Hrun.
Defined.

(* ================================================================= *)
(** ** fetchUserAverageRating *)

Lemma selects_eq_rated_id (userId : string) (l : list Rating) :
  filter (selects rating_matches [rating_eq_rated_id userId]) l
  = filter (fun r => rt_rated_id r =? userId) l.
Proof.
  apply filter_ext. intro r. unfold selects; simpl. apply andb_true_r.
Qed.

Section Rounding.

Local Open Scope Q_scope.

Lemma pow2_positive (e : Z) : 0 < JsNumber.pow2 e.
Proof. apply Qpower_0_lt. reflexivity. Qed.

Lemma pow2_plus (a b : Z) :
  JsNumber.pow2 (a + b) == JsNumber.pow2 a * JsNumber.pow2 b.
Proof. apply Qpower_plus. discriminate. Qed.

Lemma pow2_cancel (e : Z) : JsNumber.pow2 e * JsNumber.pow2 (- e) == 1.
Proof.
  rewrite <- pow2_plus. rewrite Z.add_opp_diag_r. reflexivity.
Qed.

Lemma pow2_le (a b : Z) : (a <= b)%Z -> JsNumber.pow2 a <= JsNumber.pow2 b.
Proof. intro H. apply Qpower_le_compat_l; [exact H | discriminate]. Qed.

Lemma pow2_lt (a b : Z) : (a < b)%Z -> JsNumber.pow2 a < JsNumber.pow2 b.
Proof. intro H. apply Qpower_lt_compat_l; [exact H | reflexivity]. Qed.

Lemma pow2_inject (e : Z) : (0 <= e)%Z -> JsNumber.pow2 e == inject_Z (2 ^ e).
Proof. intro H. unfold JsNumber.pow2. now rewrite Zpower_Qpower. Qed.

Lemma pow2_succ (e : Z) : JsNumber.pow2 (e + 1) == 2 * JsNumber.pow2 e.
Proof. rewrite pow2_plus. change (JsNumber.pow2 1) with 2. ring. Qed.

Lemma Qabs_diff_le (a b c : Q) :
  (c <= a -> a - c <= b) -> (a <= c -> c - a <= b) -> Qabs (a - c) <= b.
Proof.
  intros H1 H2. apply Qabs_case; intro H.
  - apply H1. lra.
  - assert (E : - (a - c) == c - a) by ring. rewrite E. apply H2. lra.
Qed.

Lemma Qabs_diff_ge (a c : Q) : a - c <= Qabs (a - c) /\ c - a <= Qabs (a - c).
Proof.
  split.
  - apply Qle_Qabs.
  - assert (E : c - a == - (a - c)) by ring. rewrite E.
    rewrite <- Qabs_opp. apply Qle_Qabs.
Qed.

(** [roundEven] gives an integer nearest to its argument. *)
Lemma roundEven_nearest (x : Q) (k : Z) :
  Qabs (inject_Z (JsNumber.roundEven x) - x) <= Qabs (inject_Z k - x).
Proof.
  pose proof (Qfloor_le x) as L. pose proof (Qlt_floor x) as U.
  destruct (Qabs_diff_ge (inject_Z k) x) as [G1 G2].
  assert (K : (k <= Qfloor x)%Z \/ (Qfloor x + 1 <= k)%Z) by lia.
  assert (K' : inject_Z k <= inject_Z (Qfloor x)
               \/ inject_Z (Qfloor x + 1) <= inject_Z k)
    by (destruct K as [K | K]; [left | right]; rewrite <- Zle_Qle; exact K).
  rewrite inject_Z_plus in K', U. change (inject_Z 1) with 1 in K', U.
  unfold JsNumber.roundEven.
  destruct (Qcompare (x - inject_Z (Qfloor x)) (1 # 2)) eqn:C.
  - apply Qeq_alt in C.
    destruct (Z.even (Qfloor x)).
    + apply Qabs_diff_le; intro; destruct K'; lra.
    + rewrite inject_Z_plus. change (inject_Z 1) with 1.
      apply Qabs_diff_le; intro; destruct K'; lra.
  - apply Qlt_alt in C. apply Qabs_diff_le; intro; destruct K'; lra.
  - apply Qgt_alt in C. rewrite inject_Z_plus. change (inject_Z 1) with 1.
    apply Qabs_diff_le; intro; destruct K'; lra.
Qed.

Lemma roundEven_bounds (x : Q) :
  (Qfloor x <= JsNumber.roundEven x <= Qfloor x + 1)%Z.
Proof.
  unfold JsNumber.roundEven.
  destruct (Qcompare (x - inject_Z (Qfloor x)) (1 # 2));
    [destruct (Z.even (Qfloor x)) | |]; lia.
Qed.

Lemma log2_bracket (n : Z) :
  (0 < n)%Z ->
  JsNumber.pow2 (Z.log2 n) <= inject_Z n /\ inject_Z n < 2 * JsNumber.pow2 (Z.log2 n).
Proof.
  intro H. destruct (Z.log2_spec n H) as [L U].
  pose proof (Z.log2_nonneg n) as P.
  rewrite <- pow2_succ, !pow2_inject by lia.
  rewrite <- Zle_Qle, <- Zlt_Qlt. split; [exact L | exact U].
Qed.

(** Before the exponent is settled: the first guess leaves the quotient
    between [2^52] and [2^54]. *)
Lemma first_guess (q : Q) :
  0 < q ->
  let e := (Z.log2 (Qnum q) - Z.log2 (Zpos (Qden q)) - 53)%Z in
  JsNumber.pow2 52 < q * JsNumber.pow2 (- e) /\ q * JsNumber.pow2 (- e) < JsNumber.pow2 54.
Proof.
  intros H e.
  assert (N : (0 < Qnum q)%Z).
  { destruct q as [n d]. unfold Qlt in H. simpl in *. lia. }
  destruct (log2_bracket N) as [LA UA].
  destruct (@log2_bracket (Zpos (Qden q)) eq_refl) as [LB UB].
  set (la := Z.log2 (Qnum q)) in *. set (lb := Z.log2 (Zpos (Qden q))) in *.
  assert (E : JsNumber.pow2 (- e)
              == JsNumber.pow2 lb * JsNumber.pow2 53 * JsNumber.pow2 (- la)).
  { rewrite <- !pow2_plus. unfold e. apply Qpower_comp; [reflexivity | lia]. }
  pose proof (pow2_positive la) as PA. pose proof (pow2_positive lb) as PB.
  pose proof (pow2_cancel la) as C.
  assert (Q : q * inject_Z (Zpos (Qden q)) == inject_Z (Qnum q)).
  { destruct q as [n d]. unfold Qeq, Qmult, inject_Z. simpl.
    rewrite Pos.mul_1_r. ring. }
  set (A := inject_Z (Qnum q)) in *. set (B := inject_Z (Zpos (Qden q))) in *.
  set (PLA := JsNumber.pow2 la) in *. set (PLB := JsNumber.pow2 lb) in *.
  set (I := JsNumber.pow2 (- la)) in *.
  assert (P53 : JsNumber.pow2 53 == 2 * JsNumber.pow2 52) by (apply (pow2_succ 52)).
  assert (P54 : JsNumber.pow2 54 == 4 * JsNumber.pow2 52).
  { rewrite (pow2_succ 53), P53. ring. }
  pose proof (pow2_positive 52) as P52.
  set (T := JsNumber.pow2 52) in *.
  rewrite E, P53, P54.
  assert (IP : 0 < I) by apply pow2_positive.
  assert (BP : 0 < B) by lra.
  (* q = A / B, I = 1 / PLA *)
  assert (X : q * (PLB * (2 * T) * I) * (B * PLA) == A * PLB * (2 * T)).
  { rewrite <- Q.
    assert (Y : q * (PLB * (2 * T) * I) * (B * PLA)
                == q * B * PLB * (2 * T) * (PLA * I)) by ring.
    rewrite Y, C. ring. }
  set (x := q * (PLB * (2 * T) * I)) in *.
  assert (BPA : 0 < B * PLA) by (apply Qmult_lt_0_compat; assumption).
  split.
  - apply (Qmult_lt_r _ _ _ BPA). rewrite X.
    assert (G : T * (B * PLA) < T * (2 * PLB * PLA)).
    { apply Qmult_lt_l; [exact P52 |]. apply Qmult_lt_r; [exact PA | lra]. }
    assert (G2 : T * (2 * PLB * PLA) <= T * (2 * PLB * A)).
    { apply Qmult_le_l; [exact P52 |].
      apply Qmult_le_l; [lra | exact LA]. }
    assert (R : A * PLB * (2 * T) == T * (2 * PLB * A)) by ring.
    rewrite R. lra.
  - apply (Qmult_lt_r _ _ _ BPA). rewrite X.
    assert (G : T * (2 * PLB * A) < T * (2 * PLB * (2 * PLA))).
    { apply Qmult_lt_l; [exact P52 |]. apply Qmult_lt_l; [lra | exact UA]. }
    assert (G2 : T * (4 * PLA * PLB) <= T * (4 * PLA * B)).
    { apply Qmult_le_l; [exact P52 |]. apply Qmult_le_l; [lra | exact LB]. }
    assert (R : A * PLB * (2 * T) == T * (2 * PLB * A)) by ring.
    assert (R2 : 4 * T * (B * PLA) == T * (4 * PLA * B)) by ring.
    assert (R3 : T * (2 * PLB * (2 * PLA)) == T * (4 * PLA * PLB)) by ring.
    rewrite R, R2. lra.
Qed.

Lemma lastPlace_low (q : Q) : (-1074 <= JsNumber.lastPlace q)%Z.
Proof. unfold JsNumber.lastPlace. lia. Qed.

Lemma half_pow2 (e : Z) : JsNumber.pow2 (- (e + 1)) == (1 # 2) * JsNumber.pow2 (- e).
Proof.
  assert (E : (- (e + 1) = - e + - 1)%Z) by lia. rewrite E, pow2_plus.
  change (JsNumber.pow2 (- 1)) with (/ 2). field.
Qed.

(** In the normal range the scaled value has 53 bits before the point. *)
Lemma lastPlace_normal (q : Q) :
  0 < q -> (-1074 < JsNumber.lastPlace q)%Z ->
  JsNumber.pow2 52 <= q * JsNumber.pow2 (- JsNumber.lastPlace q).
Proof.
  intros H N. destruct (first_guess H) as [L U]. unfold JsNumber.lastPlace in *.
  set (e := (Z.log2 (Qnum q) - Z.log2 (Zpos (Qden q)) - 53)%Z) in *.
  pose proof (pow2_succ 52) as P53. change (52 + 1)%Z with 53%Z in P53.
  destruct (Qle_bool (JsNumber.pow2 53) (q * JsNumber.pow2 (- e))) eqn:B.
  - apply Qle_bool_iff in B.
    rewrite Z.max_l in * by lia. rewrite half_pow2. lra.
  - rewrite Z.max_l in * by lia. lra.
Qed.

Lemma lastPlace_below (q : Q) :
  0 < q -> q * JsNumber.pow2 (- JsNumber.lastPlace q) < JsNumber.pow2 53.
Proof.
  intro H. destruct (first_guess H) as [L U]. unfold JsNumber.lastPlace.
  set (e := (Z.log2 (Qnum q) - Z.log2 (Zpos (Qden q)) - 53)%Z) in *.
  pose proof (pow2_succ 53) as P54. change (53 + 1)%Z with 54%Z in P54.
  set (e1 := if Qle_bool (JsNumber.pow2 53) (q * JsNumber.pow2 (- e))
             then (e + 1)%Z else e).
  assert (S : q * JsNumber.pow2 (- e1) < JsNumber.pow2 53).
  { unfold e1. destruct (Qle_bool (JsNumber.pow2 53) (q * JsNumber.pow2 (- e))) eqn:B.
    - rewrite half_pow2. lra.
    - assert (~ JsNumber.pow2 53 <= q * JsNumber.pow2 (- e))
        by (rewrite <- Qle_bool_iff, B; discriminate).
      lra. }
  apply Qle_lt_trans with (q * JsNumber.pow2 (- e1)); [| exact S].
  apply Qmult_le_l; [exact H |]. apply pow2_le. lia.
Qed.

Lemma scaled_back (q : Q) (e : Z) : q * JsNumber.pow2 (- e) * JsNumber.pow2 e == q.
Proof.
  rewrite <- Qmult_assoc, (Qmult_comm (JsNumber.pow2 (- e))), pow2_cancel. ring.
Qed.

Lemma Qabs_scaled (a b p : Q) :
  0 < p -> Qabs a <= Qabs b -> Qabs (a * p) <= Qabs (b * p).
Proof.
  intros P H. rewrite !Qabs_Qmult, (Qabs_pos p) by lra.
  apply Qmult_le_compat_r; [exact H | lra].
Qed.

(** Among the doubles none is nearer to a positive [q] than
    [nearestPositive q]. *)
Lemma nearestPositive_nearest (q d : Q) :
  0 < q -> double d ->
  Qabs (JsNumber.nearestPositive q - q) <= Qabs (d - q).
Proof.
  intros H (k & j & D & K & J). unfold JsNumber.nearestPositive.
  set (e := JsNumber.lastPlace q).
  set (x := q * JsNumber.pow2 (- e)).
  pose proof (pow2_positive e) as PE.
  assert (XP : x * JsNumber.pow2 e == q) by apply scaled_back.
  assert (A : inject_Z (JsNumber.roundEven x) * JsNumber.pow2 e - q
              == (inject_Z (JsNumber.roundEven x) - x) * JsNumber.pow2 e).
  { transitivity (inject_Z (JsNumber.roundEven x) * JsNumber.pow2 e
                  - x * JsNumber.pow2 e); [| ring].
    rewrite XP. reflexivity. }
  assert (B : d - q == (d * JsNumber.pow2 (- e) - x) * JsNumber.pow2 e).
  { transitivity (d * JsNumber.pow2 (- e) * JsNumber.pow2 e - x * JsNumber.pow2 e);
      [| ring].
    rewrite XP, scaled_back. reflexivity. }
  rewrite A, B. apply Qabs_scaled; [exact PE |].
  assert (Y : d * JsNumber.pow2 (- e) == inject_Z k * JsNumber.pow2 (j - e)).
  { rewrite D. unfold Z.sub. rewrite pow2_plus. ring. }
  rewrite Y.
  destruct (Z_le_gt_dec e j) as [C | C].
  - rewrite pow2_inject by lia. rewrite <- inject_Z_mult. apply roundEven_nearest.
  - assert (N : JsNumber.pow2 52 <= x)
      by (apply lastPlace_normal; [exact H | fold e; lia]).
    assert (S : inject_Z k * JsNumber.pow2 (j - e) <= JsNumber.pow2 52).
    { pose proof (pow2_positive (j - e)) as P.
      pose proof (@pow2_le (j - e)%Z (- 1)%Z ltac:(lia)) as P1.
      change (JsNumber.pow2 (- 1)) with (1 # 2) in P1.
      pose proof (pow2_positive 52) as P52.
      assert (K' : inject_Z k < JsNumber.pow2 53).
      { rewrite pow2_inject by lia. rewrite <- Zlt_Qlt. lia. }
      pose proof (pow2_succ 52) as P53. change (52 + 1)%Z with 53%Z in P53.
      destruct (Qlt_le_dec 0 (inject_Z k)) as [Pk | Nk].
      - apply Qle_trans with (inject_Z k * (1 # 2)).
        + apply Qmult_le_l; [exact Pk | exact P1].
        + lra.
      - apply Qle_trans with 0; [| lra].
        assert (Z0 : 0 <= (- inject_Z k) * JsNumber.pow2 (j - e))
          by (apply Qmult_le_0_compat; lra).
        lra. }
    pose proof (roundEven_nearest x (2 ^ 52)%Z) as R.
    rewrite <- pow2_inject in R by lia.
    apply Qle_trans with (1 := R).
    destruct (Qabs_diff_ge (inject_Z k * JsNumber.pow2 (j - e)) x) as [_ G].
    apply Qabs_diff_le; intro; lra.
Qed.

Lemma double_opp (d : Q) : double d -> double (- d).
Proof.
  intros (m & e & D & M & E). exists (- m)%Z, e. split; [| split; [lia | exact E]].
  rewrite D, inject_Z_opp. ring.
Qed.

Lemma double_comp (d d' : Q) : d == d' -> double d -> double d'.
Proof.
  intros H (m & e & D & M & E). exists m, e. split; [| split; assumption].
  rewrite <- H. exact D.
Qed.

Lemma double_inject (z : Z) : (Z.abs z < 2 ^ 53)%Z -> double (inject_Z z).
Proof.
  intro H. exists z, 0%Z. split; [| split; [exact H | lia]].
  change (JsNumber.pow2 0) with 1. ring.
Qed.

Lemma nearest_value (q : Q) :
  JsNumber.nearest q
  == match Qcompare q 0 with
     | Eq => 0
     | Gt => JsNumber.nearestPositive (Qred q)
     | Lt => - JsNumber.nearestPositive (- Qred q)
     end.
Proof.
  unfold JsNumber.nearest. rewrite Qred_correct.
  assert (C : Qcompare (Qred q) 0 = Qcompare q 0)
    by (apply Qcompare_comp; [apply Qred_correct | reflexivity]).
  rewrite C. reflexivity.
Qed.

(** [nearest] respects equality of rationals, up to identity. *)
Lemma nearest_comp (q q' : Q) : q == q' -> JsNumber.nearest q = JsNumber.nearest q'.
Proof. intro H. unfold JsNumber.nearest. rewrite (Qred_complete _ _ H). reflexivity. Qed.

(** Among the doubles none is nearer to [q] than [nearest q]. *)
Lemma nearest_is_nearest (q d : Q) :
  double d -> Qabs (JsNumber.nearest q - q) <= Qabs (d - q).
Proof.
  intro D. rewrite nearest_value.
  pose proof (Qred_correct q) as R. set (r := Qred q) in *. clearbody r.
  destruct (Qcompare q 0) eqn:C.
  - apply Qeq_alt in C. rewrite C. change (Qabs (0 - 0)) with 0. apply Qabs_nonneg.
  - apply Qlt_alt in C.
    assert (P : 0 < - r) by lra.
    pose proof (nearestPositive_nearest P (double_opp D)) as N.
    assert (E1 : - JsNumber.nearestPositive (- r) - q
                 == - (JsNumber.nearestPositive (- r) - - r)) by lra.
    assert (E2 : d - q == - (- d - - r)) by lra.
    rewrite E1, E2, !Qabs_opp. exact N.
  - apply Qgt_alt in C.
    assert (P : 0 < r) by lra.
    pose proof (nearestPositive_nearest P D) as N.
    assert (E1 : JsNumber.nearestPositive r - q == JsNumber.nearestPositive r - r) by lra.
    assert (E2 : d - q == d - r) by lra.
    rewrite E1, E2. exact N.
Qed.

(** A double is delivered as it is. *)
Lemma nearest_exact (q : Q) : double q -> JsNumber.nearest q == q.
Proof.
  intro D. pose proof (nearest_is_nearest q D) as N.
  assert (Z : Qabs (q - q) == 0) by (setoid_replace (q - q) with 0 by ring; reflexivity).
  rewrite Z in N.
  destruct (Qabs_diff_ge (JsNumber.nearest q) q) as [A B]. lra.
Qed.

Lemma nearestPositive_double (q : Q) :
  0 < q -> JsNumber.nearestPositive q < JsNumber.pow2 1024 ->
  double (JsNumber.nearestPositive q).
Proof.
  intros H B. unfold JsNumber.nearestPositive in *.
  pose proof (lastPlace_low q) as Low.
  pose proof (lastPlace_below H) as Below.
  pose proof (@lastPlace_normal q H) as Normal.
  set (e := JsNumber.lastPlace q) in *.
  set (x := q * JsNumber.pow2 (- e)) in *.
  pose proof (roundEven_bounds x) as M.
  pose proof (pow2_positive e) as PE.
  assert (F1 : (Qfloor x < 2 ^ 53)%Z).
  { rewrite Zlt_Qlt, <- pow2_inject by lia.
    apply Qle_lt_trans with x; [apply Qfloor_le | exact Below]. }
  assert (F0 : (0 <= Qfloor x)%Z).
  { change 0%Z with (Qfloor 0). apply Qfloor_resp_le.
    apply Qlt_le_weak, Qmult_lt_0_compat; [exact H | apply pow2_positive]. }
  set (m := JsNumber.roundEven x) in *.
  destruct (Z.eq_dec m (2 ^ 53)) as [Top | NotTop].
  - assert (A : inject_Z m * JsNumber.pow2 e == JsNumber.pow2 (53 + e)).
    { rewrite Top, <- pow2_inject, <- pow2_plus by lia. reflexivity. }
    rewrite A in B. apply Qpower_lt_compat_l_inv in B; [| reflexivity].
    exists (2 ^ 52)%Z, (e + 1)%Z. split; [| split; lia].
    rewrite A, <- pow2_inject, <- pow2_plus by lia.
    apply Qpower_comp; [reflexivity | lia].
  - exists m, e. split; [reflexivity |]. split; [lia |].
    split; [exact Low |].
    destruct (Z_le_gt_dec e (- 1074)) as [Sub | Nor]; [lia |].
    assert (X : JsNumber.pow2 52 <= x) by (apply Normal; lia).
    assert (F2 : (2 ^ 52 <= Qfloor x)%Z).
    { rewrite <- (Qfloor_Z (2 ^ 52)). apply Qfloor_resp_le.
      rewrite <- pow2_inject by lia. exact X. }
    assert (A : JsNumber.pow2 (52 + e) <= inject_Z m * JsNumber.pow2 e).
    { rewrite pow2_plus. apply Qmult_le_compat_r; [| lra].
      rewrite pow2_inject by lia. rewrite <- Zle_Qle. lia. }
    assert (L : JsNumber.pow2 (52 + e) < JsNumber.pow2 1024) by lra.
    apply Qpower_lt_compat_l_inv in L; [lia | reflexivity].
Qed.

(** Below the overflow threshold the rounded value is a double. *)
Lemma nearest_double (q : Q) :
  Qabs (JsNumber.nearest q) < JsNumber.pow2 1024 -> double (JsNumber.nearest q).
Proof.
  intro B. pose proof (nearest_value q) as V.
  apply double_comp with (1 := Qeq_sym _ _ V). rewrite V in B. clear V.
  pose proof (Qred_correct q) as R. set (r := Qred q) in *. clearbody r.
  destruct (Qcompare q 0) eqn:C.
  - apply (double_inject 0). reflexivity.
  - apply Qlt_alt in C. apply double_opp. apply nearestPositive_double; [lra |].
    rewrite Qabs_opp in B. apply Qle_lt_trans with (2 := B). apply Qle_Qabs.
  - apply Qgt_alt in C. apply nearestPositive_double; [lra |].
    apply Qle_lt_trans with (2 := B). apply Qle_Qabs.
Qed.

Lemma below_overflow (z : Z) (a : Q) :
  (Z.abs z < 2 ^ 54)%Z -> Qabs a <= inject_Z (Z.abs z) ->
  Qle_bool (JsNumber.pow2 1024) (Qabs a) = false.
Proof.
  intros B H. destruct (Qle_bool (JsNumber.pow2 1024) (Qabs a)) eqn:E; [| reflexivity].
  apply Qle_bool_iff in E.
  assert (L : inject_Z (Z.abs z) < JsNumber.pow2 54)
    by (rewrite pow2_inject by lia; rewrite <- Zlt_Qlt; exact B).
  pose proof (@pow2_le 54 1024 ltac:(lia)). lra.
Qed.

(** An integer below [2^53] is delivered exactly. *)
Lemma round_integer (q : Q) (z : Z) :
  q == inject_Z z -> (Z.abs z < 2 ^ 53)%Z -> is_integer (JsNumber.round q) z.
Proof.
  intros E B. unfold JsNumber.round.
  rewrite (nearest_comp E).
  pose proof (nearest_exact (double_inject z B)) as X.
  rewrite (@below_overflow z); [exists (JsNumber.nearest (inject_Z z)); auto | lia |].
  rewrite X. apply Qle_refl.
Qed.

Lemma add_integers (u v : number) (x y : Z) :
  is_integer u x -> is_integer v y -> (Z.abs (x + y) < 2 ^ 53)%Z ->
  is_integer (JsNumber.add u v) (x + y).
Proof.
  intros (a & U & A) (b & V & B) H. subst u v. cbn [JsNumber.add].
  apply round_integer; [| exact H]. rewrite A, B, inject_Z_plus. reflexivity.
Qed.

(** The [reduce] over the scores is their sum, as long as the doubles hold
    every partial sum. *)
Lemma reduce_scores (rows : list Rating) (v : number) (acc : Z) :
  is_integer v acc ->
  (Z.abs acc + sum (map Z.abs (map rt_score rows)) < 2 ^ 53)%Z ->
  is_integer (fold_left (fun s r => JsNumber.add s (JsNumber.ofZ (rt_score r))) rows v)
             (acc + sum (map rt_score rows)).
Proof.
  revert v acc. induction rows as [| r rows IH]; intros v acc V B.
  - cbn [fold_left map sum fold_right]. rewrite Z.add_0_r. exact V.
  - unfold sum in *. cbn [fold_left map fold_right] in *.
    assert (P : (0 <= fold_right Z.add 0 (map Z.abs (map rt_score rows)))%Z).
    { clear. induction rows as [| r rows IH]; simpl; lia. }
    rewrite Z.add_assoc. apply IH.
    + apply add_integers; [exact V | | lia].
      apply round_integer; [reflexivity | lia].
    + lia.
Qed.

(** The quotient of two integers of the doubles, the divisor positive, is
    the double nearest to the exact quotient. *)
Lemma divide_integers (u v : number) (x y : Z) :
  is_integer u x -> is_integer v y -> (Z.abs x < 2 ^ 53)%Z -> (0 < y)%Z ->
  let exact := inject_Z x / inject_Z y in
  exists a,
    JsNumber.divide u v = Finite a
    /\ double a
    /\ (forall d, double d -> Qabs (a - exact) <= Qabs (d - exact))
    /\ (double exact -> a == exact).
Proof.
  intros (a & U & A) (b & V & B) X Y exact. subst u v. cbn [JsNumber.divide].
  assert (Ypos : 0 < inject_Z y) by (change 0 with (inject_Z 0); rewrite <- Zlt_Qlt; exact Y).
  assert (NZ : JsNumber.isZero b = false).
  { unfold JsNumber.isZero. destruct (Qeq_bool b 0) eqn:E; [| reflexivity].
    apply Qeq_bool_iff in E. lra. }
  rewrite NZ.
  assert (E : a / b == exact) by (unfold exact; rewrite A, B; reflexivity).
  unfold JsNumber.round. rewrite (nearest_comp E).
  set (r := JsNumber.nearest exact).
  assert (Near : forall d, double d -> Qabs (r - exact) <= Qabs (d - exact))
    by (intros d D; apply nearest_is_nearest; exact D).
  assert (Small : Qabs exact <= inject_Z (Z.abs x)).
  { assert (M : exact * inject_Z y == inject_Z x)
      by (unfold exact; field; lra).
    assert (AM : Qabs exact * inject_Z y == inject_Z (Z.abs x)).
    { rewrite <- (Qabs_pos (inject_Z y)) at 1 by lra.
      rewrite <- Qabs_Qmult, M. reflexivity. }
    assert (One : 1 <= inject_Z y)
      by (change 1 with (inject_Z 1); rewrite <- Zle_Qle; lia).
    pose proof (Qabs_nonneg exact) as NN.
    pose proof (Qmult_le_compat_r _ _ (Qabs exact) One NN) as L.
    rewrite (Qmult_comm (inject_Z y)) in L. lra. }
  assert (Bound : Qabs r <= inject_Z (Z.abs (2 * x))).
  { pose proof (Near 0 (double_inject 0 eq_refl)) as N0.
    assert (Z0 : Qabs (0 - exact) == Qabs exact)
      by (rewrite <- Qabs_opp; apply Qabs_wd; ring).
    rewrite Z0 in N0.
    assert (T : Qabs r <= Qabs (r - exact) + Qabs exact).
    { setoid_replace r with ((r - exact) + exact) at 1 by ring.
      apply Qabs_triangle. }
    rewrite Z.abs_mul, inject_Z_mult. change (inject_Z (Z.abs 2)) with 2. lra. }
  rewrite (@below_overflow (2 * x)%Z); [| lia | exact Bound].
  exists r. split; [reflexivity |]. split; [| split; [exact Near |]].
  - apply nearest_double. apply Qle_lt_trans with (1 := Bound).
    apply Qlt_le_trans with (JsNumber.pow2 54).
    + rewrite pow2_inject by lia. rewrite <- Zlt_Qlt. lia.
    + apply pow2_le. lia.
  - intro D. apply nearest_exact. exact D.
Qed.

End Rounding.

(** C9. [fetchUserAverageRating] always resolves and writes nothing.  When
    the lookup fails or the user has no rating the result is
    [{average: 0, count: 0}]; otherwise [count] is the number of ratings
    whose [rated_id] is the user, which is not zero, and [average] is
    their mean as a number: where the doubles add the scores without
    rounding, it is a double, no double is nearer to the exact mean of the
    scores, and it is the exact mean when that is a double. *)
Theorem fetchUserAverageRating_mean (userId : string) (w : World) :
  exists avg n w',
    run (fetchUserAverageRating userId) w
    = (Resolved {| average := avg; rating_count := n |}, w')
    /\ store w' = store w
    /\ (next_fault w = true \/ scores_of userId (store w) = [] ->
        avg = Finite 0 /\ n = 0)
    /\ (next_fault w = false -> scores_of userId (store w) <> [] ->
        n = List.length (scores_of userId (store w))
        /\ n <> 0
        /\ (summable (scores_of userId (store w)) ->
            exists a,
              avg = Finite a
              /\ double a
              /\ (forall d, double d ->
                    (Qabs (a - mean (scores_of userId (store w)))
                     <= Qabs (d - mean (scores_of userId (store w))))%Q)
              /\ (double (mean (scores_of userId (store w))) ->
                  (a == mean (scores_of userId (store w)))%Q))).
Proof.
  unfold fetchUserAverageRating, scores_of. cbn [run].
  unfold perform. destruct (next_fault w) eqn:F.
  - exists (Finite 0), 0, (answered w). simpl. repeat split; auto; discriminate.
  - cbn [serve]. rewrite selects_eq_rated_id.
    set (rows := filter (fun r => rt_rated_id r =? userId) (ratings (store w))).
    destruct rows as [| r rows'] eqn:R.
    + exists (Finite 0), 0, (answered w). simpl. repeat split; auto; congruence.
    + rewrite <- R. assert (N : List.length rows <> 0) by (rewrite R; simpl; lia).
      cbn [ok data error run].
      destruct (Nat.eqb_spec (List.length rows) 0) as [E | _]; [contradiction |].
      cbn [run].
      eexists _, _, (answered w). split; [reflexivity |].
      split; [reflexivity |]. split.
      * intros [H | H]; [discriminate | rewrite R in H; discriminate].
      * intros _ _. rewrite length_map. split; [reflexivity |]. split; [exact N |].
        intros [S L]. rewrite length_map in L.
        pose proof (@reduce_scores rows (Finite 0) 0
                      ltac:(exists 0%Q; split; reflexivity) ltac:(simpl; lia)) as T.
        rewrite Z.add_0_l in T.
        assert (A : (Z.abs (sum (map rt_score rows)) < 2 ^ 53)%Z).
        { apply Z.le_lt_trans with (2 := S). clear.
          induction rows as [| x l IH]; unfold sum in *; simpl; lia. }
        assert (C : is_integer (JsNumber.ofZ (Z.of_nat (List.length rows)))
                               (Z.of_nat (List.length rows)))
          by (apply round_integer; [reflexivity | lia]).
        destruct (@divide_integers _ _ _ _ T C A ltac:(lia))
          as (a & D & Dbl & Near & Exact).
        exists a. unfold mean. rewrite length_map. auto.
Qed.

(** C9 on samples.  The scores 1, 1 and 2 have the mean 4/3, which no
    double holds: the average is the double next to it,
    6004799503160661 / 2^52, which JavaScript prints as 1.3333333333333333.
    The scores 5, 4 and 3 of [T] give 4, and a user without ratings gets 0
    and 0. *)
Lemma fetchUserAverageRating_mean_witness :
  let thirds := {| booking_requests := []; announcements := []; profiles := [];
                   messages := [];
                   ratings := [Rated.given "S" 1; Rated.given "U" 1; Rated.given "V" 2] |} in
  let w := Sample.world Rated.tables in
  (exists a w',
     run (fetchUserAverageRating "T") (Sample.world thirds)
     = (Resolved {| average := Finite a; rating_count := 3 |}, w')
     /\ (a == 6004799503160661 # 4503599627370496)%Q
     /\ double a
     /\ (Qabs (a - (4 # 3)) <= Qabs ((1 # 1) - (4 # 3)))%Q)
  /\ (exists w',
        run (fetchUserAverageRating "T") w
        = (Resolved {| average := Finite 4; rating_count := 3 |}, w'))
  /\ (exists w',
        run (fetchUserAverageRating "S") w
        = (Resolved {| average := Finite 0; rating_count := 0 |}, w')).
Proof.
  intros thirds w. split; [| split].
  - destruct (fetchUserAverageRating_mean "T" (Sample.world thirds))
      as (avg & n & w' & Hrun & _ & _ & Mean).
    destruct (Mean eq_refl ltac:(discriminate)) as (N & _ & A).
    destruct A as (a & E & D & Near & _); [split; vm_compute; reflexivity |].
    subst avg. vm_compute in N. subst n. exists a, w'. split; [exact Hrun |].
    assert (V : Finite a = average (match fst (run (fetchUserAverageRating "T")
                                                   (Sample.world thirds)) with
                                    | Resolved r => r
                                    | Rejected _ => {| average := NaN; rating_count := 0 |}
                                    end))
      by (rewrite Hrun; reflexivity).
    vm_compute in V. split; [inversion V; reflexivity |]. split; [exact D |].
    apply (Near 1%Q). apply (double_inject 1). reflexivity.
  - eexists. vm_compute. reflexivity.
  - destruct (fetchUserAverageRating_mean "S" w)
      as (avg & n & w' & Hrun & _ & Zero & _).
    destruct (Zero (or_intror eq_refl)) as (A & N). subst avg n.
    exists w'. exact Hrun.
Defined.

(* ================================================================= *)
(** ** submitRating *)

(** C4, as the code has it.  [submitRating] does not look at the score:
    for every score it sends one insert carrying that score.  When the
    backend accepts the insert the call resolves and the row is the one new
    row of [ratings]; when the backend refuses it the call rejects with the
    backend's error and [ratings] is unchanged. *)
Theorem submitRating_inserts_any_score
    (bookingRequestId raterId ratedId : string) (score : Z)
    (comment : option string) (w : World) :
  exists w',
    run (submitRating bookingRequestId raterId ratedId score comment) w
    = (if next_fault w then Rejected StorageError else Resolved tt, w')
    /\ ratings (store w')
       = (if next_fault w then ratings (store w)
          else ratings (store w)
               ++ [rating_row bookingRequestId raterId ratedId score comment])
    /\ booking_requests (store w') = booking_requests (store w)
    /\ messages (store w') = messages (store w).
Proof.
  unfold submitRating. cbn [run]. unfold perform.
  destruct (next_fault w); simpl; eexists; repeat split.
Qed.

(** C4, counterexample.  On a backend that answers every query, a rating
    with score 7 on booking [B1] resolves and leaves a row with score 7 in
    [ratings], and so does one with score 0. *)
Lemma submitRating_accepts_score_out_of_range :
  let w := Sample.world (Sample.tables (Some delivered) None []) in
  (fst (run (submitRating "B1" "S" "T" 7 None) w) = Resolved tt
   /\ map rt_score (ratings (store (snd (run (submitRating "B1" "S" "T" 7 None) w))))
      = [7%Z])
  /\ (fst (run (submitRating "B1" "S" "T" 0 None) w) = Resolved tt
      /\ map rt_score (ratings (store (snd (run (submitRating "B1" "S" "T" 0 None) w))))
         = [0%Z]).
Proof. repeat split. Qed.

(* ================================================================= *)
(** ** validateDeliveryCode *)

Lemma patch_delivered (b : BookingRequest) :
  apply_booking_patch
    {| patch_handoff_step := delivered;
       patch_status := Some status_delivered;
       patch_delivery_code := None |} b
  = deliver b.
Proof. reflexivity. Qed.

(** A write to [booking_requests] that the backend accepts. *)
Lemma perform_update_booking (p : BookingPatch) (id : string) (w : World) :
  next_fault w = false ->
  perform (BookingsUpdate p [booking_eq_id id]) w
  = (empty,
     with_store w (with_booking_requests (store w)
       (map (fun b => if br_id b =? id then apply_booking_patch p b else b)
            (booking_requests (store w))))).
Proof.
  intro F. unfold perform. rewrite F. cbn [serve]. do 3 f_equal.
  apply map_ext. intro b. unfold selects; simpl. now rewrite andb_true_r.
Qed.

(** An insert into [messages] that the backend accepts. *)
Lemma perform_insert_message (row : NewMessage) (w : World) :
  next_fault w = false ->
  perform (MessagesInsert row) w
  = (empty,
     with_store w (with_messages (store w)
       (messages (store w) ++ [stored_message (store w) (clock w) row]))).
Proof. intro F. unfold perform. now rewrite F. Qed.

Lemma filter_map_if {T} (p : T -> bool) (f : T -> T) (l : list T) :
  (forall x, p (f x) = p x) ->
  filter p (map (fun x => if p x then f x else x) l) = map f (filter p l).
Proof.
  intro H. induction l as [| x l IH]; simpl; auto.
  destruct (p x) eqn:P.
  - rewrite H, P. simpl. now rewrite IH.
  - rewrite P. exact IH.
Qed.

(** The two ways a code check goes: refused without a write, or accepted
    on a backend that answers, with the booking delivered and one system
    message appended. *)
Lemma run_validateDeliveryCode
    (bookingRequestId code senderId : string) (w : World) :
  (~ code_accepted (store w) bookingRequestId code ->
   run (validateDeliveryCode bookingRequestId code senderId) w
   = (Resolved false, answered w))
  /\ (code_accepted (store w) bookingRequestId code -> reliable w ->
   exists w',
     run (validateDeliveryCode bookingRequestId code senderId) w = (Resolved true, w')
     /\ booking_requests (store w')
        = map (fun b => if br_id b =? bookingRequestId then deliver b else b)
              (booking_requests (store w))
     /\ (exists b, bookings_with_id bookingRequestId (store w') = [b]
                   /\ br_handoff_step b = Some delivered
                   /\ br_status b = status_delivered)
     /\ messages (store w')
        = (messages (store w)
           ++ [system_message (store w) (clock w) bookingRequestId senderId
                 "[HANDOFF] delivered"])%list
     /\ announcements (store w') = announcements (store w)
     /\ profiles (store w') = profiles (store w)
     /\ ratings (store w') = ratings (store w)
     /\ reliable w').
Proof.
  unfold validateDeliveryCode. cbn [run]. rewrite perform_select_booking. split.
  - intro N. destruct (next_fault w).
    + reflexivity.
    + destruct (bookings_with_id bookingRequestId (store w)) as [| b [| b' l]] eqn:L;
        try (reflexivity).
      cbn [single ok error data].
      destruct (br_handoff_step b) as [[] |] eqn:S;
        try (reflexivity).
      destruct (br_delivery_code b) as [stored |] eqn:C;
        try (reflexivity).
      destruct (JsString.truthy (Some stored)
                && (JsString.trim (JsString.toUpperCase code)
                    =? JsString.trim (JsString.toUpperCase stored))) eqn:T;
        try (reflexivity).
      exfalso. apply N. exists b, stored.
      apply andb_true_iff in T. destruct T as [T1 T2].
      apply String.eqb_eq in T2. simpl in T1.
      repeat split; auto.
      intro E. subst stored. discriminate.
  - intros (b & stored & L & S & C & NE & EQ) R.
    rewrite (reliable_next_fault R), L. cbn [single ok error data].
    rewrite S, C. simpl JsString.truthy.
    destruct (String.eqb_spec stored "") as [E | _]; [contradiction |].
    rewrite EQ, String.eqb_refl. cbn [negb andb run].
    pose proof (reliable_answered R) as R1.
    rewrite perform_update_booking by (apply reliable_next_fault; exact R1).
    cbn [empty error run].
    set (w1 := with_store (answered w) _).
    assert (R2 : reliable w1) by (apply reliable_with_store; exact R1).
    rewrite perform_insert_message by (apply reliable_next_fault; exact R2).
    cbn [empty error run].
    eexists. split; [reflexivity |]. simpl.
    split; [apply map_ext; intro x; now rewrite patch_delivered |].
    split; [| repeat split; apply reliable_with_store; exact R2].
    exists (deliver b). unfold bookings_with_id. simpl.
    rewrite (map_ext _ (fun x => if br_id x =? bookingRequestId then deliver x else x))
      by (intro x; now rewrite patch_delivered).
    rewrite (filter_map_if (fun x => br_id x =? bookingRequestId) deliver)
      by reflexivity.
    unfold bookings_with_id in L. rewrite L. auto.
Qed.

Lemma code_accepted_dec (st : Store) (bookingRequestId code : string) :
  code_accepted st bookingRequestId code \/ ~ code_accepted st bookingRequestId code.
Proof.
  unfold code_accepted.
  destruct (bookings_with_id bookingRequestId st) as [| b [| b' l]] eqn:L;
    try (right; intros (b0 & stored & E & _); discriminate).
  destruct (br_handoff_step b) as [[] |] eqn:S;
    try (right; intros (b0 & stored & E & S' & _); inversion E; subst b0;
         congruence).
  destruct (br_delivery_code b) as [stored |] eqn:C;
    [| right; intros (b0 & stored & E & _ & C' & _); inversion E; subst b0;
       congruence].
  destruct (string_dec stored "") as [E1 | N1];
    [right; intros (b0 & stored' & E & _ & C' & N & _); inversion E; subst b0;
     congruence |].
  destruct (string_dec (JsString.trim (JsString.toUpperCase code))
                       (JsString.trim (JsString.toUpperCase stored))) as [E2 | N2].
  - left. exists b, stored. auto.
  - right. intros (b0 & stored' & E & _ & C' & _ & EQ). inversion E; subst b0.
    rewrite C in C'. inversion C'; subst stored'. contradiction.
Qed.

(** C1. [validateDeliveryCode] fails closed.  Unless the booking exists
    with [handoff_step] exactly [handed_over], a delivery code is set, and
    the submitted code equals the stored one after uppercasing and trimming
    both, the call resolves to [false] and no table changes, whatever the
    backend does.  When all of that holds and the backend answers, the call
    resolves to [true], the booking's [handoff_step] and [status] become
    [delivered] with every other booking as it was, and the one new row of
    [messages] is the system message [[HANDOFF] delivered]. *)
Theorem validateDeliveryCode_fail_closed
    (bookingRequestId code senderId : string) (w : World) :
  (~ code_accepted (store w) bookingRequestId code ->
   exists w',
     run (validateDeliveryCode bookingRequestId code senderId) w = (Resolved false, w')
     /\ store w' = store w)
  /\ (code_accepted (store w) bookingRequestId code -> reliable w ->
   exists w',
     run (validateDeliveryCode bookingRequestId code senderId) w = (Resolved true, w')
     /\ booking_requests (store w')
        = map (fun b => if br_id b =? bookingRequestId then deliver b else b)
              (booking_requests (store w))
     /\ (exists b, bookings_with_id bookingRequestId (store w') = [b]
                   /\ br_handoff_step b = Some delivered
                   /\ br_status b = status_delivered)
     /\ messages (store w')
        = (messages (store w)
           ++ [system_message (store w) (clock w) bookingRequestId senderId
                 "[HANDOFF] delivered"])%list
     /\ announcements (store w') = announcements (store w)
     /\ profiles (store w') = profiles (store w)
     /\ ratings (store w') = ratings (store w)).
Proof.
  destruct (run_validateDeliveryCode bookingRequestId code senderId w) as [No Yes].
  split.
  - intro N. exists (answered w). split; [apply No; exact N | reflexivity].
  - intros A R. destruct (Yes A R) as (w' & H1 & H2 & H3 & H4 & H5 & H6 & H7 & _).
    exists w'. repeat split; assumption.
Qed.

(** C1, run on the scenario of the specification: booking [B1] is handed
    over with code [ABCDEFGHJK]; a wrong code is refused without a write,
    the right code is refused without a write while the booking is only
    [sender_confirmed] and for a booking that does not exist, and the code
    in lower case followed by a space is accepted. *)
Lemma validateDeliveryCode_fail_closed_witness :
  let w := Sample.world (Sample.tables (Some handed_over) (Some "ABCDEFGHJK") []) in
  let early := Sample.world (Sample.tables (Some sender_confirmed) (Some "ABCDEFGHJK") []) in
  (exists w',
     run (validateDeliveryCode "B1" "WRONG_CODE" "S") w = (Resolved false, w')
     /\ store w' = store w)
  /\ (exists w',
        run (validateDeliveryCode "B1" "ABCDEFGHJK" "S") early = (Resolved false, w')
        /\ store w' = store early)
  /\ (exists w',
        run (validateDeliveryCode "B9" "ABCDEFGHJK" "S") w = (Resolved false, w')
        /\ store w' = store w)
  /\ (exists w',
        run (validateDeliveryCode "B1" "abcdefghjk " "S") w = (Resolved true, w')
        /\ map br_handoff_step (booking_requests (store w')) = [Some delivered]
        /\ map msg_content (messages (store w')) = ["[HANDOFF] delivered"]).
Proof.
  intros w early. split; [| split; [| split]].
  - apply (proj1 (validateDeliveryCode_fail_closed "B1" "WRONG_CODE" "S" w)).
    intros (b & stored & L & _ & C & _ & EQ).
    vm_compute in L. inversion L; subst b. simpl in C. inversion C; subst stored.
    vm_compute in EQ. discriminate.
  - apply (proj1 (validateDeliveryCode_fail_closed "B1" "ABCDEFGHJK" "S" early)).
    intros (b & stored & L & S & _).
    vm_compute in L. inversion L; subst b. discriminate.
  - apply (proj1 (validateDeliveryCode_fail_closed "B9" "ABCDEFGHJK" "S" w)).
    intros (b & stored & L & _). vm_compute in L. discriminate.
  - destruct (proj2 (validateDeliveryCode_fail_closed "B1" "abcdefghjk " "S" w))
      as (w' & Hrun & Hb & _ & Hm & _).
    + exists (Sample.B1 (Some handed_over) (Some "ABCDEFGHJK")), "ABCDEFGHJK".
      evaluated.
    + reflexivity.
    + exists w'. split; [exact Hrun |]. rewrite Hb, Hm. split; reflexivity.
Defined.

(* ================================================================= *)
(** ** sendMessage *)

Lemma codePoints_cons (a : ascii) (r : string) :
  exists cp rest, JsString.codePoints (String a r) = cp :: rest.
Proof.
  cbn [JsString.codePoints].
  repeat match goal with
         | |- context [if ?c then _ else _] => destruct c
         | |- context [match ?s with EmptyString => _ | String _ _ => _ end] => destruct s
         end; eauto.
Qed.

Lemma codeUnits_positive (cp : N) : 1 <= JsString.codeUnits cp.
Proof. unfold JsString.codeUnits. destruct (cp <? 65536)%N; lia. Qed.

Lemma length_zero_empty (s : string) : JsString.length s = 0 <-> s = "".
Proof.
  split; intro H; [| subst s; reflexivity].
  destruct s as [| a r]; [reflexivity |].
  destruct (codePoints_cons a r) as (cp & rest & E).
  unfold JsString.length in H. rewrite E in H. simpl in H.
  pose proof (codeUnits_positive cp). lia.
Qed.

Lemma afterWhiteSpace_shorter (s r : string) :
  JsString.afterWhiteSpace s = Some r -> String.length r < String.length s.
Proof.
  destruct s as [| a [| b [| c s]]]; cbn [JsString.afterWhiteSpace]; intro H;
    repeat match type of H with
           | (if ?c then _ else _) = _ => destruct c
           end;
    inversion H; subst; simpl; lia.
Qed.

Lemma trimStart_step (s : string) :
  JsString.trimStart s
  = match JsString.afterWhiteSpace s with
    | Some r => JsString.trimStart r
    | None => s
    end.
Proof.
  destruct s as [| a r1]; [reflexivity |].
  unfold JsString.afterWhiteSpace.
  change (JsString.trimStart (String a r1))
    with (if JsString.isWhiteSpace (String a "") then JsString.trimStart r1
          else match r1 with
               | EmptyString => String a r1
               | String b r2 =>
                   if JsString.isWhiteSpace (String a (String b ""))
                   then JsString.trimStart r2
                   else match r2 with
                        | EmptyString => String a r1
                        | String c r3 =>
                            if JsString.isWhiteSpace (String a (String b (String c "")))
                            then JsString.trimStart r3
                            else String a r1
                        end
               end).
  destruct (JsString.isWhiteSpace (String a "")); [reflexivity |].
  destruct r1 as [| b r2]; [reflexivity |].
  destruct (JsString.isWhiteSpace (String a (String b ""))); [reflexivity |].
  destruct r2 as [| c r3]; [reflexivity |].
  destruct (JsString.isWhiteSpace (String a (String b (String c "")))); reflexivity.
Qed.

Lemma trimStart_clean (s : string) :
  JsString.afterWhiteSpace (JsString.trimStart s) = None.
Proof.
  remember (String.length s) as n eqn:L.
  revert s L. induction n as [n IH] using lt_wf_ind. intros s L.
  rewrite trimStart_step.
  destruct (JsString.afterWhiteSpace s) as [r |] eqn:A; [| exact A].
  apply (IH (String.length r)); [| reflexivity].
  subst n. now apply afterWhiteSpace_shorter.
Qed.

Lemma trimStart_of_clean (s : string) :
  JsString.afterWhiteSpace s = None -> JsString.trimStart s = s.
Proof. intro A. rewrite trimStart_step, A. reflexivity. Qed.

Lemma afterWhiteSpace_append (u t r : string) :
  JsString.afterWhiteSpace u = Some r ->
  JsString.afterWhiteSpace (u ++ t) = Some (r ++ t)%string.
Proof.
  destruct u as [| a [| b [| c u]]];
    cbn [JsString.afterWhiteSpace append]; intro H;
    repeat match type of H with
           | (if ?c then _ else _) = _ => destruct c eqn:?
           end;
    try discriminate; inversion H; subst; try reflexivity.
  all: destruct t as [| x [| y t]]; cbn [JsString.afterWhiteSpace append];
    repeat match goal with
           | E : ?c = _ |- context [?c] => rewrite E
           end; try reflexivity.
Qed.

Lemma trimEnd_prefix (s : string) : exists t, s = (JsString.trimEnd s ++ t)%string.
Proof.
  induction s as [| a s [t IH]]; [exists ""; reflexivity |].
  cbn [JsString.trimEnd].
  destruct (JsString.isWhiteSpace (String a (JsString.trimEnd s))).
  - exists (String a s). reflexivity.
  - exists t. cbn [append]. now rewrite <- IH.
Qed.

Lemma trimEnd_clean (s : string) :
  JsString.afterWhiteSpace s = None ->
  JsString.afterWhiteSpace (JsString.trimEnd s) = None.
Proof.
  intro A. destruct (trimEnd_prefix s) as [t E].
  destruct (JsString.afterWhiteSpace (JsString.trimEnd s)) as [r |] eqn:B; [| reflexivity].
  apply afterWhiteSpace_append with (t := t) in B. rewrite <- E, A in B. discriminate.
Qed.

Lemma trimEnd_trimEnd (s : string) :
  JsString.trimEnd (JsString.trimEnd s) = JsString.trimEnd s.
Proof.
  induction s as [| a s IH]; [reflexivity |].
  cbn [JsString.trimEnd].
  destruct (JsString.isWhiteSpace (String a (JsString.trimEnd s))) eqn:W; [reflexivity |].
  cbn [JsString.trimEnd]. rewrite IH, W. reflexivity.
Qed.

Lemma trim_trim (s : string) : JsString.trim (JsString.trim s) = JsString.trim s.
Proof.
  unfold JsString.trim.
  rewrite (trimStart_of_clean (JsString.trimEnd (JsString.trimStart s)))
    by (apply trimEnd_clean, trimStart_clean).
  apply trimEnd_trimEnd.
Qed.

Lemma length_check (s : string) :
  (s =? "") || (2000 <? JsString.length s)%nat = true
  <-> JsString.length s = 0 \/ 2000 < JsString.length s.
Proof.
  rewrite orb_true_iff, String.eqb_eq, Nat.ltb_lt, length_zero_empty. tauto.
Qed.

(** C7. [sendMessage] trims the content and rejects with the length error
    exactly when the trimmed length is 0 or more than 2000, writing
    nothing.  Otherwise, when the backend accepts the insert, it resolves
    with the stored row; that row holds the trimmed content, is not a
    system message and is unread, and [messages] is the old table, row for
    row, followed by it. *)
Theorem sendMessage_length_boundary
    (bookingRequestId senderId content : string) (w : World) :
  let trimmed := JsString.trim content in
  let invalid := JsString.length trimmed = 0 \/ 2000 < JsString.length trimmed in
  (invalid ->
   run (sendMessage bookingRequestId senderId content) w = (Rejected length_error, w))
  /\ (forall w',
        run (sendMessage bookingRequestId senderId content) w
        = (Rejected length_error, w') -> invalid)
  /\ (~ invalid -> next_fault w = false ->
      exists w',
        run (sendMessage bookingRequestId senderId content) w
        = (Resolved (Some (chat_message (store w) (clock w)
                             bookingRequestId senderId trimmed)), w')
        /\ messages (store w')
           = messages (store w)
             ++ [chat_message (store w) (clock w) bookingRequestId senderId trimmed]
        /\ booking_requests (store w') = booking_requests (store w)
        /\ ratings (store w') = ratings (store w)).
Proof.
  intros trimmed invalid. unfold sendMessage. fold trimmed.
  pose proof (length_check trimmed) as LC. fold invalid in LC.
  destruct ((trimmed =? "") || (2000 <? JsString.length trimmed)%nat) eqn:E.
  - assert (I : invalid) by (apply LC; reflexivity).
    repeat split; auto. intro N. contradiction.
  - assert (N : ~ invalid) by (intro I; apply LC in I; discriminate).
    split; [intro I; contradiction |]. split.
    + intros w'. cbn [run]. unfold perform.
      destruct (next_fault w); simpl; intro H; inversion H.
    + intros _ F. cbn [run]. unfold perform. rewrite F. simpl.
      eexists. repeat split.
Qed.

Lemma isWhiteSpace_a (r : string) : JsString.isWhiteSpace (String "a" r) = false.
Proof. vm_compute. reflexivity. Qed.

Lemma trimEnd_repeat_a (n : nat) :
  JsString.trimEnd (JsString.repeat "a" n) = JsString.repeat "a" n.
Proof.
  induction n as [| n IH]; [reflexivity |].
  cbn [JsString.repeat JsString.trimEnd]. rewrite IH, isWhiteSpace_a. reflexivity.
Qed.

Lemma trim_repeat_a (n : nat) :
  JsString.trim (JsString.repeat "a" n) = JsString.repeat "a" n.
Proof.
  unfold JsString.trim. rewrite trimStart_of_clean; [apply trimEnd_repeat_a |].
  destruct n as [| [| [| n]]]; reflexivity.
Qed.

Lemma length_repeat_a (n : nat) : JsString.length (JsString.repeat "a" n) = n.
Proof.
  induction n as [| n IH]; [reflexivity |].
  unfold JsString.length in *.
  change (JsString.codePoints (JsString.repeat "a" (S n)))
    with (97%N :: JsString.codePoints (JsString.repeat "a" n)).
  unfold list_sum in *. cbn [map fold_right]. rewrite IH. reflexivity.
Qed.

(** C7 at the boundary: 2000 characters are stored, 2001 characters and a
    message of blanks are rejected. *)
Lemma sendMessage_length_boundary_witness :
  let w := Sample.world (Sample.tables (Some none) None []) in
  (exists w',
     run (sendMessage "B1" "S" (JsString.repeat "a" 2000)) w
     = (Resolved (Some (chat_message (store w) (clock w) "B1" "S"
                          (JsString.repeat "a" 2000))), w')
     /\ List.length (messages (store w')) = 1)
  /\ run (sendMessage "B1" "S" (JsString.repeat "a" 2001)) w = (Rejected length_error, w)
  /\ run (sendMessage "B1" "S" "   ") w = (Rejected length_error, w).
Proof.
  intro w. split; [| split].
  - destruct (proj2 (proj2 (sendMessage_length_boundary "B1" "S"
                              (JsString.repeat "a" 2000) w)))
      as (w' & Hrun & Hm & _).
    + rewrite trim_repeat_a, length_repeat_a. lia.
    + reflexivity.
    + rewrite trim_repeat_a in Hrun. exists w'. split; [exact Hrun |].
      rewrite Hm. reflexivity.
  - apply (proj1 (sendMessage_length_boundary "B1" "S" (JsString.repeat "a" 2001) w)).
    rewrite trim_repeat_a, length_repeat_a. lia.
  - apply (proj1 (sendMessage_length_boundary "B1" "S" "   " w)).
    left. reflexivity.
Defined.

(* ================================================================= *)
(** ** markAsRead *)

Lemma selects_unread (bookingRequestId userId : string) (m : Message) :
  selects message_matches
    [message_eq_booking_request_id bookingRequestId;
     message_neq_sender_id userId;
     message_is_read_at_null] m
  = unread_from_other bookingRequestId userId m.
Proof.
  unfold selects, unread_from_other. cbn [forallb message_matches].
  now rewrite andb_true_r, andb_assoc.
Qed.

Lemma mark_read_once (bookingRequestId userId : string) (t : Z) (m : Message) :
  unread_from_other bookingRequestId userId (set_read_at t m) = false.
Proof. unfold unread_from_other. simpl. apply andb_false_r. Qed.

Lemma mark_mark (bookingRequestId userId : string) (t t' : Z) (m : Message) :
  mark bookingRequestId userId t' (mark bookingRequestId userId t m)
  = mark bookingRequestId userId t m.
Proof.
  unfold mark. destruct (unread_from_other bookingRequestId userId m) eqn:U.
  - now rewrite mark_read_once.
  - now rewrite U.
Qed.

Lemma with_messages_same (st : Store) : with_messages st (messages st) = st.
Proof. destruct st; reflexivity. Qed.

Lemma run_markAsRead (bookingRequestId userId : string) (w : World) :
  next_fault w = false ->
  run (markAsRead bookingRequestId userId) w
  = (Resolved tt,
     with_store w (with_messages (store w)
       (map (mark bookingRequestId userId (clock w)) (messages (store w))))).
Proof.
  intro F. unfold markAsRead. cbn [run perform]. rewrite F. cbn [serve empty error run].
  rewrite (map_ext _ (mark bookingRequestId userId (clock w)))
    by (intro m; unfold mark; now rewrite selects_unread).
  reflexivity.
Qed.

(** C6. When the backend accepts the update, [markAsRead] resolves and
    changes [messages] row by row: a message of the conversation that the
    other party sent and that is still unread gets [read_at] set to the
    current time, every other message stays as it is, and no row is added
    or removed.  When no message is to be marked it still resolves and the
    tables are unchanged.  A second call, at any later time, resolves and
    changes nothing. *)
Theorem markAsRead_idempotent (bookingRequestId userId : string) (w : World) :
  next_fault w = false ->
  exists w',
    run (markAsRead bookingRequestId userId) w = (Resolved tt, w')
    /\ List.length (messages (store w')) = List.length (messages (store w))
    /\ (forall i m, nth_error (messages (store w)) i = Some m ->
          nth_error (messages (store w')) i
          = Some (if unread_from_other bookingRequestId userId m
                  then set_read_at (clock w) m else m))
    /\ booking_requests (store w') = booking_requests (store w)
    /\ ratings (store w') = ratings (store w)
    /\ (forallb (fun m => negb (unread_from_other bookingRequestId userId m))
          (messages (store w)) = true -> store w' = store w)
    /\ (forall t, next_fault w' = false ->
          exists w'',
            run (markAsRead bookingRequestId userId) (at_time t w') = (Resolved tt, w'')
            /\ store w'' = store w').
Proof.
  intro F. rewrite run_markAsRead by exact F. eexists. split; [reflexivity |].
  cbn [store with_store with_messages messages booking_requests ratings].
  split; [apply length_map |].
  split; [intros i m H; rewrite nth_error_map, H; reflexivity |].
  repeat split.
  - intro H.
    assert (E : map (mark bookingRequestId userId (clock w)) (messages (store w))
                = messages (store w)).
    { rewrite <- (map_id (messages (store w))) at 2.
      apply map_ext_in. intros m Hin.
      rewrite forallb_forall in H. specialize (H m Hin).
      unfold mark. apply negb_true_iff in H. now rewrite H. }
    rewrite E. apply with_messages_same.
  - intros t F'. rewrite run_markAsRead by exact F'. eexists. split; [reflexivity |].
    cbn [store with_store at_time with_messages messages clock].
    rewrite map_map.
    rewrite (map_ext
               (fun m => mark bookingRequestId userId t
                           (mark bookingRequestId userId (clock w) m))
               (mark bookingRequestId userId (clock w)))
      by (intro m; apply mark_mark).
    destruct (store w); reflexivity.
Qed.

(** C6 on a conversation with one unread message from the traveler: the
    sender's call marks it, and the sender's second call changes nothing. *)
Lemma markAsRead_idempotent_witness :
  let w := Sample.world (Sample.tables (Some none) None [Sample.hello 5]) in
  exists w',
    run (markAsRead "B1" "S") w = (Resolved tt, w')
    /\ map msg_read_at (messages (store w')) = [Some 1000%Z]
    /\ exists w'',
         run (markAsRead "B1" "S") (at_time 2000 w') = (Resolved tt, w'')
         /\ store w'' = store w'.
Proof.
  intro w.
  destruct (markAsRead_idempotent "B1" "S" w eq_refl)
    as (w' & Hrun & _ & Hnth & _ & _ & _ & Hagain).
  exists w'. split; [exact Hrun |]. split.
  - specialize (Hnth 0 (Sample.hello 5) eq_refl).
    assert (L : List.length (messages (store w')) = 1)
      by (inversion Hrun; reflexivity).
    destruct (messages (store w')) as [| m [| m' l]]; try discriminate.
    simpl in Hnth. inversion Hnth. reflexivity.
  - apply Hagain. inversion Hrun. reflexivity.
Defined.

(* ================================================================= *)
(** ** generateDeliveryCode *)

Lemma skipn_tl {T} (n : nat) (l : list T) : skipn n (tl l) = skipn (S n) l.
Proof. destruct l; simpl; auto. apply skipn_nil. Qed.

Lemma run_generateLoop (n : nat) (code : string) (w : World) :
  run (generateLoop n code) w
  = (Resolved (spell (draws n (random w)) code), with_random w (skipn n (random w))).
Proof.
  revert code w. induction n as [| n IH]; intros code w.
  - destruct w; reflexivity.
  - cbn [generateLoop run perform]. rewrite IH. cbn [random draws spell fold_left].
    unfold with_random. cbn [store faults clock random].
    now rewrite skipn_tl.
Qed.

Lemma floor_interval (x : Q) (i : Z) :
  Qfloor x = i <-> (inject_Z i <= x /\ x < inject_Z i + 1)%Q.
Proof.
  split.
  - intro E. subst i. split; [apply Qfloor_le |].
    pose proof (Qlt_floor x) as H. rewrite inject_Z_plus in H. exact H.
  - intros [L U].
    pose proof (Qfloor_le x) as L'. pose proof (Qlt_floor x) as U'.
    rewrite inject_Z_plus in U'.
    assert (A : (inject_Z (Qfloor x) < inject_Z (i + 1))%Q)
      by (rewrite inject_Z_plus; exact (Qle_lt_trans _ _ _ L' U)).
    assert (B : (inject_Z i < inject_Z (Qfloor x + 1))%Q)
      by (rewrite inject_Z_plus; exact (Qle_lt_trans _ _ _ L U')).
    rewrite <- Zlt_Qlt in A, B. lia.
Qed.

(** Each index has the random values of one interval of width 1/32. *)
Lemma randomIndex_interval (r : Q) (i : Z) :
  randomIndex r = i <-> (inject_Z i <= r * 32 /\ r * 32 < inject_Z i + 1)%Q.
Proof. unfold randomIndex. apply floor_interval. Qed.

Lemma randomIndex_range (r : Q) :
  unit_interval r -> (0 <= randomIndex r < 32)%Z.
Proof.
  intros [L U].
  destruct (proj1 (randomIndex_interval r (randomIndex r)) eq_refl) as [A B].
  assert (A' : (inject_Z (randomIndex r) < inject_Z 32)%Q).
  { apply Qle_lt_trans with (r * 32)%Q; [exact A |].
    change (inject_Z 32) with 32%Q. lra. }
  assert (B' : (inject_Z 0 < inject_Z (randomIndex r + 1))%Q).
  { rewrite inject_Z_plus. apply Qle_lt_trans with (r * 32)%Q; [| exact B].
    change (inject_Z 0) with 0%Q. lra. }
  rewrite <- Zlt_Qlt in A', B'. lia.
Qed.

Lemma get_in (s : string) (n : nat) :
  n < String.length s ->
  exists c, String.get n s = Some c /\ In c (list_ascii_of_string s).
Proof.
  revert n. induction s as [| a s IH]; intros n H; simpl in H; [lia |].
  destruct n as [| n]; simpl.
  - exists a. auto.
  - destruct (IH n ltac:(lia)) as (c & G & I). exists c. auto.
Qed.

Lemma charAt_alphabet (i : Z) :
  (0 <= i < 32)%Z ->
  exists c, charAt chars i = String c EmptyString /\ In c alphabet.
Proof.
  intros [L U]. unfold charAt.
  destruct (Z.ltb_spec i 0) as [N | _]; [lia |].
  destruct (@get_in chars (Z.to_nat i)) as (c & G & I).
  - change (String.length chars) with 32. lia.
  - rewrite G. exists c. auto.
Qed.

Lemma list_ascii_append (s t : string) :
  list_ascii_of_string (s ++ t) = (list_ascii_of_string s ++ list_ascii_of_string t)%list.
Proof. induction s as [| a s IH]; simpl; auto. now rewrite IH. Qed.

Lemma length_list_ascii (s : string) :
  List.length (list_ascii_of_string s) = String.length s.
Proof. induction s; simpl; auto. Qed.

Lemma draws_unit (n : nat) (rs : list Q) :
  Forall unit_interval rs -> Forall unit_interval (draws n rs).
Proof.
  revert rs. induction n as [| n IH]; intros rs H; simpl; constructor.
  - destruct H; [split; simpl; [apply Qle_refl | reflexivity] | assumption].
  - apply IH. destruct H; simpl; auto.
Qed.

Lemma length_draws (n : nat) (rs : list Q) : List.length (draws n rs) = n.
Proof. revert rs. induction n; intro rs; simpl; auto. Qed.

(** A code spelled from random values of the unit interval grows by one
    character of the alphabet for each value. *)
Lemma spell_alphabet (rs : list Q) (code : string) :
  Forall unit_interval rs ->
  String.length (spell rs code) = String.length code + List.length rs
  /\ (forall c, In c (list_ascii_of_string (spell rs code)) ->
        In c (list_ascii_of_string code) \/ In c alphabet).
Proof.
  intro H. revert code. induction H as [| r rs Hr Hrs IH]; intro code.
  - simpl. split; [lia | auto].
  - cbn [spell fold_left]. fold (spell rs (code ++ charAt chars (randomIndex r))).
    destruct (charAt_alphabet (randomIndex_range Hr)) as (a & E & I). rewrite E.
    destruct (IH (code ++ String a EmptyString)%string) as [L C]. split.
    + rewrite L, <- !length_list_ascii, list_ascii_append, length_app. simpl. lia.
    + intros c Hc. destruct (C c Hc) as [P | P]; auto.
      rewrite list_ascii_append in P. apply in_app_or in P.
      destruct P as [P | [P | []]]; auto. subst c. auto.
Qed.

Lemma get_nth_error (s : string) (n : nat) :
  String.get n s = nth_error (list_ascii_of_string s) n.
Proof.
  revert n. induction s as [| a s IH]; intros [| n]; simpl; auto.
Qed.

(** The character at an index inside the alphabet is its symbol there. *)
Lemma charAt_nth (i : Z) :
  (0 <= i < 32)%Z ->
  exists c, charAt chars i = String c EmptyString
            /\ nth_error alphabet (Z.to_nat i) = Some c.
Proof.
  intros [L U]. unfold charAt.
  destruct (Z.ltb_spec i 0) as [N | _]; [lia |].
  destruct (@get_in chars (Z.to_nat i)) as (c & G & _).
  - change (String.length chars) with 32. lia.
  - rewrite G. exists c. split; [reflexivity |].
    unfold alphabet. rewrite <- get_nth_error. exact G.
Qed.

Lemma nth_draws (n k : nat) (rs : list Q) :
  k < n -> nth k (draws n rs) 0%Q = nth k rs 0%Q.
Proof.
  revert k rs. induction n as [| n IH]; intros k rs H; [lia |].
  destruct k as [| k]; destruct rs as [| r rs]; cbn [draws nth tl]; auto.
  - rewrite IH by lia. destruct k; reflexivity.
  - apply IH. lia.
Qed.

(** What is spelled stays: later rounds only append. *)
Lemma spell_prefix (rs : list Q) (code : string) (n : nat) :
  n < String.length code -> String.get n (spell rs code) = String.get n code.
Proof.
  revert code. induction rs as [| r rs IH]; intros code H; [reflexivity |].
  cbn [spell fold_left]. fold (spell rs (code ++ charAt chars (randomIndex r))).
  rewrite IH.
  - symmetry. apply append_correct1. exact H.
  - rewrite <- !length_list_ascii, list_ascii_append, length_app, !length_list_ascii. lia.
Qed.

(** The [k]-th character spelled is the symbol at the index of the [k]-th
    random value. *)
Lemma get_spell (rs : list Q) (code : string) (k : nat) :
  Forall unit_interval rs -> k < List.length rs ->
  String.get (String.length code + k) (spell rs code)
  = nth_error alphabet (Z.to_nat (randomIndex (nth k rs 0%Q))).
Proof.
  intro H. revert code k. induction H as [| r rs Hr Hrs IH]; intros code k Hk;
    [simpl in Hk; lia |].
  cbn [spell fold_left]. fold (spell rs (code ++ charAt chars (randomIndex r))).
  destruct (charAt_nth (randomIndex_range Hr)) as (c & E & N). rewrite E.
  assert (L : String.length (code ++ String c EmptyString) = S (String.length code)).
  { rewrite <- !length_list_ascii, list_ascii_append, length_app, !length_list_ascii.
    simpl. lia. }
  destruct k as [| k].
  - rewrite spell_prefix by lia. cbn [nth]. rewrite N, Nat.add_comm.
    rewrite <- append_correct2. reflexivity.
  - cbn [nth]. rewrite <- (IH (code ++ String c EmptyString)%string k)
      by (simpl in Hk; lia).
    rewrite L. f_equal. lia.
Qed.

(** A symbol of the alphabet sits at one index, and the random values that
    pick it are those of one interval of width 1/32. *)
Lemma symbol_interval (c : ascii) (r : Q) :
  unit_interval r -> In c alphabet ->
  exists j,
    (0 <= j < 32)%Z
    /\ (nth_error alphabet (Z.to_nat (randomIndex r)) = Some c
        <-> (inject_Z j <= r * 32 /\ r * 32 < inject_Z j + 1)%Q).
Proof.
  intros U I. destruct (In_nth_error _ _ I) as [n N].
  assert (B : n < 32).
  { change 32 with (List.length alphabet). apply nth_error_Some. congruence. }
  exists (Z.of_nat n). split; [lia |].
  rewrite <- randomIndex_interval.
  pose proof (randomIndex_range U) as R.
  split; intro H.
  - assert (E : Z.to_nat (randomIndex r) = n).
    { assert (D : NoDup alphabet).
      { unfold alphabet, chars; simpl.
        repeat (constructor; [simpl; intuition discriminate |]). constructor. }
      rewrite NoDup_nth_error in D. apply D.
      - change (List.length alphabet) with 32. lia.
      - congruence. }
    lia.
  - rewrite H, Nat2Z.id. exact N.
Qed.

(* ================================================================= *)
(** ** confirmHandoff *)

Lemma reliable_with_random (w : World) (rs : list Q) :
  reliable w -> reliable (with_random w rs).
Proof. auto. Qed.

(** [confirmHandoff] on a backend that accepts its writes: the booking
    with the given identity takes the step whatever its current step is. *)
Lemma run_confirmHandoff (bookingRequestId senderId : string) (step : HandoffStep)
    (w : World) :
  reliable w ->
  exists w',
    run (confirmHandoff bookingRequestId senderId step) w
    = (Resolved (issued_code step w), w')
    /\ booking_requests (store w')
       = map (fun b => if br_id b =? bookingRequestId
                       then apply_booking_patch
                              (handoff_patch step (issued_code step w)) b
                       else b)
             (booking_requests (store w))
    /\ messages (store w')
       = (messages (store w)
          ++ announced (store w) (clock w) bookingRequestId senderId step)%list
    /\ announcements (store w') = announcements (store w)
    /\ profiles (store w') = profiles (store w)
    /\ ratings (store w') = ratings (store w)
    /\ random w'
       = match step with handed_over => skipn 10 (random w) | _ => random w end
    /\ clock w' = clock w
    /\ reliable w'.
Proof.
  intro R. unfold confirmHandoff. rewrite run_bind.
  set (w0 := match step with
             | handed_over => with_random w (skipn 10 (random w))
             | _ => w
             end).
  assert (G : run (match step with
                   | handed_over =>
                       let* code := generateDeliveryCode in Return (Some code)
                   | _ => Return None
                   end) w = (Resolved (issued_code step w), w0)).
  { destruct step; try reflexivity.
    rewrite run_bind. unfold generateDeliveryCode. rewrite run_generateLoop.
    reflexivity. }
  rewrite G.
  assert (R0 : reliable w0) by (destruct step; auto).
  assert (S0 : store w0 = store w) by (destruct step; auto).
  assert (C0 : clock w0 = clock w) by (destruct step; auto).
  assert (N0 : random w0
               = match step with handed_over => skipn 10 (random w) | _ => random w end)
    by (destruct step; auto).
  clearbody w0. cbn [run].
  rewrite perform_update_booking by (apply reliable_next_fault; exact R0).
  cbn [empty error].
  set (w1 := with_store w0 _).
  assert (R1 : reliable w1) by (apply reliable_with_store; exact R0).
  unfold announced.
  destruct (systemMessages step) as [content |] eqn:M.
  - cbn [run]. rewrite perform_insert_message by (apply reliable_next_fault; exact R1).
    cbn [empty error run]. eexists. split; [reflexivity |].
    cbn [store with_store with_messages with_booking_requests booking_requests
         messages announcements profiles ratings random clock w1].
    rewrite S0, C0. repeat split; auto.
    apply reliable_with_store. exact R1.
  - cbn [run]. eexists. split; [reflexivity |].
    cbn [store with_store with_messages with_booking_requests booking_requests
         messages announcements profiles ratings random clock w1].
    rewrite S0, app_nil_r. repeat split; auto.
Qed.

(** C3, as the code has it.  The alphabet has 32 distinct symbols and none
    of 0, O, 1, I.  The index of a character is picked by the interval of
    width 1/32 the random value falls in.  With random values in the unit
    interval, the generator returns ten characters of the alphabet and uses
    up ten random values: the [k]-th character is the symbol at the index
    of the [k]-th value, so that each symbol stands at each place for the
    values of one interval of width 1/32, and equally likely values give
    equally likely symbols.  A transition into [handed_over] on a backend
    that accepts its writes generates its code from the ten values that
    are next at that moment, stores it in every booking row with that
    identity and returns it. *)
Theorem generateDeliveryCode_alphabet (bookingRequestId senderId : string) (w : World) :
  Forall unit_interval (random w) ->
  reliable w ->
  List.length alphabet = 32
  /\ NoDup alphabet
  /\ (forall c, In c ["0"; "O"; "1"; "I"]%char -> ~ In c alphabet)
  /\ (forall r i, randomIndex r = i
                  <-> (inject_Z i <= r * 32 /\ r * 32 < inject_Z i + 1)%Q)
  /\ exists code w1,
       run generateDeliveryCode w = (Resolved code, w1)
       /\ String.length code = 10
       /\ (forall c, In c (list_ascii_of_string code) -> In c alphabet)
       /\ (forall k, k < 10 ->
             String.get k code
             = nth_error alphabet (Z.to_nat (randomIndex (nth k (random w) 0%Q))))
       /\ (forall k c, k < 10 -> In c alphabet ->
             exists j,
               (0 <= j < 32)%Z
               /\ (String.get k code = Some c
                   <-> (inject_Z j <= nth k (random w) 0 * 32
                        /\ nth k (random w) 0 * 32 < inject_Z j + 1)%Q))
       /\ random w1 = skipn 10 (random w)
       /\ store w1 = store w
       /\ exists w',
            run (confirmHandoff bookingRequestId senderId handed_over) w
            = (Resolved (Some code), w')
            /\ (forall b, In b (booking_requests (store w')) ->
                  br_id b = bookingRequestId ->
                  br_delivery_code b = Some code
                  /\ br_handoff_step b = Some handed_over)
            /\ random w' = skipn 10 (random w).
Proof.
  intros U R.
  split; [reflexivity |].
  split; [unfold alphabet, chars; simpl;
          repeat (constructor; [simpl; intuition discriminate |]); constructor |].
  split; [intros c Hc I; simpl in Hc;
          repeat (destruct Hc as [Hc | Hc]; [subst c; simpl in I; intuition discriminate |]);
          contradiction |].
  split; [intros r i; apply randomIndex_interval |].
  unfold generateDeliveryCode. rewrite run_generateLoop.
  destruct (@spell_alphabet (draws 10 (random w)) "" (draws_unit 10 U)) as [L C].
  eexists _, _. split; [reflexivity |].
  split; [rewrite L, length_draws; reflexivity |].
  split; [intros c Hc; destruct (C c Hc) as [[] | H]; exact H |].
  assert (G : forall k, k < 10 ->
                String.get k (spell (draws 10 (random w)) "")
                = nth_error alphabet (Z.to_nat (randomIndex (nth k (random w) 0%Q)))).
  { intros k Hk. rewrite <- (nth_draws (random w) Hk).
    apply (@get_spell (draws 10 (random w)) "" k (draws_unit 10 U)).
    rewrite length_draws. exact Hk. }
  split; [exact G |].
  split.
  { intros k c Hk Hc. rewrite (G k Hk).
    apply symbol_interval; [| exact Hc].
    rewrite <- (nth_draws (random w) Hk).
    pose proof (draws_unit 10 U) as D. rewrite Forall_forall in D.
    apply D, nth_In. rewrite length_draws. exact Hk. }
  split; [reflexivity |]. split; [reflexivity |].
  destruct (run_confirmHandoff bookingRequestId senderId handed_over R)
    as (w' & Hrun & Hb & _ & _ & _ & _ & Hr & _).
  exists w'. split; [exact Hrun |]. split; [| exact Hr].
  intros b Hin Hid. rewrite Hb in Hin. apply in_map_iff in Hin.
  destruct Hin as (b0 & E & _).
  destruct (String.eqb_spec (br_id b0) bookingRequestId) as [Y | N].
  - subst b. simpl. auto.
  - subst b. contradiction.
Qed.

(** C3 with the random values 0, 1/2 and 31/32 repeated: the code issued
    for [B1] starts with the first, the middle and the last symbol. *)
Lemma generateDeliveryCode_alphabet_witness :
  let rs := [0; 1 # 2; 31 # 32; 0; 1 # 2; 31 # 32; 0; 1 # 2; 31 # 32; 0]%Q in
  let w := with_random (Sample.world (Sample.tables (Some sender_confirmed) None [])) rs in
  exists w',
    run (confirmHandoff "B1" "T" handed_over) w = (Resolved (Some "AS9AS9AS9A"), w')
    /\ map br_delivery_code (booking_requests (store w')) = [Some "AS9AS9AS9A"].
Proof.
  intros rs w.
  assert (U : Forall unit_interval (random w)).
  { repeat constructor; simpl; discriminate. }
  destruct (@generateDeliveryCode_alphabet "B1" "T" w U eq_refl)
    as (_ & _ & _ & _ & code & w1 & Hgen & _ & _ & _ & _ & _ & _ & w' & Hrun & _ & _).
  assert (C : code = "AS9AS9AS9A") by (vm_compute in Hgen; congruence).
  subst code. exists w'. split; [exact Hrun |].
  assert (W : w' = snd (run (confirmHandoff "B1" "T" handed_over) w))
    by (rewrite Hrun; reflexivity).
  rewrite W. vm_compute. reflexivity.
Defined.

(** C3, counterexample.  The alphabet has 32 symbols, and no 33 distinct
    characters can all come out of the generator. *)
Lemma alphabet_has_32_symbols_not_33 :
  String.length chars = 32
  /\ ~ (exists symbols : list ascii,
          NoDup symbols
          /\ List.length symbols = 33
          /\ forall c, In c symbols ->
               exists r, unit_interval r
                         /\ charAt chars (randomIndex r) = String c EmptyString).
Proof.
  split; [reflexivity |].
  intros (symbols & ND & L & P).
  assert (I : incl symbols alphabet).
  { intros c Hc. destruct (P c Hc) as (r & Hr & E).
    destruct (charAt_alphabet (randomIndex_range Hr)) as (a & E' & Ha).
    rewrite E in E'. inversion E'. subst a. exact Ha. }
  pose proof (NoDup_incl_length ND I) as H.
  rewrite L in H. change (List.length alphabet) with 32 in H. lia.
Qed.

(* ================================================================= *)
(** ** The order of the handoff steps *)

Lemma stored_steps_patched (bookingRequestId : string) (p : BookingPatch) (st : Store)
    (l : list BookingRequest) :
  booking_requests st
  = map (fun b => if br_id b =? bookingRequestId then apply_booking_patch p b else b) l ->
  stored_steps bookingRequestId st
  = map (fun _ => Some (patch_handoff_step p))
        (filter (fun b => br_id b =? bookingRequestId) l).
Proof.
  intro E. unfold stored_steps, bookings_with_id. rewrite E.
  rewrite (filter_map_if (fun b => br_id b =? bookingRequestId) (apply_booking_patch p))
    by reflexivity.
  rewrite map_map. reflexivity.
Qed.

(** Whatever the backend does, a call of [confirmHandoff] leaves
    [booking_requests] as it was or writes its step into the rows with the
    identity. *)
Lemma confirmHandoff_writes (bookingRequestId senderId : string) (step : HandoffStep)
    (w : World) :
  exists r w',
    run (confirmHandoff bookingRequestId senderId step) w = (r, w')
    /\ (booking_requests (store w') = booking_requests (store w)
        \/ exists code,
             booking_requests (store w')
             = map (fun b => if br_id b =? bookingRequestId
                             then apply_booking_patch (handoff_patch step code) b
                             else b)
                   (booking_requests (store w))).
Proof.
  unfold confirmHandoff. rewrite run_bind.
  assert (G : exists w0,
             run (match step with
                  | handed_over =>
                      let* code := generateDeliveryCode in Return (Some code)
                  | _ => Return None
                  end) w = (Resolved (issued_code step w), w0)
             /\ store w0 = store w).
  { destruct step; try (exists w; split; reflexivity).
    rewrite run_bind. unfold generateDeliveryCode. rewrite run_generateLoop.
    eexists. split; reflexivity. }
  destruct G as (w0 & G & S0). rewrite G. cbn [run].
  destruct (next_fault w0) eqn:F0.
  - unfold perform. rewrite F0. cbn [refuse failed error run].
    eexists _, _. split; [reflexivity |]. left. simpl. now rewrite S0.
  - rewrite perform_update_booking by exact F0. cbn [empty error].
    destruct (systemMessages step) as [content |].
    + cbn [run]. set (w1 := with_store w0 _). unfold perform.
      destruct (next_fault w1) eqn:F1; simpl;
        eexists _, _; (split; [reflexivity |]); right;
        exists (issued_code step w); simpl; now rewrite S0.
    + cbn [run]. eexists _, _. split; [reflexivity |]. right.
      exists (issued_code step w). simpl. now rewrite S0.
Qed.

(** What a press of the handoff button does, whatever the backend does:
    it never rejects, and it leaves [booking_requests] as it was or writes
    the successor of the step the screen holds; it writes only for a sender
    whose screen holds [none] and for a traveler whose screen holds
    [sender_confirmed]. *)
Lemma handleHandoffAction_requests (bookingRequestId : string) (s : ChatState)
    (w : World) :
  exists s' w',
    run (handleHandoffAction bookingRequestId s) w = (Resolved s', w')
    /\ (booking_requests (store w') = booking_requests (store w)
        \/ exists next code,
             successor (handoffStep s) = Some next
             /\ ((isSender s = true /\ handoffStep s = none)
                 \/ (isTraveler s = true /\ handoffStep s = sender_confirmed))
             /\ booking_requests (store w')
                = map (fun b => if br_id b =? bookingRequestId
                                then apply_booking_patch (handoff_patch next code) b
                                else b)
                      (booking_requests (store w))).
Proof.
  unfold handleHandoffAction.
  destruct (user s) as [userId |]; [| exists s, w; split; [reflexivity | auto]].
  destruct (handoffLoading s); [exists s, w; split; [reflexivity | auto] |].
  rewrite run_bind, run_try_catch.
  cbn [isSender isTraveler handoffStep setHandoffLoading].
  destruct (isSender s && HandoffStep_eqb (handoffStep s) none) eqn:G1.
  - apply andb_true_iff in G1. destruct G1 as [G0 G1].
    assert (E : handoffStep s = none) by (destruct (handoffStep s); auto; discriminate).
    rewrite run_bind.
    destruct (confirmHandoff_writes bookingRequestId userId sender_confirmed w)
      as (r & w' & Hrun & Hb).
    rewrite Hrun.
    assert (K : booking_requests (store w') = booking_requests (store w)
                \/ exists next code,
                     successor (handoffStep s) = Some next
                     /\ ((isSender s = true /\ handoffStep s = none)
                         \/ (isTraveler s = true /\ handoffStep s = sender_confirmed))
                     /\ booking_requests (store w')
                        = map (fun b => if br_id b =? bookingRequestId
                                        then apply_booking_patch (handoff_patch next code) b
                                        else b)
                              (booking_requests (store w))).
    { destruct Hb as [Hb | (code & Hb)]; [left; exact Hb | right].
      exists sender_confirmed, code. rewrite E. auto. }
    destruct r as [c | e]; cbn [run]; eexists _, w'; split; try reflexivity; exact K.
  - destruct (isTraveler s && HandoffStep_eqb (handoffStep s) sender_confirmed) eqn:G2.
    + apply andb_true_iff in G2. destruct G2 as [G0 G2].
      assert (E : handoffStep s = sender_confirmed)
        by (destruct (handoffStep s); auto; discriminate).
      rewrite run_bind.
      destruct (confirmHandoff_writes bookingRequestId userId handed_over w)
        as (r & w' & Hrun & Hb).
      rewrite Hrun.
      assert (K : booking_requests (store w') = booking_requests (store w)
                  \/ exists next code,
                       successor (handoffStep s) = Some next
                       /\ ((isSender s = true /\ handoffStep s = none)
                           \/ (isTraveler s = true /\ handoffStep s = sender_confirmed))
                       /\ booking_requests (store w')
                          = map (fun b => if br_id b =? bookingRequestId
                                          then apply_booking_patch (handoff_patch next code) b
                                          else b)
                                (booking_requests (store w))).
      { destruct Hb as [Hb | (code & Hb)]; [left; exact Hb | right].
        exists handed_over, code. rewrite E. auto. }
      destruct r as [c | e]; cbn [run]; eexists _, w'; split; try reflexivity; exact K.
    + cbn [run]. eexists _, w. split; [reflexivity | auto].
Qed.

(** C2, as the code has it.  [confirmHandoff] does not read the booking:
    on a backend that accepts its writes it puts the requested step into
    the booking whatever step was stored.  The gate is in the handler of
    the handoff button, on the step the chat screen holds: a press never
    rejects, and it changes [booking_requests] only for a sender whose
    screen holds [none] and for a traveler whose screen holds
    [sender_confirmed].  When the step the screen holds is the stored step
    of the booking, the press leaves the stored step either unchanged or on
    its immediate successor. *)
Theorem handleHandoffAction_forward_only
    (bookingRequestId : string) (s : ChatState) (w : World) :
  (forall stored, In stored (stored_steps bookingRequestId (store w)) ->
                  stored = Some (handoffStep s)) ->
  (forall senderId step w0, reliable w0 ->
     exists r w',
       run (confirmHandoff bookingRequestId senderId step) w0 = (Resolved r, w')
       /\ forall stored, In stored (stored_steps bookingRequestId (store w')) ->
                         stored = Some step)
  /\ exists s' w',
       run (handleHandoffAction bookingRequestId s) w = (Resolved s', w')
       /\ (forall stored, In stored (stored_steps bookingRequestId (store w')) ->
             stored = Some (handoffStep s)
             \/ (exists next, successor (handoffStep s) = Some next
                              /\ stored = Some next))
       /\ (booking_requests (store w') <> booking_requests (store w) ->
           (isSender s = true /\ handoffStep s = none)
           \/ (isTraveler s = true /\ handoffStep s = sender_confirmed)).
Proof.
  intro Sync. split.
  - intros senderId step w0 R.
    destruct (run_confirmHandoff bookingRequestId senderId step R)
      as (w' & Hrun & Hb & _).
    eexists _, w'. split; [exact Hrun |].
    intros stored Hin. rewrite (@stored_steps_patched _ _ _ _ Hb) in Hin.
    apply in_map_iff in Hin. destruct Hin as (_ & E & _). now subst stored.
  - destruct (handleHandoffAction_requests bookingRequestId s w)
      as (s' & w' & Hrun & Hb).
    exists s', w'. split; [exact Hrun |]. split.
    + intros stored Hin. destruct Hb as [Hb | (next & code & N & _ & Hb)].
      * left. apply Sync. unfold stored_steps, bookings_with_id in *.
        now rewrite <- Hb.
      * right. rewrite (@stored_steps_patched _ _ _ _ Hb) in Hin.
        apply in_map_iff in Hin. destruct Hin as (_ & E & _).
        exists next. split; [exact N | now subst stored].
    + intro Changed. destruct Hb as [Hb | (next & code & _ & G & _)];
        [contradiction | exact G].
Qed.

(** C2 on booking [B1] with nothing confirmed yet: the sender's screen
    holds the stored step, and the press moves the booking to
    [sender_confirmed] or leaves it. *)
Lemma handleHandoffAction_forward_only_witness :
  let w := Sample.world (Sample.tables (Some none) None []) in
  exists s' w',
    run (handleHandoffAction "B1" (sender_screen none)) w = (Resolved s', w')
    /\ forall stored, In stored (stored_steps "B1" (store w')) ->
         stored = Some none
         \/ (exists next, successor none = Some next /\ stored = Some next).
Proof.
  intro w.
  destruct (@handleHandoffAction_forward_only "B1" (sender_screen none) w)
    as (_ & s' & w' & Hrun & Forward & _).
  - intros stored [E | []]. symmetry. exact E.
  - exists s', w'. auto.
Defined.

(** C2, counterexample.  [confirmHandoff] takes a delivered booking back
    to [sender_confirmed], takes a booking with nothing confirmed straight
    to [delivered], and through a screen that still holds [none] the
    button takes a handed-over booking back to [sender_confirmed]. *)
Lemma confirmHandoff_backward_and_skip :
  stored_steps "B1"
    (store (snd (run (confirmHandoff "B1" "S" sender_confirmed)
                   (Sample.world (Sample.tables (Some delivered) (Some "ABCDEFGHJK") [])))))
  = [Some sender_confirmed]
  /\ stored_steps "B1"
       (store (snd (run (confirmHandoff "B1" "T" delivered)
                      (Sample.world (Sample.tables (Some none) None [])))))
     = [Some delivered]
  /\ stored_steps "B1"
       (store (snd (run (handleHandoffAction "B1" (sender_screen none))
                      (Sample.world
                         (Sample.tables (Some handed_over) (Some "ABCDEFGHJK") [])))))
     = [Some sender_confirmed].
Proof. repeat split. Qed.

(* ================================================================= *)
(** ** Two sessions on one booking *)

Lemma delivered_not_accepted (st : Store) (bookingRequestId code : string) :
  (exists b, bookings_with_id bookingRequestId st = [b]
             /\ br_handoff_step b = Some delivered) ->
  ~ code_accepted st bookingRequestId code.
Proof.
  intros (b & L & S) (b' & stored & L' & S' & _).
  rewrite L in L'. inversion L'; subst b'. congruence.
Qed.

(** C5, as the code has it.  The writes of a transition are updates by
    booking identity alone, so nothing orders two sessions but the order
    of their requests.  When two code checks on the same booking run one
    after the other on a backend that answers, both resolve, at most one
    of them to [true]: if the first is accepted the second finds the
    booking delivered, resolves to [false] and writes nothing, and
    [messages] grows by exactly one row when one of them is accepted and
    not at all otherwise. *)
Theorem validateDeliveryCode_one_after_the_other
    (bookingRequestId code1 sender1 code2 sender2 : string) (w : World) :
  reliable w ->
  exists r1 r2 w',
    interleave [] (validateDeliveryCode bookingRequestId code1 sender1)
                  (validateDeliveryCode bookingRequestId code2 sender2) w
    = ((Resolved r1, Resolved r2), w')
    /\ (r1 = true -> r2 = false)
    /\ (code_accepted (store w) bookingRequestId code1 -> r1 = true)
    /\ List.length (messages (store w'))
       = List.length (messages (store w)) + (if r1 || r2 then 1 else 0).
Proof.
  intro R. cbn [interleave].
  destruct (run_validateDeliveryCode bookingRequestId code1 sender1 w) as [No1 Yes1].
  destruct (code_accepted_dec (store w) bookingRequestId code1) as [A1 | N1].
  - destruct (Yes1 A1 R) as (w1 & Hrun1 & _ & (b & L & S & _) & Hm & _ & _ & _ & R1).
    rewrite Hrun1.
    destruct (run_validateDeliveryCode bookingRequestId code2 sender2 w1) as [No2 _].
    rewrite No2 by (apply delivered_not_accepted; exists b; auto).
    exists true, false, (answered w1).
    split; [reflexivity |]. split; [reflexivity |]. split; [reflexivity |].
    simpl. rewrite Hm, length_app. reflexivity.
  - rewrite (No1 N1).
    destruct (run_validateDeliveryCode bookingRequestId code2 sender2 (answered w))
      as [No2 Yes2].
    destruct (code_accepted_dec (store (answered w)) bookingRequestId code2) as [A2 | N2].
    + destruct (Yes2 A2 (reliable_answered R)) as (w2 & Hrun2 & _ & _ & Hm & _).
      rewrite Hrun2. exists false, true, w2.
      split; [reflexivity |]. split; [discriminate |].
      split; [intro; contradiction |].
      simpl. rewrite Hm, length_app. reflexivity.
    + rewrite (No2 N2). exists false, false, (answered (answered w)).
      split; [reflexivity |]. split; [discriminate |].
      split; [intro; contradiction |].
      simpl. lia.
Qed.

(** C5 on the handed-over booking [B1]: the sender submits the right code
    twice in a row; the first call succeeds, the second does not. *)
Lemma validateDeliveryCode_one_after_the_other_witness :
  let w := Sample.world (Sample.tables (Some handed_over) (Some "ABCDEFGHJK") []) in
  exists r1 r2 w',
    interleave [] (validateDeliveryCode "B1" "ABCDEFGHJK" "S")
                  (validateDeliveryCode "B1" "ABCDEFGHJK" "S") w
    = ((Resolved r1, Resolved r2), w')
    /\ (r1 = true -> r2 = false)
    /\ List.length (messages (store w')) = 0 + (if r1 || r2 then 1 else 0).
Proof.
  intro w.
  destruct (@validateDeliveryCode_one_after_the_other
              "B1" "ABCDEFGHJK" "S" "ABCDEFGHJK" "S" w eq_refl)
    as (r1 & r2 & w' & H1 & H2 & _ & H4).
  exists r1, r2, w'. auto.
Defined.

(** C5, counterexample.  Two sessions submit the right code for the
    handed-over booking [B1]; when both lookups are served before either
    update, both calls resolve to [true] and two delivered messages are
    appended.  Two calls of [confirmHandoff] for the same step both
    succeed as well, one after the other, and append two system
    messages. *)
Lemma simultaneous_code_checks_both_succeed :
  let w := Sample.world (Sample.tables (Some handed_over) (Some "ABCDEFGHJK") []) in
  let both := interleave [true; false]
                (validateDeliveryCode "B1" "ABCDEFGHJK" "S")
                (validateDeliveryCode "B1" "abcdefghjk" "S") w in
  fst both = (Resolved true, Resolved true)
  /\ map msg_content (messages (store (snd both)))
     = ["[HANDOFF] delivered"; "[HANDOFF] delivered"]
  /\ let w0 := Sample.world (Sample.tables (Some none) None []) in
     let twice := interleave []
                    (confirmHandoff "B1" "S" sender_confirmed)
                    (confirmHandoff "B1" "S" sender_confirmed) w0 in
     fst twice = (Resolved None, Resolved None)
     /\ map msg_content (messages (store (snd twice)))
        = ["[HANDOFF] sender_confirmed"; "[HANDOFF] sender_confirmed"].
Proof. repeat split. Qed.

(* ================================================================= *)
(** ** Sorting with a comparator *)

Section SortFacts.
Variable T : Type.
Variable compare : T -> T -> Z.

Hypothesis compare_total : forall a b, not_after compare a b \/ not_after compare b a.
Hypothesis compare_trans :
  forall a b c, not_after compare a b -> not_after compare b c -> not_after compare a c.

Lemma insert_perm (x : T) (l : list T) :
  Permutation (JsArray.insert compare x l) (x :: l).
Proof.
  induction l as [| y l IH]; simpl; auto.
  destruct (compare x y <=? 0)%Z; auto.
  apply perm_trans with (y :: x :: l); [| apply perm_swap].
  apply perm_skip. exact IH.
Qed.

Lemma sort_perm (l : list T) : Permutation (JsArray.sort compare l) l.
Proof.
  induction l as [| x l IH]; simpl; auto.
  apply perm_trans with (x :: JsArray.sort compare l); [apply insert_perm |].
  apply perm_skip. exact IH.
Qed.

Lemma insert_sorted (x : T) (l : list T) :
  StronglySorted (not_after compare) l ->
  StronglySorted (not_after compare) (JsArray.insert compare x l).
Proof.
  induction l as [| y l IH]; intro S; simpl.
  - repeat constructor.
  - inversion S as [| y' l' Sl Fy]; subst.
    destruct (Z.leb_spec (compare x y) 0) as [L | G].
    + constructor; [exact S |]. constructor; [exact L |].
      eapply Forall_impl; [| exact Fy]. intros z Hz. now apply compare_trans with y.
    + constructor; [apply IH; exact Sl |].
      assert (B : not_after compare y x).
      { destruct (compare_total x y) as [H | H]; [unfold not_after in H; lia | exact H]. }
      apply (Permutation_Forall (Permutation_sym (insert_perm x l))).
      constructor; assumption.
Qed.

Lemma sort_sorted (l : list T) :
  StronglySorted (not_after compare) (JsArray.sort compare l).
Proof.
  induction l as [| x l IH]; simpl; [constructor | apply insert_sorted; exact IH].
Qed.
End SortFacts.

Lemma compare_latest_first (a b : ConversationSummary) :
  (compareConversations a b <= 0)%Z <-> latest_first a b.
Proof.
  unfold compareConversations, latest_first.
  destruct (last_message_at a), (last_message_at b); split; intro H; auto; lia.
Qed.

Lemma sorted_conversations (l : list ConversationSummary) :
  StronglySorted latest_first (JsArray.sort compareConversations l).
Proof.
  assert (S : StronglySorted (not_after compareConversations)
                (JsArray.sort compareConversations l)).
  { apply sort_sorted.
    - intros a b. unfold not_after. rewrite !compare_latest_first. unfold latest_first.
      destruct (last_message_at a), (last_message_at b); auto; lia.
    - intros a b c. unfold not_after. rewrite !compare_latest_first. unfold latest_first.
      destruct (last_message_at a), (last_message_at b), (last_message_at c);
        auto; try lia; contradiction. }
  induction S as [| x l' S IH F]; constructor; auto.
  eapply Forall_impl; [| exact F]. intro y. apply compare_latest_first.
Qed.

(* ================================================================= *)
(** ** fetchConversations *)

Lemma run_conversationsLoop (userId : string) (bookings : list BookingRequest) :
  forall (conversations : list ConversationSummary) (w : World),
    reliable w ->
    exists w',
      run (conversationsLoop userId bookings conversations) w
      = (Resolved (conversations ++ flat_map (pushed (store w) userId) bookings)%list, w')
      /\ store w' = store w
      /\ reliable w'.
Proof.
  induction bookings as [| booking rest IH]; intros conversations w R.
  - exists w. simpl. rewrite app_nil_r. auto.
  - cbn [conversationsLoop run flat_map]. unfold perform at 1.
    rewrite (reliable_next_fault R). cbn [serve]. unfold pushed at 1.
    pose proof (reliable_answered R) as R1.
    destruct (data (single _)) as [ann |].
    + destruct (negb (br_user_id booking =? userId) && negb (an_user_id ann =? userId)).
      * destruct (IH conversations (answered w) R1) as (w' & H & S & R').
        exists w'. simpl. auto.
      * cbn [run]. unfold perform at 1. rewrite (reliable_next_fault R1). cbn [serve run].
        pose proof (reliable_answered R1) as R2.
        unfold perform at 1. rewrite (reliable_next_fault R2). cbn [serve run].
        pose proof (reliable_answered R2) as R3.
        unfold perform at 1. rewrite (reliable_next_fault R3). cbn [serve run count].
        pose proof (reliable_answered R3) as R4.
        match goal with
        | |- context [conversationsLoop userId rest ?acc] =>
            destruct (IH acc _ R4) as (w' & H & S & R')
        end.
        exists w'. rewrite H. cbn [store answered with_store].
        rewrite <- app_assoc. auto.
    + destruct (IH conversations (answered w) R1) as (w' & H & S & R').
      exists w'. simpl. auto.
Qed.

Lemma latest_from_time (rows : list Message) (best : Message) :
  msg_created_at (latest_from best rows)
  = fold_left Z.max (map msg_created_at rows) (msg_created_at best).
Proof.
  revert best. induction rows as [| m rows IH]; intro best; simpl; auto.
  destruct (Z.ltb_spec (msg_created_at best) (msg_created_at m)) as [L | G];
    rewrite IH; f_equal; lia.
Qed.

Lemma selects_conversation (bookingRequestId : string) (l : list Message) :
  filter (selects message_matches [message_eq_booking_request_id bookingRequestId]) l
  = filter (fun m => msg_booking_request_id m =? bookingRequestId) l.
Proof.
  apply filter_ext. intro m. unfold selects. cbn [forallb message_matches].
  apply andb_true_r.
Qed.

Lemma selects_announcement (id : string) (l : list Announcement) :
  filter (selects announcement_matches [announcement_eq_id id]) l
  = filter (fun a => an_id a =? id) l.
Proof.
  apply filter_ext. intro a. unfold selects. cbn [forallb announcement_matches].
  apply andb_true_r.
Qed.

(** What a pushed conversation says about its booking. *)
Lemma pushed_summary (st : Store) (userId : string) (b : BookingRequest)
    (c : ConversationSummary) :
  In c (pushed st userId b) ->
  booking_request_id c = br_id b
  /\ last_message_at c = latest_time st (br_id b)
  /\ (conversation_messages st (br_id b) = [] ->
      last_message c = None /\ last_message_at c = None /\ unread_count c = 0).
Proof.
  unfold pushed. destruct (data (single _)) as [ann |]; [| intros []].
  destruct (negb (br_user_id b =? userId) && negb (an_user_id ann =? userId));
    [intros [] |].
  intros [E | []]. subst c. cbn [booking_request_id last_message_at last_message unread_count].
  rewrite selects_conversation. fold (conversation_messages st (br_id b)).
  split; [reflexivity |]. split.
  - unfold latest_time.
    destruct (conversation_messages st (br_id b)) as [| m rows]; [reflexivity |].
    cbn [latest maybeSingle ok data option_map map]. now rewrite latest_from_time.
  - intro E.
    assert (U : filter (selects message_matches
                          [message_eq_booking_request_id (br_id b);
                           message_neq_sender_id userId;
                           message_is_read_at_null]) (messages st) = []).
    { unfold conversation_messages in E.
      induction (messages st) as [| m l IHl]; [reflexivity |].
      simpl in E. unfold selects. cbn [filter forallb message_matches].
      destruct (msg_booking_request_id m =? br_id b); [discriminate |].
      simpl. apply IHl. exact E. }
    rewrite U, E. auto.
Qed.

(** With the announcement in place, a booking is pushed exactly when the
    user takes part in it. *)
Lemma pushed_participant (st : Store) (userId : string) (b : BookingRequest) :
  (exists a, announcement_of st b = [a]) ->
  map booking_request_id (pushed st userId b)
  = if participant st userId b then [br_id b] else [].
Proof.
  intros (a & A). unfold pushed, participant, traveler_of.
  rewrite selects_announcement. fold (announcement_of st b). rewrite A.
  cbn [single ok data].
  destruct (br_user_id b =? userId), (an_user_id a =? userId); reflexivity.
Qed.

Lemma pushed_qualifying (st : Store) (userId : string) (bookings : list BookingRequest) :
  (forall b, In b bookings -> exists a, announcement_of st b = [a]) ->
  map booking_request_id (flat_map (pushed st userId) bookings)
  = map br_id (filter (participant st userId) bookings).
Proof.
  induction bookings as [| b rest IH]; intro Ref; [reflexivity |].
  cbn [flat_map filter]. rewrite map_app, pushed_participant by (apply Ref; left; auto).
  rewrite IH by (intros b' H; apply Ref; right; exact H).
  destruct (participant st userId b); reflexivity.
Qed.

Lemma filter_both {T} (p q : T -> bool) (l : list T) :
  filter p (filter q l) = filter (fun x => p x && q x) l.
Proof.
  induction l as [| x l IH]; simpl; auto.
  destruct (q x); simpl; rewrite ?andb_true_r, ?andb_false_r.
  - destruct (p x); now rewrite IH.
  - exact IH.
Qed.

Lemma selects_has_chat (l : list BookingRequest) :
  filter (selects booking_matches [booking_not_status_in closed_statuses]) l
  = filter has_chat l.
Proof.
  apply filter_ext. intro b. unfold selects. cbn [forallb booking_matches].
  apply andb_true_r.
Qed.

(** C8. On a backend that answers every query and where every booking
    points to its announcement, [fetchConversations] resolves without
    writing, and its result holds one conversation for each booking in
    which the user is the sender or the traveler and whose status is none
    of pending, rejected, cancelled, and no other.  The result is sorted by
    the time of the latest message of each conversation, latest first, with
    the conversations without messages at the end.  A qualifying booking
    without messages is in the result, with no preview, no time and no
    unread message. *)
Theorem fetchConversations_inbox (userId : string) (w : World) :
  reliable w ->
  referential (store w) ->
  exists conversations w',
    run (fetchConversations userId) w = (Resolved conversations, w')
    /\ store w' = store w
    /\ Permutation (map booking_request_id conversations)
         (map br_id (filter (qualifies (store w) userId) (booking_requests (store w))))
    /\ StronglySorted latest_first conversations
    /\ (forall c, In c conversations ->
          last_message_at c = latest_time (store w) (booking_request_id c))
    /\ (forall b, In b (booking_requests (store w)) ->
          qualifies (store w) userId b = true ->
          conversation_messages (store w) (br_id b) = [] ->
          exists c, In c conversations
                    /\ booking_request_id c = br_id b
                    /\ last_message c = None
                    /\ last_message_at c = None
                    /\ unread_count c = 0).
Proof.
  intros R Ref. unfold fetchConversations. cbn [run]. unfold perform.
  rewrite (reliable_next_fault R). cbn [serve ok error data].
  rewrite selects_has_chat. rewrite run_bind.
  set (open := filter has_chat (booking_requests (store w))).
  destruct (run_conversationsLoop userId open [] (reliable_answered R))
    as (w' & Hrun & S & _).
  rewrite Hrun. cbn [run app store answered with_store] in *.
  set (found := flat_map (pushed (store w) userId) open).
  assert (P : Permutation (JsArray.sort compareConversations found) found)
    by apply sort_perm.
  assert (Ids : map booking_request_id found
                = map br_id (filter (qualifies (store w) userId)
                               (booking_requests (store w)))).
  { unfold found. rewrite pushed_qualifying.
    - unfold open. now rewrite filter_both.
    - intros b H. apply Ref. unfold open in H. apply filter_In in H. tauto. }
  assert (Each : forall c, In c (JsArray.sort compareConversations found) ->
                 exists b, In b open /\ In c (pushed (store w) userId b)).
  { intros c H. apply (Permutation_in _ P) in H. unfold found in H.
    apply in_flat_map in H. exact H. }
  exists (JsArray.sort compareConversations found), w'.
  split; [reflexivity |]. split; [exact S |].
  split; [rewrite <- Ids; apply Permutation_map; exact P |].
  split; [apply sorted_conversations |]. split.
  - intros c H. destruct (Each c H) as (b & _ & Hc).
    destruct (pushed_summary _ _ _ _ Hc) as (E & T & _). now rewrite E.
  - intros b Hb Q Empty.
    assert (Hopen : In b open).
    { unfold open. apply filter_In. split; [exact Hb |].
      unfold qualifies in Q. apply andb_true_iff in Q. tauto. }
    assert (Hid : In (br_id b) (map booking_request_id (pushed (store w) userId b))).
    { rewrite pushed_participant by (apply Ref; exact Hb).
      unfold qualifies in Q. apply andb_true_iff in Q. destruct Q as [Q _].
      rewrite Q. left. reflexivity. }
    apply in_map_iff in Hid. destruct Hid as (c & E & Hc).
    exists c. split.
    + apply (Permutation_in _ (Permutation_sym P)). unfold found.
      apply in_flat_map. exists b. auto.
    + destruct (pushed_summary _ _ _ _ Hc) as (_ & _ & Z0).
      destruct (Z0 Empty) as (Z1 & Z2 & Z3). auto.
Qed.

(** C8 on the inbox of the traveler [T] and of the sender [S]: the traveler
    sees [B4], then [B1], then the silent [B2]; the sender sees [B1] and
    [B2]; the pending [B3] is in neither. *)
Lemma fetchConversations_inbox_witness :
  let w := Sample.world Inbox.tables in
  (exists conversations w',
     run (fetchConversations "T") w = (Resolved conversations, w')
     /\ Permutation (map booking_request_id conversations) ["B2"; "B1"; "B4"]
     /\ StronglySorted latest_first conversations)
  /\ map booking_request_id
       (match fst (run (fetchConversations "T") w) with
        | Resolved l => l
        | Rejected _ => []
        end) = ["B4"; "B1"; "B2"]
  /\ map booking_request_id
       (match fst (run (fetchConversations "S") w) with
        | Resolved l => l
        | Rejected _ => []
        end) = ["B1"; "B2"].
Proof.
  intro w. split; [| split; reflexivity].
  assert (Ref : referential (store w)).
  { intros b Hb. exists Sample.A1. simpl in Hb.
    repeat (destruct Hb as [Hb | Hb]; [subst b; reflexivity |]). contradiction. }
  destruct (@fetchConversations_inbox "T" w eq_refl Ref)
    as (conversations & w' & Hrun & _ & P & S & _).
  exists conversations, w'. auto.
Defined.

(* ================================================================= *)
(** ** What every call keeps *)

Unset Implicit Arguments.

Lemma issues_bind (P : forall R, Request R -> Prop) {A B} (p : Async A)
    (f : A -> Async B) :
  issues P p -> (forall a, issues P (f a)) -> issues P (bind p f).
Proof.
  intros Hp Hf. induction Hp as [a | e | R req k Hreq Hk IH]; simpl.
  - apply Hf.
  - constructor.
  - constructor; [exact Hreq | exact IH].
Qed.

Lemma issues_try_catch (P : forall R, Request R -> Prop) {A} (p : Async A)
    (h : Error -> Async A) :
  issues P p -> (forall e, issues P (h e)) -> issues P (try_catch p h).
Proof.
  intros Hp Hh. induction Hp as [a | e | R req k Hreq Hk IH]; simpl.
  - constructor.
  - apply Hh.
  - constructor; [exact Hreq | exact IH].
Qed.

Lemma issues_Await_inv (P : forall R, Request R -> Prop) {A R} (req : Request R)
    (k : R -> Async A) :
  issues P (Await req k) -> P R req /\ forall r, issues P (k r).
Proof.
  intro H.
  refine (match H in issues _ p
                return match p with
                       | Await req' k' => P _ req' /\ forall r, issues P (k' r)
                       | _ => True
                       end
          with
          | issues_Return _ _ => I
          | issues_Throw _ _ => I
          | issues_Await _ _ Hreq Hk => conj Hreq Hk
          end).
Qed.

Section Kept.

Variable P : forall R, Request R -> Prop.
Variable Inv : World -> Prop.
Hypothesis perform_keeps :
  forall R (req : Request R) w, @P R req -> Inv w -> Inv (snd (perform req w)).

Lemma step_keeps {A} (p : Async A) (w : World) :
  issues P p -> Inv w -> issues P (fst (step p w)) /\ Inv (snd (step p w)).
Proof.
  intros Hp Hw. destruct p as [a | e | R req k]; simpl; auto.
  apply issues_Await_inv in Hp. destruct Hp as [Hreq Hk].
  pose proof (@perform_keeps _ req w Hreq Hw) as H.
  destruct (perform req w) as [r w']. simpl in *. auto.
Qed.

Lemma run_keeps {A} (p : Async A) (w : World) :
  issues P p -> Inv w -> Inv (snd (run p w)).
Proof.
  intro Hp. revert w. induction Hp as [a | e | R req k Hreq Hk IH]; intros w Hw; simpl; auto.
  pose proof (@perform_keeps _ req w Hreq Hw) as H.
  destruct (perform req w) as [r w']. simpl in *. apply IH. exact H.
Qed.

Lemma step_nth_keeps (i : nat) (calls : list (Async unit)) (w : World) :
  Forall (issues P) calls -> Inv w ->
  Forall (issues P) (fst (step_nth i calls w)) /\ Inv (snd (step_nth i calls w)).
Proof.
  revert i w. induction calls as [| p rest IH]; intros i w Hc Hw; simpl.
  { destruct i; simpl; split; [constructor | exact Hw | constructor | exact Hw]. }
  apply Forall_cons_iff in Hc. destruct Hc as [Hp Hrest].
  destruct i as [| j]; cbn [step_nth].
  - destruct (step_keeps p w Hp Hw) as [Hp' Hw'].
    destruct (step p w) as [p1 w1]. cbn [fst snd] in *.
    split; [constructor; assumption | assumption].
  - destruct (IH j w Hrest Hw) as [Hr' Hw'].
    destruct (step_nth j rest w) as [rest1 w1]. cbn [fst snd] in *.
    split; [constructor; assumption | assumption].
Qed.

Lemma finish_keeps (calls : list (Async unit)) (w : World) :
  Forall (issues P) calls -> Inv w -> Inv (finish calls w).
Proof.
  revert w. induction calls as [| p rest IH]; intros w Hc Hw; simpl; auto.
  apply Forall_cons_iff in Hc. destruct Hc as [Hp Hrest].
  apply IH; [exact Hrest |]. apply run_keeps; assumption.
Qed.

Lemma concurrently_keeps (schedule : list nat) (calls : list (Async unit)) (w : World) :
  Forall (issues P) calls -> Inv w -> Inv (concurrently schedule calls w).
Proof.
  revert calls w. induction schedule as [| i rest IH]; intros calls w Hc Hw; simpl.
  - apply finish_keeps; assumption.
  - destruct (step_nth_keeps i calls w Hc Hw) as [Hc' Hw'].
    destruct (step_nth i calls w) as [calls1 w1]. simpl in *. apply IH; assumption.
Qed.

End Kept.

Lemma issues_weaken (P Q : forall R, Request R -> Prop) {A} (p : Async A) :
  (forall R (req : Request R), P R req -> Q R req) -> issues P p -> issues Q p.
Proof.
  intros PQ H. induction H as [a | e | R req k Hreq Hk IH]; constructor; auto.
Qed.

Lemma quiet_guarded {A} (p : Async A) : issues quiet p -> issues guarded p.
Proof. apply issues_weaken. intros R req [G _]. exact G. Qed.

Lemma quiet_generateLoop (n : nat) (code : string) : issues quiet (generateLoop n code).
Proof.
  revert code. induction n as [| n IH]; intro code; simpl; constructor; auto.
  split; exact I.
Qed.

Lemma quiet_confirmHandoff (b s : string) (step : HandoffStep) :
  issues quiet (confirmHandoff b s step).
Proof.
  unfold confirmHandoff. apply issues_bind.
  - destruct step; [constructor | constructor | | constructor].
    apply issues_bind; [apply quiet_generateLoop | intro; constructor].
  - intro code. constructor; [split; [destruct step; reflexivity | exact I] |].
    intro r. destruct (error r); [constructor |].
    destruct (systemMessages step); [| constructor].
    constructor; [split; exact I |]. intro r'. destruct (error r'); constructor.
Qed.

Lemma quiet_validateDeliveryCode (b c s : string) :
  issues quiet (validateDeliveryCode b c s).
Proof.
  unfold validateDeliveryCode. constructor; [split; exact I |]. intro r.
  destruct (error r); [constructor |]. destruct (data r) as [bk |]; [| constructor].
  destruct (br_handoff_step bk) as [[] |]; try constructor.
  destruct (br_delivery_code bk); [| constructor].
  destruct (_ && _); [| constructor].
  constructor; [split; [reflexivity | exact I] |].
  intro r1. destruct (error r1); [constructor |].
  constructor; [split; exact I |]. intro r2. destruct (error r2); constructor.
Qed.

Lemma quiet_sendMessage (b s c : string) : issues quiet (sendMessage b s c).
Proof.
  unfold sendMessage. destruct (_ || _); [constructor |].
  constructor; [split; exact I |]. intro r. destruct (error r); constructor.
Qed.

Lemma guarded_confirmHandoff (b s : string) (step : HandoffStep) :
  issues guarded (confirmHandoff b s step).
Proof. apply quiet_guarded, quiet_confirmHandoff. Qed.

Lemma guarded_validateDeliveryCode (b c s : string) :
  issues guarded (validateDeliveryCode b c s).
Proof. apply quiet_guarded, quiet_validateDeliveryCode. Qed.

Lemma guarded_sendMessage (b s c : string) : issues guarded (sendMessage b s c).
Proof. apply quiet_guarded, quiet_sendMessage. Qed.

Lemma guarded_markAsRead (b u : string) : issues guarded (markAsRead b u).
Proof.
  unfold markAsRead. constructor; [exact I |]. intro now.
  constructor; [simpl; auto |]. intro r. destruct (error r); constructor.
Qed.

Lemma guarded_submitRating (b r d : string) (score : Z) (comment : option string) :
  issues guarded (submitRating b r d score comment).
Proof.
  unfold submitRating. constructor; [exact I |]. intro x. destruct (error x); constructor.
Qed.

Lemma guarded_conversationsLoop (u : string) (bookings : list BookingRequest)
    (acc : list ConversationSummary) :
  issues guarded (conversationsLoop u bookings acc).
Proof.
  revert acc. induction bookings as [| b rest IH]; intro acc; simpl; [constructor |].
  constructor; [exact I |]. intro r. destruct (data r) as [ann |]; [| apply IH].
  destruct (_ && _); [apply IH |].
  constructor; [exact I |]. intro r1.
  constructor; [exact I |]. intro r2.
  constructor; [exact I |]. intro r3. apply IH.
Qed.

Lemma guarded_fetchConversations (u : string) : issues guarded (fetchConversations u).
Proof.
  unfold fetchConversations. constructor; [exact I |]. intro r.
  destruct (error r); [constructor |]. destruct (data r); [| constructor].
  apply issues_bind; [apply guarded_conversationsLoop | intro; constructor].
Qed.

Lemma guarded_fetchDeliveryCode (b : string) : issues guarded (fetchDeliveryCode b).
Proof.
  unfold fetchDeliveryCode. constructor; [exact I |]. intro r.
  destruct (error r); constructor.
Qed.

Lemma guarded_fetchHandoffStep (b : string) : issues guarded (fetchHandoffStep b).
Proof.
  unfold fetchHandoffStep. constructor; [exact I |]. intro r.
  destruct (error r); [constructor |]. destruct (data r) as [bk |]; [| constructor].
  destruct (br_handoff_step bk); constructor.
Qed.

Lemma guarded_fetchUserAverageRating (u : string) :
  issues guarded (fetchUserAverageRating u).
Proof.
  unfold fetchUserAverageRating. constructor; [exact I |]. intro r.
  destruct (error r); [constructor |]. destruct (data r); [| constructor].
  destruct (_ =? _)%nat; constructor.
Qed.

Lemma quiet_handleHandoffAction (b : string) (s : ChatState) :
  issues quiet (handleHandoffAction b s).
Proof.
  unfold handleHandoffAction. destruct (user s); [| constructor].
  destruct (handoffLoading s); [constructor |].
  apply issues_bind; [| intro; constructor].
  apply issues_try_catch; [| intro; constructor].
  destruct (_ && _).
  - apply issues_bind; [apply quiet_confirmHandoff | intro; constructor].
  - destruct (_ && _); [| constructor].
    apply issues_bind; [apply quiet_confirmHandoff | intro; constructor].
Qed.

Lemma quiet_send (b : string) (u : option string) (c : string) :
  issues quiet (send b u c).
Proof.
  unfold send. destruct u; [| constructor].
  apply issues_try_catch; [| intro; constructor].
  apply issues_bind; [apply quiet_sendMessage | intro; constructor].
Qed.

Lemma quiet_handleSend (b : string) (s : Screen) : issues quiet (handleSend b s).
Proof.
  unfold handleSend. destruct (_ || _); [constructor |].
  apply issues_bind; [| intro; constructor].
  apply issues_try_catch; [| intro; constructor].
  assert (S : forall s0 text, issues quiet
                (let* _ := send b (user (chat s0)) text in Return s0))
    by (intros; apply issues_bind; [apply quiet_send | intro; constructor]).
  destruct (_ && _); [| apply S].
  apply issues_bind.
  - destruct (user _); [apply quiet_validateDeliveryCode | constructor].
  - intros []; [constructor | apply S].
Qed.

Lemma guarded_handleHandoffAction (b : string) (s : ChatState) :
  issues guarded (handleHandoffAction b s).
Proof. apply quiet_guarded, quiet_handleHandoffAction. Qed.

Lemma guarded_handleSend (b : string) (s : Screen) : issues guarded (handleSend b s).
Proof. apply quiet_guarded, quiet_handleSend. Qed.

Lemma guarded_handleSubmitRating (b : string) (s : Screen) :
  issues guarded (handleSubmitRating b s).
Proof.
  unfold handleSubmitRating. destruct (user (chat s)); [| constructor].
  destruct (otherUserId s); [| constructor].
  destruct (_ || _); [constructor |].
  apply issues_bind; [| intro; constructor].
  apply issues_try_catch; [| intro; constructor].
  apply issues_bind; [apply guarded_submitRating | intro; constructor].
Qed.

Lemma guarded_handle (b : string) (e : ScreenEvent) (s : Screen) :
  issues guarded (handle b e s).
Proof.
  destruct e; cbn [handle]; try constructor.
  - apply guarded_handleSend.
  - apply issues_bind; [apply guarded_handleHandoffAction | intro; constructor].
  - destruct (nth_error stars i); constructor.
  - apply guarded_handleSubmitRating.
Qed.

Lemma guarded_program (c : Call) : issues guarded (program c).
Proof.
  destruct c; cbn [program];
    try (apply issues_bind; [| intro; constructor]).
  - apply guarded_sendMessage.
  - apply guarded_markAsRead.
  - apply guarded_fetchConversations.
  - apply guarded_confirmHandoff.
  - apply guarded_fetchDeliveryCode.
  - apply guarded_validateDeliveryCode.
  - apply guarded_fetchHandoffStep.
  - apply guarded_submitRating.
  - apply guarded_fetchUserAverageRating.
  - apply guarded_handle.
Qed.

Lemma lockstep_patch (p : BookingPatch) (b : BookingRequest) :
  keeps_lockstep p -> lockstep (apply_booking_patch p b).
Proof.
  unfold keeps_lockstep, lockstep. simpl.
  destruct (patch_handoff_step p); auto; intro E; rewrite E; reflexivity.
Qed.

Lemma perform_keeps_lockstep (R : Type) (req : Request R) (w : World) :
  guarded req ->
  Forall lockstep (booking_requests (store w)) ->
  Forall lockstep (booking_requests (store (snd (perform req w)))).
Proof.
  intros G H. unfold perform.
  destruct req; try (destruct (next_fault w); simpl; exact H); simpl; try exact H.
  destruct (next_fault w); simpl; [exact H |].
  apply Forall_map. eapply Forall_impl; [| exact H].
  intros b Hb. destruct (selects booking_matches fs b); [| exact Hb].
  apply lockstep_patch. exact G.
Qed.

Lemma read_later_refl (l : list Message) : Forall2 read_later l l.
Proof. induction l; constructor; auto. left. reflexivity. Qed.

Lemma read_later_trans (a b c : Message) :
  read_later a b -> read_later b c -> read_later a c.
Proof.
  intros [E1 | (N1 & t1 & E1)] [E2 | (N2 & t2 & E2)]; subst.
  - left. reflexivity.
  - right. split; [exact N2 | exists t2; reflexivity].
  - right. split; [exact N1 | exists t1; reflexivity].
  - simpl in N2. discriminate.
Qed.

Lemma Forall2_read_later_trans (l1 l2 l3 : list Message) :
  Forall2 read_later l1 l2 -> Forall2 read_later l2 l3 -> Forall2 read_later l1 l3.
Proof.
  intro H. revert l3. induction H as [| a b l1 l2 Hab H12 IH]; intros l3 H23.
  - inversion H23. constructor.
  - inversion H23 as [| b' c l2' l3' Hbc H23']; subst. constructor.
    + eapply read_later_trans; eassumption.
    + apply IH. exact H23'.
Qed.

Lemma extends_refl (l : list Message) : extends l l.
Proof. exists l, []. split; [now rewrite app_nil_r | apply read_later_refl]. Qed.

Lemma extends_trans (l1 l2 l3 : list Message) :
  extends l1 l2 -> extends l2 l3 -> extends l1 l3.
Proof.
  intros (k1 & a1 & E1 & F1) (k2 & a2 & E2 & F2). subst l2.
  apply Forall2_app_inv_l in F2. destruct F2 as (k2a & k2b & Fa & Fb & E). subst k2.
  exists k2a, (k2b ++ a2)%list. split.
  - rewrite E2. now rewrite app_assoc.
  - eapply Forall2_read_later_trans; eassumption.
Qed.

Lemma extends_read_marks (t : Z) (fs : list MessageFilter) (l : list Message) :
  In message_is_read_at_null fs ->
  extends l (map (fun m => if selects message_matches fs m then set_read_at t m else m) l).
Proof.
  intro H. eexists _, []. split; [now rewrite app_nil_r |].
  induction l as [| m l IH]; simpl; constructor; auto.
  destruct (selects message_matches fs m) eqn:S; [| left; reflexivity].
  right. split; [| exists t; reflexivity].
  unfold selects in S. rewrite forallb_forall in S. specialize (S _ H).
  simpl in S. destruct (msg_read_at m); [discriminate | reflexivity].
Qed.

Lemma perform_extends (R : Type) (req : Request R) (w : World) :
  guarded req ->
  extends (messages (store w)) (messages (store (snd (perform req w)))).
Proof.
  intro G. unfold perform.
  destruct req; try (destruct (next_fault w); simpl; apply extends_refl);
    simpl; try apply extends_refl;
    destruct (next_fault w); simpl; try apply extends_refl.
  - eexists _, _. split; [reflexivity | apply read_later_refl].
  - eexists _, _. split; [reflexivity | apply read_later_refl].
  - apply extends_read_marks. exact G.
Qed.

(** Whatever calls of the library and of the chat screen are in flight,
    in whatever order their requests reach the backend and whichever of
    them fail, a table of bookings whose [status] follows [handoff_step]
    stays so: a handed-over booking has the status handed_over and a
    delivered booking the status delivered. *)
Theorem status_follows_handoff_step (schedule : list nat) (calls : list Call) (w : World) :
  Forall lockstep (booking_requests (store w)) ->
  Forall lockstep
    (booking_requests (store (concurrently schedule (map program calls) w))).
Proof.
  apply (concurrently_keeps guarded
           (fun w => Forall lockstep (booking_requests (store w)))).
  - intros R req w0. apply perform_keeps_lockstep.
  - apply Forall_map. apply Forall_forall. intros c _. apply guarded_program.
Qed.

(** Whatever calls of the library and of the chat screen are in flight,
    in whatever order their requests reach the backend and whichever of
    them fail, the stored messages are never removed, reordered or edited:
    the table afterwards is the old table, row for row, followed by the new
    rows, and an old row differs at most in [read_at], which was null and
    is now a time. *)
Theorem messages_only_grow (schedule : list nat) (calls : list Call) (w : World) :
  extends (messages (store w))
          (messages (store (concurrently schedule (map program calls) w))).
Proof.
  apply (concurrently_keeps guarded
           (fun w' => extends (messages (store w)) (messages (store w')))).
  - intros R req w0 G H. eapply extends_trans; [exact H |].
    apply perform_extends. exact G.
  - apply Forall_map. apply Forall_forall. intros c _. apply guarded_program.
  - apply extends_refl.
Qed.

(* ================================================================= *)
(** ** The rating form *)

Lemma yields_run {A} (Q : A -> Prop) (p : Async A) (w : World) (a : A) (w' : World) :
  yields Q p -> run p w = (Resolved a, w') -> Q a.
Proof.
  intro H. revert w. induction H as [a0 Ha | e | R req k Hk IH]; intros w E; simpl in E.
  - inversion E. subst. exact Ha.
  - discriminate.
  - destruct (perform req w) as [r w1]. eapply IH. exact E.
Qed.

Lemma yields_any {A} (p : Async A) : yields (fun _ => True) p.
Proof. induction p; constructor; auto. Qed.

Lemma yields_bind {A B} (Q1 : A -> Prop) (Q2 : B -> Prop) (p : Async A)
    (f : A -> Async B) :
  yields Q1 p -> (forall a, Q1 a -> yields Q2 (f a)) -> yields Q2 (bind p f).
Proof.
  intros Hp Hf. induction Hp as [a Ha | e | R req k Hk IH]; simpl.
  - apply Hf. exact Ha.
  - constructor.
  - constructor. exact IH.
Qed.

Lemma yields_try_catch {A} (Q : A -> Prop) (p : Async A) (h : Error -> Async A) :
  yields Q p -> (forall e, yields Q (h e)) -> yields Q (try_catch p h).
Proof.
  intros Hp Hh. induction Hp as [a Ha | e | R req k Hk IH]; simpl.
  - constructor. exact Ha.
  - apply Hh.
  - constructor. exact IH.
Qed.

(** A handler that catches its errors never rejects. *)
Lemma run_caught {A B} (p : Async A) (h : Error -> A) (g : A -> B) (w : World) :
  exists b w',
    run (let* a := try_catch p (fun e => Return (h e)) in Return (g a)) w
    = (Resolved b, w').
Proof.
  rewrite run_bind, run_try_catch.
  destruct (run p w) as [[a | e] w']; simpl; eauto.
Qed.

Lemma perform_quiet_ratings (R : Type) (req : Request R) (w : World) :
  quiet req -> ratings (store (snd (perform req w))) = ratings (store w).
Proof.
  intros [_ Q]. unfold perform.
  destruct req; try contradiction;
    try (destruct (next_fault w); reflexivity); reflexivity.
Qed.

Lemma run_quiet_ratings {A} (p : Async A) (w : World) :
  issues quiet p -> ratings (store (snd (run p w))) = ratings (store w).
Proof.
  intro H.
  apply (run_keeps quiet (fun w' => ratings (store w') = ratings (store w))); auto.
  intros R req w0 Q E. rewrite <- E. apply perform_quiet_ratings. exact Q.
Qed.

Lemma yields_handleSend (b : string) (s : Screen) :
  yields (fun s' => ratingScore s' = ratingScore s) (handleSend b s).
Proof.
  unfold handleSend. destruct (_ || _); [constructor; reflexivity |].
  apply yields_bind with (Q1 := fun s' => ratingScore s' = ratingScore s);
    [| intros a E; constructor; exact E].
  apply yields_try_catch; [| intro; constructor; reflexivity].
  assert (S : forall text,
             yields (fun s' => ratingScore s' = ratingScore s)
               (let* _ := send b (user (chat (setInputText "" (setSending true s)))) text
                in Return (setInputText "" (setSending true s)))).
  { intro text. eapply yields_bind; [apply yields_any |].
    intros; constructor; reflexivity. }
  destruct (_ && _); [| apply S].
  eapply yields_bind; [apply yields_any |].
  intros [] _; [constructor; reflexivity | apply S].
Qed.

Lemma in_stars (i : nat) (star : Z) :
  nth_error stars i = Some star -> (1 <= star <= 5)%Z.
Proof.
  intro H. apply nth_error_In in H. simpl in H.
  repeat (destruct H as [H | H]; [subst star; lia |]). contradiction.
Qed.

Ltac nothing_rated H :=
  rewrite ?app_nil_r;
  split; [reflexivity | split; [exact H | split; [reflexivity | constructor]]].

(** One event on the screen: the handler resolves, the score of the form
    stays none or a star, and at most one rating is stored, with a score of
    one to five. *)
Lemma handle_rates_in_range (b : string) (e : ScreenEvent) (s : Screen) (w : World) :
  star_or_none (ratingScore s) ->
  exists s' w' added,
    run (handle b e s) w = (Resolved s', w')
    /\ star_or_none (ratingScore s')
    /\ ratings (store w') = (ratings (store w) ++ added)%list
    /\ Forall in_range added.
Proof.
  intro H. destruct e; cbn [handle].
  - exists (setInputText text s), w, []. nothing_rated H.
  - assert (N : exists s' w', run (handleSend b s) w = (Resolved s', w')).
    { unfold handleSend. destruct (_ || _); [simpl; eauto |]. apply run_caught. }
    destruct N as (s' & w' & E). exists s', w', [].
    split; [exact E |]. split; [| split; [| constructor]].
    + rewrite (yields_run _ _ _ _ _ (yields_handleSend b s) E). exact H.
    + rewrite app_nil_r. change w' with (snd (Resolved s', w')). rewrite <- E.
      apply run_quiet_ratings. apply quiet_handleSend.
  - destruct (handleHandoffAction_requests b (chat s) w) as (c & w' & E & _).
    rewrite run_bind, E. exists (setChat c s), w', [].
    split; [reflexivity |]. split; [exact H |]. split; [| constructor].
    rewrite app_nil_r. change w' with (snd (Resolved c, w')). rewrite <- E.
    apply run_quiet_ratings. apply quiet_handleHandoffAction.
  - destruct (nth_error stars i) as [star |] eqn:N.
    + apply in_stars in N.
      assert (H' : star_or_none (ratingScore (setRatingScore star s)))
        by (unfold star_or_none; simpl; lia).
      exists (setRatingScore star s), w, []. nothing_rated H'.
    + exists s, w, []. nothing_rated H.
  - exists (setRatingComment text s), w, []. nothing_rated H.
  - unfold handleSubmitRating.
    destruct (user (chat s)) as [userId |];
      [| exists s, w, []; nothing_rated H].
    destruct (otherUserId s) as [other |];
      [| exists s, w, []; nothing_rated H].
    destruct ((other =? "") || (ratingScore s =? 0)%Z) eqn:G;
      [exists s, w, []; nothing_rated H |].
    apply orb_false_iff in G. destruct G as [_ G]. apply Z.eqb_neq in G.
    rewrite run_bind, run_try_catch, run_bind.
    unfold submitRating. cbn [run]. unfold perform.
    cbn [ratingScore setRatingSubmitting].
    destruct (next_fault w); simpl.
    + eexists _, _, []. nothing_rated H.
    + eexists _, _, [_]. split; [reflexivity |]. split; [exact H |].
      split; [reflexivity |]. constructor; [| constructor].
      unfold in_range, star_or_none in *. simpl. lia.
Qed.

(** Through the chat screen no rating outside one to five is stored.
    Starting with a form that holds no score or a star, whatever the user
    types and presses, in whatever order, and whichever requests fail, no
    handler rejects, and every rating row stored on the way has a score
    from 1 to 5. *)
Theorem ratings_from_the_form_are_in_range
    (bookingRequestId : string) (events : list ScreenEvent) (s : Screen) (w : World) :
  star_or_none (ratingScore s) ->
  exists s' w' added,
    session bookingRequestId events s w = (Resolved s', w')
    /\ ratings (store w') = (ratings (store w) ++ added)%list
    /\ Forall in_range added.
Proof.
  revert s w. induction events as [| e rest IH]; intros s w H.
  - exists s, w, []. rewrite app_nil_r. split; [reflexivity |]. split; [reflexivity | constructor].
  - destruct (handle_rates_in_range bookingRequestId e s w H)
      as (s1 & w1 & added1 & E1 & H1 & R1 & F1).
    destruct (IH s1 w1 H1) as (s2 & w2 & added2 & E2 & R2 & F2).
    exists s2, w2, (added1 ++ added2)%list.
    cbn [session]. rewrite E1. split; [exact E2 |]. split.
    + rewrite R2, R1. now rewrite app_assoc.
    + apply Forall_app. auto.
Qed.

(** The form of the sender of [B1] after delivery: a press beside the
    stars and a submit without a score store nothing; the third star, a
    comment and a submit store one rating of 3. *)
Lemma ratings_from_the_form_are_in_range_witness :
  let w := Sample.world (Sample.tables (Some delivered) None []) in
  let events := [PressStar 5; PressSubmitRating; PressStar 2;
                 ChangeComment " on time "; PressSubmitRating] in
  exists s' w' added,
    session "B1" events (sender_composer delivered "") w = (Resolved s', w')
    /\ ratings (store w') = added
    /\ Forall in_range added
    /\ map rt_score added = [3%Z]
    /\ map rt_comment added = [Some "on time"].
Proof.
  intros w events.
  destruct (ratings_from_the_form_are_in_range "B1" events (sender_composer delivered "") w)
    as (s' & w' & added & E & R & F).
  - unfold star_or_none. simpl. lia.
  - exists s', w', added. split; [exact E |]. split; [exact R |]. split; [exact F |].
    simpl in R. rewrite <- R.
    assert (W : w' = snd (session "B1" events (sender_composer delivered "") w))
      by (rewrite E; reflexivity).
    rewrite W. split; reflexivity.
Defined.

(** [status_follows_handoff_step] with three calls in flight on booking
    [B1]: the traveler's handover, the sender's code and the sender's
    button, their requests taking turns. *)
Lemma status_follows_handoff_step_witness :
  let w := Sample.world (Sample.tables (Some sender_confirmed) None []) in
  let calls := [call_confirmHandoff "B1" "T" handed_over;
                call_validateDeliveryCode "B1" "AAAAAAAAAA" "S";
                call_handle "B1" PressHandoff (sender_composer none "")] in
  Forall lockstep
    (booking_requests (store (concurrently [0; 1; 2; 0; 1; 2; 0; 0] (map program calls) w))).
Proof.
  intros w calls. apply status_follows_handoff_step.
  repeat constructor.
Defined.

(* ================================================================= *)
(** ** Sending from the chat screen *)

Lemma run_send (b u content : string) (w : World) :
  next_fault w = false ->
  1 <= JsString.length (JsString.trim content) <= 2000 ->
  run (send b (Some u) content) w
  = (Resolved tt,
     with_store w (with_messages (store w)
       (messages (store w)
        ++ [chat_message (store w) (clock w) b u (JsString.trim content)])%list)).
Proof.
  intros F L. unfold send. rewrite run_try_catch, run_bind. unfold sendMessage.
  destruct ((JsString.trim content =? "")
            || (2000 <? JsString.length (JsString.trim content))%nat) eqn:E.
  - apply length_check in E. lia.
  - cbn [run]. unfold perform. rewrite F. reflexivity.
Qed.

Lemma run_send_too_long (b u content : string) (w : World) :
  2000 < JsString.length (JsString.trim content) ->
  run (send b (Some u) content) w = (Rejected length_error, w).
Proof.
  intro L. unfold send. rewrite run_try_catch, run_bind. unfold sendMessage.
  destruct ((JsString.trim content =? "")
            || (2000 <? JsString.length (JsString.trim content))%nat) eqn:E.
  - reflexivity.
  - assert (H : (JsString.trim content =? "")
                || (2000 <? JsString.length (JsString.trim content))%nat = true)
      by (apply length_check; right; exact L).
    congruence.
Qed.

(** The sender types the delivery code.  The sender's screen holds
    [handed_over], the typed text is not blank and passes the code check,
    and the backend answers: the handler resolves, the booking is
    delivered, the screen holds [delivered] and shows the rating form with
    an empty composer, and the one new row of [messages] is the delivered
    notice: the code itself is not posted in the chat. *)
Theorem handleSend_consumes_code (bookingRequestId userId : string) (s : Screen)
    (w : World) :
  user (chat s) = Some userId ->
  isSender (chat s) = true ->
  handoffStep (chat s) = handed_over ->
  sending s = false ->
  JsString.trim (inputText s) <> "" ->
  code_accepted (store w) bookingRequestId (JsString.trim (inputText s)) ->
  reliable w ->
  exists s' w',
    run (handleSend bookingRequestId s) w = (Resolved s', w')
    /\ handoffStep (chat s') = delivered
    /\ showRating s' = true
    /\ inputText s' = ""
    /\ sending s' = false
    /\ messages (store w')
       = (messages (store w)
          ++ [system_message (store w) (clock w) bookingRequestId userId
                "[HANDOFF] delivered"])%list
    /\ exists b, bookings_with_id bookingRequestId (store w') = [b]
                 /\ br_handoff_step b = Some delivered
                 /\ br_status b = status_delivered.
Proof.
  intros U S H B N A R. unfold handleSend.
  destruct (String.eqb_spec (JsString.trim (inputText s)) "") as [E | _];
    [contradiction |].
  rewrite B. cbn [orb]. rewrite run_bind, run_try_catch.
  cbn [chat setInputText setSending handoffStep isSender user].
  rewrite H, S, U. cbn [HandoffStep_eqb andb]. rewrite run_bind.
  destruct (run_validateDeliveryCode bookingRequestId
              (JsString.trim (inputText s)) userId w) as [_ Yes].
  destruct (Yes A R) as (w' & Hrun & _ & Hb & Hm & _).
  rewrite Hrun. cbn [run].
  eexists _, w'. split; [reflexivity |]. cbn. repeat split; auto.
Qed.

(** An ordinary message from the screen.  For a user whose typed text has
    1 to 2000 characters once trimmed, on a backend that answers: unless
    the user is the sender, the screen holds [handed_over] and the text
    passes the code check, the handler resolves, stores the trimmed text as
    one unread chat message of the user, changes no booking and empties the
    composer.  So a sender's wrong code is posted in the chat. *)
Theorem handleSend_posts_text (bookingRequestId userId : string) (s : Screen)
    (w : World) :
  user (chat s) = Some userId ->
  sending s = false ->
  1 <= JsString.length (JsString.trim (inputText s)) <= 2000 ->
  reliable w ->
  (isSender (chat s) = true -> handoffStep (chat s) = handed_over ->
   ~ code_accepted (store w) bookingRequestId (JsString.trim (inputText s))) ->
  exists s' w',
    run (handleSend bookingRequestId s) w = (Resolved s', w')
    /\ messages (store w')
       = (messages (store w)
          ++ [chat_message (store w) (clock w) bookingRequestId userId
                (JsString.trim (inputText s))])%list
    /\ booking_requests (store w') = booking_requests (store w)
    /\ chat s' = chat s
    /\ inputText s' = ""
    /\ sending s' = false.
Proof.
  intros U B L R G. unfold handleSend.
  destruct (String.eqb_spec (JsString.trim (inputText s)) "") as [E | _];
    [rewrite E in L; change (JsString.length "") with 0 in L; lia |].
  rewrite B. cbn [orb]. rewrite run_bind, run_try_catch.
  cbn [chat setInputText setSending handoffStep isSender user]. rewrite U.
  assert (T : 1 <= JsString.length (JsString.trim (JsString.trim (inputText s))) <= 2000)
    by (rewrite trim_trim; exact L).
  destruct (HandoffStep_eqb (handoffStep (chat s)) handed_over && isSender (chat s)) eqn:C.
  - apply andb_true_iff in C. destruct C as [C1 C2].
    assert (H : handoffStep (chat s) = handed_over)
      by (destruct (handoffStep (chat s)); auto; discriminate).
    rewrite run_bind.
    destruct (run_validateDeliveryCode bookingRequestId
                (JsString.trim (inputText s)) userId w) as [No _].
    rewrite (No (G C2 H)). cbn [run]. rewrite run_bind.
    rewrite run_send
      by (try exact T; apply reliable_next_fault, reliable_answered; exact R).
    cbn [run]. eexists _, _. split; [reflexivity |].
    cbn. rewrite trim_trim. repeat split; auto.
  - rewrite run_bind.
    rewrite run_send by (try exact T; apply reliable_next_fault; exact R).
    cbn [run]. eexists _, _. split; [reflexivity |].
    cbn. rewrite trim_trim. repeat split; auto.
Qed.




(** The sender of the handed-over [B1] types the code in lower case with
    blanks around. *)
Lemma handleSend_consumes_code_witness :
  let w := Sample.world (Sample.tables (Some handed_over) (Some "ABCDEFGHJK") []) in
  exists s' w',
    run (handleSend "B1" (sender_composer handed_over "  abcdefghjk ")) w
    = (Resolved s', w')
    /\ handoffStep (chat s') = delivered
    /\ showRating s' = true
    /\ map msg_content (messages (store w')) = ["[HANDOFF] delivered"].
Proof.
  intro w.
  destruct (handleSend_consumes_code "B1" "S"
              (sender_composer handed_over "  abcdefghjk ") w)
    as (s' & w' & E & H1 & H2 & _ & _ & M & _); try reflexivity.
  - discriminate.
  - exists (Sample.B1 (Some handed_over) (Some "ABCDEFGHJK")), "ABCDEFGHJK".
    evaluated.
  - exists s', w'. rewrite M. auto.
Defined.

(** The sender of the handed-over [B1] mistypes the code: it is posted. *)
Lemma handleSend_posts_text_witness :
  let w := Sample.world (Sample.tables (Some handed_over) (Some "ABCDEFGHJK") []) in
  exists s' w',
    run (handleSend "B1" (sender_composer handed_over " ABCDEFGHJX ")) w
    = (Resolved s', w')
    /\ map msg_content (messages (store w')) = ["ABCDEFGHJX"]
    /\ map msg_is_system (messages (store w')) = [false]
    /\ stored_steps "B1" (store w') = [Some handed_over].
Proof.
  intro w.
  destruct (handleSend_posts_text "B1" "S"
              (sender_composer handed_over " ABCDEFGHJX ") w)
    as (s' & w' & E & M & B & _); try reflexivity.
  - vm_compute. lia.
  - intros _ _ (b & stored & L & _ & C & _ & EQ).
    vm_compute in L. inversion L; subst b. simpl in C. inversion C; subst stored.
    vm_compute in EQ. discriminate.
  - exists s', w'. unfold stored_steps, bookings_with_id. rewrite M, B. auto.
Defined.


(* ================================================================= *)
(** ** Drawing system notices *)

Lemma prefix_handoff (content : string) :
  content = "[HANDOFF] sender_confirmed"
  \/ content = "[HANDOFF] handed_over"
  \/ content = "[HANDOFF] delivered" ->
  String.prefix "[HANDOFF]" content = true.
Proof. intros [E | [E | E]]; subst; reflexivity. Qed.

(** The [is_system] flag of a message plays no part in how it is drawn:
    for every translation, a message is drawn as a system notice exactly as
    its content alone says, so a chat message whose text is one of the
    three handoff codes is drawn as that notice. *)
Theorem systemText_ignores_is_system (t : string -> string) (item : Message) :
  systemText t item = parseSystemMessage t (msg_content item).
Proof.
  unfold systemText.
  destruct (msg_is_system item || String.prefix "[HANDOFF]" (msg_content item)) eqn:G;
    [reflexivity |].
  apply orb_false_iff in G. destruct G as [_ G].
  unfold parseSystemMessage.
  destruct (String.eqb_spec (msg_content item) "[HANDOFF] sender_confirmed") as [E | _];
    [rewrite prefix_handoff in G by auto; discriminate |].
  destruct (String.eqb_spec (msg_content item) "[HANDOFF] handed_over") as [E | _];
    [rewrite prefix_handoff in G by auto; discriminate |].
  destruct (String.eqb_spec (msg_content item) "[HANDOFF] delivered") as [E | _];
    [rewrite prefix_handoff in G by auto; discriminate |].
  reflexivity.
Qed.

(** Every notice the handoff writes is drawn.  On a backend that accepts
    its writes, each row [confirmHandoff] appends for a step is flagged as
    a system message, and for every translation it is drawn as the notice
    of that step. *)
Theorem handoff_notices_are_drawn (t : string -> string)
    (bookingRequestId senderId : string) (step : HandoffStep) (w : World) :
  reliable w ->
  exists code w',
    run (confirmHandoff bookingRequestId senderId step) w = (Resolved code, w')
    /\ forall m,
         In m (skipn (List.length (messages (store w))) (messages (store w'))) ->
         msg_is_system m = true
         /\ exists key, notice_key step = Some key
                        /\ systemText t m = Some (t key).
Proof.
  intro R.
  destruct (run_confirmHandoff bookingRequestId senderId step R)
    as (w' & Hrun & _ & Hm & _).
  exists (issued_code step w), w'. split; [exact Hrun |].
  intros m Hin. rewrite Hm in Hin.
  rewrite skipn_app, skipn_all, Nat.sub_diag in Hin. simpl in Hin.
  unfold announced in Hin.
  destruct step; simpl in Hin; [contradiction | | |];
    destruct Hin as [E | []]; subst m;
    (split; [reflexivity | eexists; split; reflexivity]).
Qed.

(** The notice of the handover of [B1]. *)
Lemma handoff_notices_are_drawn_witness :
  let w := Sample.world (Sample.tables (Some sender_confirmed) None []) in
  exists code w',
    run (confirmHandoff "B1" "T" handed_over) w = (Resolved code, w')
    /\ map (systemText (fun key => key)) (messages (store w'))
       = [Some "handoff.systemMessages.handedOver"].
Proof.
  intro w.
  destruct (handoff_notices_are_drawn (fun key => key) "B1" "T" handed_over w eq_refl)
    as (code & w' & E & _).
  exists code, w'. split; [exact E |].
  assert (W : w' = snd (run (confirmHandoff "B1" "T" handed_over) w))
    by (rewrite E; reflexivity).
  rewrite W. reflexivity.
Defined.

(* ================================================================= *)
(** ** The live view of a conversation *)

(** The INSERT subscription never shows a message twice.  A view without
    duplicate identities stays so; an event for a message the view already
    holds, or the same event again, changes nothing; and a message that is
    new to the view goes to its end. *)
Theorem onInsert_shows_once (fetched : option MessageWithSender)
    (prev : list MessageWithSender) :
  NoDup (map (fun m => msg_id (row m)) prev) ->
  NoDup (map (fun m => msg_id (row m)) (onInsert fetched prev))
  /\ onInsert fetched (onInsert fetched prev) = onInsert fetched prev
  /\ (forall d, fetched = Some d ->
        (In (msg_id (row d)) (map (fun m => msg_id (row m)) prev) ->
         onInsert fetched prev = prev)
        /\ (~ In (msg_id (row d)) (map (fun m => msg_id (row m)) prev) ->
            onInsert fetched prev = (prev ++ [d])%list)).
Proof.
  intro ND. destruct fetched as [d |]; [| simpl; repeat split; auto; discriminate].
  assert (X : existsb (fun m => (msg_id (row m) =? msg_id (row d))%nat) prev = true
              <-> In (msg_id (row d)) (map (fun m => msg_id (row m)) prev)).
  { rewrite existsb_exists, in_map_iff. split.
    - intros (m & Hin & E). apply Nat.eqb_eq in E. exists m. auto.
    - intros (m & E & Hin). exists m. split; [exact Hin |]. now apply Nat.eqb_eq. }
  unfold onInsert.
  destruct (existsb (fun m => (msg_id (row m) =? msg_id (row d))%nat) prev) eqn:Ex.
  - rewrite Ex. split; [exact ND |]. split; [reflexivity |].
    intros d' E. inversion E; subst d'. split; [reflexivity |].
    intro N. exfalso. apply N. apply X. reflexivity.
  - assert (N : ~ In (msg_id (row d)) (map (fun m => msg_id (row m)) prev))
      by (intro H; apply X in H; discriminate).
    split; [| split].
    + rewrite map_app. simpl. apply NoDup_app; auto.
      * repeat constructor. intros [].
      * intros x Hx [E | []]. subst x. contradiction.
    + rewrite existsb_app. simpl. rewrite Nat.eqb_refl, orb_true_r. reflexivity.
    + intros d' E. inversion E; subst d'. split; [intro; contradiction | reflexivity].
Qed.

(** A view of two messages receives the event of the second again and the
    event of a third. *)
Lemma onInsert_shows_once_witness :
  let shown (m : Message) := {| row := m; sender_profile := None |} in
  let view := [shown (Inbox.said 0 "B1" "S" 10); shown (Inbox.said 1 "B1" "T" 20)] in
  onInsert (Some (shown (Inbox.said 1 "B1" "T" 20))) view = view
  /\ map (fun m => msg_id (row m))
       (onInsert (Some (shown (Inbox.said 2 "B1" "S" 30))) view) = [0; 1; 2].
Proof.
  intros shown view.
  assert (ND : NoDup (map (fun m => msg_id (row m)) view)).
  { repeat constructor; simpl; intuition discriminate. }
  split.
  - destruct (onInsert_shows_once (Some (shown (Inbox.said 1 "B1" "T" 20))) view ND)
      as (_ & _ & H).
    apply (H _ eq_refl). simpl. auto.
  - destruct (onInsert_shows_once (Some (shown (Inbox.said 2 "B1" "S" 30))) view ND)
      as (_ & _ & H).
    rewrite (proj2 (H _ eq_refl)); [reflexivity |].
    simpl. intuition discriminate.
Defined.

(** The UPDATE subscription brings the read receipt of a message up to
    date and touches nothing else.  When the event carries the stored row
    of a message, which differs from the shown one at most by having been
    read since, the view afterwards shows the stored row for that message
    and every other message as before, each with its joined profile. *)
Theorem onUpdate_catches_up (payload_new : Message) (prev : list MessageWithSender) :
  (forall m, In m prev -> msg_id (row m) = msg_id payload_new ->
             read_later (row m) payload_new) ->
  map row (onUpdate payload_new prev)
  = map (fun r => if (msg_id r =? msg_id payload_new)%nat then payload_new else r)
        (map row prev)
  /\ map sender_profile (onUpdate payload_new prev) = map sender_profile prev.
Proof.
  intro H. unfold onUpdate. rewrite !map_map. split.
  - apply map_ext_in. intros m Hin.
    destruct (Nat.eqb_spec (msg_id (row m)) (msg_id payload_new)) as [E | N];
      [| reflexivity].
    destruct (H m Hin E) as [Same | (Unread & t & Read)].
    + subst payload_new. unfold with_read_at. simpl. destruct (row m); reflexivity.
    + subst payload_new. reflexivity.
  - apply map_ext. intro m.
    destruct (msg_id (row m) =? msg_id payload_new)%nat; reflexivity.
Qed.

(** The traveler's hello is read at time 7. *)
Lemma onUpdate_catches_up_witness :
  let shown (m : Message) := {| row := m; sender_profile := None |} in
  map row (onUpdate (set_read_at 7 (Sample.hello 5)) [shown (Sample.hello 5)])
  = [set_read_at 7 (Sample.hello 5)].
Proof.
  intro shown.
  destruct (onUpdate_catches_up (set_read_at 7 (Sample.hello 5)) [shown (Sample.hello 5)])
    as [H _].
  - intros m [E | []] _. subst m. right. split; [reflexivity | exists 7%Z; reflexivity].
  - rewrite H. reflexivity.
Defined.

(* ================================================================= *)
(** ** The delivery code from issue to use *)

Lemma charAt_not_empty (s : string) (i : Z) : 1 <= String.length (charAt s i).
Proof.
  unfold charAt. destruct (i <? 0)%Z; [simpl; lia |].
  destruct (String.get (Z.to_nat i) s); simpl; lia.
Qed.

Lemma length_append (s t : string) :
  String.length (s ++ t) = String.length s + String.length t.
Proof. induction s as [| c s IH]; simpl; auto. Qed.

Lemma spell_length (rs : list Q) (code : string) :
  String.length code + List.length rs <= String.length (spell rs code).
Proof.
  revert code. induction rs as [| r rs IH]; intro code; simpl; [lia |].
  fold (spell rs (code ++ charAt chars (randomIndex r))).
  specialize (IH (code ++ charAt chars (randomIndex r))%string).
  rewrite length_append in IH. pose proof (charAt_not_empty chars (randomIndex r)). lia.
Qed.

Lemma issued_code_not_empty (w : World) : spell (draws 10 (random w)) "" <> "".
Proof.
  intro E. pose proof (spell_length (draws 10 (random w)) "") as H.
  rewrite E, length_draws in H. simpl in H. lia.
Qed.

Lemma run_fetchDeliveryCode (bookingRequestId : string) (w : World) :
  run (fetchDeliveryCode bookingRequestId) w
  = (Resolved
       (if next_fault w then None
        else match bookings_with_id bookingRequestId (store w) with
             | [b] => JsString.or (br_delivery_code b) None
             | _ => None
             end),
     answered w).
Proof.
  unfold fetchDeliveryCode. cbn [run]. rewrite perform_select_booking.
  destruct (next_fault w); [reflexivity |].
  destruct (bookings_with_id bookingRequestId (store w)) as [| b [| b' l]]; reflexivity.
Qed.

(** [fetchDeliveryCode] never rejects and never writes.  It gives null
    when the lookup fails, when no booking has the identity, and when the
    stored code is null or empty; otherwise it gives the stored code. *)
Theorem fetchDeliveryCode_never_raises (bookingRequestId : string) (w : World) :
  exists code w',
    run (fetchDeliveryCode bookingRequestId) w = (Resolved code, w')
    /\ store w' = store w
    /\ (next_fault w = true -> code = None)
    /\ (bookings_with_id bookingRequestId (store w) = [] -> code = None)
    /\ (forall b, bookings_with_id bookingRequestId (store w) = [b] ->
          br_delivery_code b = None \/ br_delivery_code b = Some "" -> code = None)
    /\ (forall b stored, next_fault w = false ->
          bookings_with_id bookingRequestId (store w) = [b] ->
          br_delivery_code b = Some stored -> stored <> "" -> code = Some stored).
Proof.
  rewrite run_fetchDeliveryCode. eexists _, _. split; [reflexivity |].
  split; [reflexivity |]. split; [| split; [| split]].
  - intro F. now rewrite F.
  - intro E. rewrite E. now destruct (next_fault w).
  - intros b E [N | N]; rewrite E, N; now destruct (next_fault w).
  - intros b stored F E C NE. rewrite F, E, C. unfold JsString.or, JsString.truthy.
    destruct (String.eqb_spec stored ""); [contradiction | reflexivity].
Qed.

(** The code of [B1], a booking that does not exist, and a lookup that
    fails. *)
Lemma fetchDeliveryCode_never_raises_witness :
  let w := Sample.world (Sample.tables (Some handed_over) (Some "ABCDEFGHJK") []) in
  let down := Sample.faulty [true] (Sample.tables (Some handed_over) (Some "ABCDEFGHJK") []) in
  (exists w', run (fetchDeliveryCode "B1") w = (Resolved (Some "ABCDEFGHJK"), w'))
  /\ (exists w', run (fetchDeliveryCode "B9") w = (Resolved None, w'))
  /\ (exists w', run (fetchDeliveryCode "B1") down = (Resolved None, w')).
Proof.
  intros w down. split; [| split].
  - destruct (fetchDeliveryCode_never_raises "B1" w)
      as (code & w' & E & _ & _ & _ & _ & H).
    rewrite (H _ "ABCDEFGHJK" eq_refl eq_refl eq_refl) in E by discriminate.
    exists w'. exact E.
  - destruct (fetchDeliveryCode_never_raises "B9" w)
      as (code & w' & E & _ & _ & H & _).
    rewrite (H eq_refl) in E. exists w'. exact E.
  - destruct (fetchDeliveryCode_never_raises "B1" down)
      as (code & w' & E & _ & H & _).
    rewrite (H eq_refl) in E. exists w'. exact E.
Defined.

(** The delivery code, from issue to use.  For a booking that exists, on a
    backend that answers: the code [confirmHandoff] returns for the
    handover is the code [fetchDeliveryCode] then shows; a text that equals
    it once both are uppercased and trimmed is accepted by
    [validateDeliveryCode], which delivers the booking; and the same text
    submitted again is refused without a write. *)
Theorem issued_code_is_accepted_once
    (bookingRequestId travelerId senderId typed : string) (w : World) :
  reliable w ->
  (exists b, bookings_with_id bookingRequestId (store w) = [b]) ->
  exists code w1,
    run (confirmHandoff bookingRequestId travelerId handed_over) w
    = (Resolved (Some code), w1)
    /\ fst (run (fetchDeliveryCode bookingRequestId) w1) = Resolved (Some code)
    /\ (JsString.trim (JsString.toUpperCase typed)
        = JsString.trim (JsString.toUpperCase code) ->
        exists w2 w3,
          run (validateDeliveryCode bookingRequestId typed senderId) w1
          = (Resolved true, w2)
          /\ stored_steps bookingRequestId (store w2) = [Some delivered]
          /\ run (validateDeliveryCode bookingRequestId typed senderId) w2
             = (Resolved false, w3)
          /\ store w3 = store w2).
Proof.
  intros R (b & B).
  destruct (run_confirmHandoff bookingRequestId travelerId handed_over R)
    as (w1 & Hrun & Hb & _ & _ & _ & _ & _ & _ & R1).
  cbn [issued_code] in Hrun, Hb.
  set (code := spell (draws 10 (random w)) "") in *.
  assert (B1 : bookings_with_id bookingRequestId (store w1)
               = [apply_booking_patch (handoff_patch handed_over (Some code)) b]).
  { unfold bookings_with_id. rewrite Hb.
    rewrite (filter_map_if (fun x => br_id x =? bookingRequestId)
               (apply_booking_patch (handoff_patch handed_over (Some code))))
      by reflexivity.
    unfold bookings_with_id in B. now rewrite B. }
  assert (NE : code <> "") by apply issued_code_not_empty.
  exists code, w1. split; [exact Hrun |]. split.
  - rewrite run_fetchDeliveryCode, (reliable_next_fault R1), B1. simpl.
    unfold JsString.or, JsString.truthy.
    destruct (String.eqb_spec code ""); [contradiction | reflexivity].
  - intro EQ.
    destruct (run_validateDeliveryCode bookingRequestId typed senderId w1) as [_ Yes].
    destruct Yes as (w2 & Hv & _ & (b2 & L2 & S2 & _) & _ & _ & _ & _ & R2).
    + exists (apply_booking_patch (handoff_patch handed_over (Some code)) b), code.
      repeat split; auto.
    + exact R1.
    + destruct (run_validateDeliveryCode bookingRequestId typed senderId w2) as [No _].
      exists w2, (answered w2). split; [exact Hv |]. split.
      * unfold stored_steps. rewrite L2. simpl. now rewrite S2.
      * split; [| reflexivity]. apply No. apply delivered_not_accepted.
        exists b2. auto.
Qed.

(** The traveler hands [B1] over with the random values 0, 1/2, 31/32
    repeated, and the sender types the code in lower case. *)
Lemma issued_code_is_accepted_once_witness :
  let rs := [0; 1 # 2; 31 # 32; 0; 1 # 2; 31 # 32; 0; 1 # 2; 31 # 32; 0]%Q in
  let w := with_random (Sample.world (Sample.tables (Some sender_confirmed) None [])) rs in
  exists w1 w2,
    run (confirmHandoff "B1" "T" handed_over) w = (Resolved (Some "AS9AS9AS9A"), w1)
    /\ run (validateDeliveryCode "B1" " as9as9as9a" "S") w1 = (Resolved true, w2)
    /\ stored_steps "B1" (store w2) = [Some delivered].
Proof.
  intros rs w.
  destruct (issued_code_is_accepted_once "B1" "T" "S" " as9as9as9a" w eq_refl)
    as (code & w1 & E & _ & H).
  - eexists. reflexivity.
  - assert (C : code = "AS9AS9AS9A").
    { assert (X : fst (run (confirmHandoff "B1" "T" handed_over) w)
                  = Resolved (Some code)) by (rewrite E; reflexivity).
      vm_compute in X. inversion X. reflexivity. }
    subst code. destruct (H ltac:(vm_compute; reflexivity)) as (w2 & w3 & V & S & _).
    exists w1, w2. auto.
Defined.

(* ================================================================= *)
(** ** fetchRatingForBooking *)

Lemma exec_widen {A} (p : Async A) (w : World) : exec (widen p) w = run p w.
Proof.
  revert w. induction p as [a | e | R req k IH]; intro w; simpl; auto.
  destruct (perform req w) as [r w']. apply IH.
Qed.





(* ================================================================= *)
(** ** fetchMessages *)

Lemma exec_fetchMessages (bookingRequestId : string) (w : World) :
  exec (fetchMessages bookingRequestId) w
  = (if next_fault w then Rejected StorageError
     else Resolved (map (joined (store w))
                        (ascending (conversation_messages (store w) bookingRequestId))),
     answered w).
Proof.
  unfold fetchMessages, conversation_messages. cbn [exec answer].
  destruct (next_fault w); [reflexivity |].
  rewrite selects_conversation. reflexivity.
Qed.

Lemma row_joined (st : Store) (l : list Message) : map row (map (joined st) l) = l.
Proof. rewrite map_map. simpl. apply map_id. Qed.

Lemma ascending_sorted (l : list Message) :
  StronglySorted (fun a b => (msg_created_at a <= msg_created_at b)%Z) (ascending l).
Proof.
  assert (S : StronglySorted (not_after compareCreatedAt) (ascending l)).
  { apply sort_sorted; unfold not_after, compareCreatedAt; intros; lia. }
  induction S as [| x l' S IH F]; constructor; auto.
  eapply Forall_impl; [| exact F]. unfold not_after, compareCreatedAt. intros; lia.
Qed.

(** A row that is not older than any row before it stays last. *)
Lemma insert_before_last (x last : Message) (l : list Message) :
  (msg_created_at x <= msg_created_at last)%Z ->
  JsArray.insert compareCreatedAt x (l ++ [last])
  = (JsArray.insert compareCreatedAt x l ++ [last])%list.
Proof.
  intro H. induction l as [| y l IH]; simpl.
  - unfold compareCreatedAt at 1.
    destruct (Z.leb_spec (msg_created_at x - msg_created_at last) 0); [reflexivity | lia].
  - destruct (compareCreatedAt x y <=? 0)%Z; [reflexivity |]. now rewrite IH.
Qed.

Lemma ascending_last (l : list Message) (last : Message) :
  Forall (fun m => (msg_created_at m <= msg_created_at last)%Z) l ->
  ascending (l ++ [last]) = (ascending l ++ [last])%list.
Proof.
  unfold ascending, JsArray.sort. intro H.
  induction H as [| x l Hx Hl IH]; [reflexivity |].
  cbn [app fold_right]. rewrite IH. apply insert_before_last. exact Hx.
Qed.

(** [fetchMessages] gives the conversation in time order.  When the query
    fails the call rejects with the error.  Otherwise it resolves, writes
    nothing, and its rows are the messages of the conversation, each once
    and with the profile of its sender, sorted by [created_at], oldest
    first; a conversation without messages gives the empty list. *)
Theorem fetchMessages_in_time_order (bookingRequestId : string) (w : World) :
  (next_fault w = true ->
   fst (exec (fetchMessages bookingRequestId) w) = Rejected StorageError)
  /\ (next_fault w = false ->
      exists rows w',
        exec (fetchMessages bookingRequestId) w = (Resolved rows, w')
        /\ store w' = store w
        /\ Permutation (map row rows) (conversation_messages (store w) bookingRequestId)
        /\ StronglySorted (fun a b => (msg_created_at a <= msg_created_at b)%Z)
             (map row rows)
        /\ Forall (fun m => m = joined (store w) (row m)) rows
        /\ (conversation_messages (store w) bookingRequestId = [] -> rows = [])).
Proof.
  rewrite exec_fetchMessages. split; intro F; rewrite F; [reflexivity |].
  eexists _, _. split; [reflexivity |]. split; [reflexivity |].
  rewrite row_joined. split; [apply sort_perm |]. split; [apply ascending_sorted |].
  split.
  - apply Forall_map. apply Forall_forall. intros m _. reflexivity.
  - intro E. rewrite E. reflexivity.
Qed.

(** The conversation of [B1] stored newest first is read oldest first. *)
Lemma fetchMessages_in_time_order_witness :
  let st := Sample.tables (Some none) None
              [Inbox.said 0 "B1" "S" 30; Inbox.said 1 "B1" "T" 20;
               Inbox.said 2 "B2" "S" 25; Inbox.said 3 "B1" "S" 10] in
  exists rows w',
    exec (fetchMessages "B1") (Sample.world st) = (Resolved rows, w')
    /\ map (fun m => msg_created_at (row m)) rows = [10; 20; 30]%Z.
Proof.
  intro st.
  destruct (proj2 (fetchMessages_in_time_order "B1" (Sample.world st)) eq_refl)
    as (rows & w' & E & _).
  exists rows, w'. split; [exact E |].
  assert (X : fst (exec (fetchMessages "B1") (Sample.world st)) = Resolved rows)
    by (rewrite E; reflexivity).
  vm_compute in X. inversion X. reflexivity.
Defined.

(** A message just sent is read last.  On a backend that answers, when
    the clock is not behind any message of the conversation, the list
    [fetchMessages] gives after a [sendMessage] is the list it gave
    before, followed by the message sent. *)
Theorem sent_message_is_read_last (bookingRequestId senderId content : string)
    (w : World) :
  reliable w ->
  1 <= JsString.length (JsString.trim content) <= 2000 ->
  Forall (fun m => (msg_created_at m <= clock w)%Z)
         (conversation_messages (store w) bookingRequestId) ->
  exists m w1 before after,
    run (sendMessage bookingRequestId senderId content) w = (Resolved (Some m), w1)
    /\ msg_content m = JsString.trim content
    /\ fst (exec (fetchMessages bookingRequestId) w) = Resolved before
    /\ fst (exec (fetchMessages bookingRequestId) w1) = Resolved after
    /\ after = (before ++ [joined (store w) m])%list.
Proof.
  intros R L Old.
  set (m := chat_message (store w) (clock w) bookingRequestId senderId
              (JsString.trim content)).
  assert (Hrun : run (sendMessage bookingRequestId senderId content) w
                 = (Resolved (Some m),
                    with_store w (with_messages (store w) (messages (store w) ++ [m])%list))).
  { unfold sendMessage.
    destruct ((JsString.trim content =? "")
              || (2000 <? JsString.length (JsString.trim content))%nat) eqn:E.
    - apply length_check in E. lia.
    - cbn [run]. unfold perform. rewrite (reliable_next_fault R). reflexivity. }
  eexists m, _, _, _. split; [exact Hrun |]. split; [reflexivity |].
  rewrite !exec_fetchMessages, (reliable_next_fault R).
  match goal with
  | |- context [next_fault ?w1] =>
      replace (next_fault w1) with false
        by (symmetry; apply reliable_next_fault, reliable_with_store; exact R)
  end.
  split; [reflexivity |]. split; [reflexivity |].
  cbn [store with_store]. unfold conversation_messages at 1.
  cbn [messages with_messages]. rewrite filter_app. cbn [filter].
  change (msg_booking_request_id m) with bookingRequestId.
  rewrite String.eqb_refl. fold (conversation_messages (store w) bookingRequestId).
  rewrite ascending_last by exact Old.
  rewrite map_app. reflexivity.
Qed.

(** The sender answers the traveler's hello of time 5 at time 1000. *)
Lemma sent_message_is_read_last_witness :
  let w := Sample.world (Sample.tables (Some none) None [Sample.hello 5]) in
  exists m w1 after,
    run (sendMessage "B1" "S" " hi ") w = (Resolved (Some m), w1)
    /\ fst (exec (fetchMessages "B1") w1) = Resolved after
    /\ map (fun x => msg_content (row x)) after = ["hello"; "hi"].
Proof.
  intro w.
  destruct (sent_message_is_read_last "B1" "S" " hi " w eq_refl)
    as (m & w1 & before & after & E & C & B & A & H).
  - vm_compute. lia.
  - repeat constructor. simpl. lia.
  - exists m, w1, after. split; [exact E |]. split; [exact A |].
    rewrite H, map_app. simpl. rewrite C.
    assert (X : fst (exec (fetchMessages "B1") w) = Resolved before) by exact B.
    vm_compute in X. inversion X. reflexivity.
Defined.

(* ================================================================= *)
(** ** getUnreadCount *)

Lemma unique_In (x : string) (xs : list string) : In x (unique xs) <-> In x xs.
Proof.
  induction xs as [| y xs IH]; simpl; [tauto |].
  rewrite filter_In, IH. split.
  - intros [E | [H _]]; auto.
  - intros [E | H]; auto.
    destruct (String.eqb_spec x y) as [E | N]; [left; auto | right].
    split; [exact H | reflexivity].
Qed.

Lemma find_filter {T} (p : T -> bool) (l : list T) :
  find p l = hd_error (filter p l).
Proof. induction l as [| x l IH]; simpl; auto. destruct (p x); auto. Qed.

Lemma owners_rev (l acc : list Announcement) (m : list (string * string)) :
  fold_left (fun m a => (an_id a, an_user_id a) :: m) l m
  = (rev (map (fun a => (an_id a, an_user_id a)) l) ++ m)%list.
Proof.
  revert m. induction l as [| a l IH]; intro m; simpl; auto.
  rewrite IH, <- app_assoc. reflexivity.
Qed.

(** The owner map knows the owner of an announcement that is among the
    rows found exactly once. *)
Lemma owner_of_single (found : list Announcement) (key : string) (a : Announcement) :
  filter (fun x => an_id x =? key) found = [a] ->
  owner (owners (Some found)) key = Some (an_user_id a).
Proof.
  intro H. unfold owner, owners. rewrite (owners_rev found found), app_nil_r.
  rewrite find_filter, filter_rev.
  assert (F : filter (fun kv : string * string => fst kv =? key)
                (map (fun x => (an_id x, an_user_id x)) found)
              = map (fun x => (an_id x, an_user_id x))
                    (filter (fun x => an_id x =? key) found)).
  { clear H. induction found as [| x l IH]; simpl; auto.
    destruct (an_id x =? key); simpl; now rewrite IH. }
  rewrite F, H. reflexivity.
Qed.

Lemma filter_within {T} (p q : T -> bool) (l : list T) :
  (forall x, q x = true -> p x = true) ->
  filter q (filter p l) = filter q l.
Proof.
  intro H. induction l as [| x l IH]; simpl; auto.
  destruct (p x) eqn:P; simpl.
  - now rewrite IH.
  - destruct (q x) eqn:Q; [rewrite (H x Q) in P; discriminate | exact IH].
Qed.

Lemma existsb_eqb (x : string) (xs : list string) :
  existsb (String.eqb x) xs = true <-> In x xs.
Proof.
  rewrite existsb_exists. split.
  - intros (y & H & E). apply String.eqb_eq in E. now subst y.
  - intro H. exists x. split; [exact H | apply String.eqb_refl].
Qed.

(** In one conversation or in several: counting the unread messages of
    each identity and adding up is counting the unread messages of all. *)
Lemma unread_in_all (st : Store) (userId : string) (ids : list string) :
  NoDup ids ->
  fold_right (fun id n => unread_in st userId id + n) 0 ids
  = List.length
      (filter (selects wide_message_matches
                 [message_in_booking_request_id ids;
                  message_also (message_neq_sender_id userId);
                  message_also message_is_read_at_null])
              (messages st)).
Proof.
  unfold unread_in. intro ND. induction ND as [| x ids Nin ND IH]; simpl.
  - induction (messages st) as [| m l IHl]; simpl; auto.
  - rewrite IH. clear IH.
    induction (messages st) as [| m l IHl]; [reflexivity |].
    unfold selects in *. cbn [filter forallb wide_message_matches message_matches existsb] in *.
    unfold unread_from_other at 1.
    destruct (String.eqb_spec (msg_booking_request_id m) x) as [E | N].
    + assert (X : existsb (String.eqb (msg_booking_request_id m)) ids = false).
      { destruct (existsb _ ids) eqn:Ex; [| reflexivity].
        apply existsb_eqb in Ex. rewrite E in Ex. contradiction. }
      rewrite X. cbn [orb andb].
      destruct (negb (msg_sender_id m =? userId)); cbn [andb]; [| exact IHl].
      destruct (msg_read_at m); cbn [andb]; [exact IHl |].
      cbn [List.length]. rewrite <- IHl. lia.
    + cbn [orb andb].
      destruct (existsb (String.eqb (msg_booking_request_id m)) ids); cbn [andb];
        [| exact IHl].
      destruct (negb (msg_sender_id m =? userId)); cbn [andb]; [| exact IHl].
      destruct (msg_read_at m); cbn [andb]; [exact IHl |].
      cbn [List.length]. rewrite <- IHl. lia.
Qed.

Lemma unread_total_app (l l' : list ConversationSummary) :
  unread_total (l ++ l') = unread_total l + unread_total l'.
Proof. induction l as [| c l IH]; simpl; auto. rewrite IH. lia. Qed.

Lemma unread_total_perm (l l' : list ConversationSummary) :
  Permutation l l' -> unread_total l = unread_total l'.
Proof. intro P. induction P; simpl; lia. Qed.

Lemma pushed_unread (st : Store) (userId : string) (b : BookingRequest) :
  (exists a, announcement_of st b = [a]) ->
  unread_total (pushed st userId b)
  = if participant st userId b then unread_in st userId (br_id b) else 0.
Proof.
  intros (a & A). unfold pushed, participant, traveler_of.
  rewrite selects_announcement. fold (announcement_of st b). rewrite A.
  cbn [single ok data].
  assert (U : forall l, List.length
                (filter (selects message_matches
                           [message_eq_booking_request_id (br_id b);
                            message_neq_sender_id userId; message_is_read_at_null]) l)
              = List.length (filter (unread_from_other (br_id b) userId) l)).
  { intro l. f_equal. apply filter_ext. intro m. apply selects_unread. }
  destruct (br_user_id b =? userId), (an_user_id a =? userId); simpl;
    rewrite ?U; unfold unread_in; lia.
Qed.

Lemma pushed_unread_total (st : Store) (userId : string) (bookings : list BookingRequest) :
  (forall b, In b bookings -> exists a, announcement_of st b = [a]) ->
  unread_total (flat_map (pushed st userId) bookings)
  = fold_right (fun id n => unread_in st userId id + n) 0
      (map br_id (filter (participant st userId) bookings)).
Proof.
  induction bookings as [| b rest IH]; intro Ref; [reflexivity |].
  cbn [flat_map filter]. rewrite unread_total_app, pushed_unread by (apply Ref; left; auto).
  rewrite IH by (intros b' H; apply Ref; right; exact H).
  destruct (participant st userId b); reflexivity.
Qed.

Lemma NoDup_map_filter {T U} (f : T -> U) (p : T -> bool) (l : list T) :
  NoDup (map f l) -> NoDup (map f (filter p l)).
Proof.
  induction l as [| x l IH]; simpl; intro H; [constructor |].
  inversion H as [| y ys Nin ND]; subst.
  destruct (p x); simpl; [| apply IH; exact ND].
  constructor; [| apply IH; exact ND].
  intro Hin. apply Nin. apply in_map_iff in Hin. destruct Hin as (z & E & Hz).
  apply in_map_iff. exists z. split; [exact E |]. apply filter_In in Hz. tauto.
Qed.

(** The owner map of [getUnreadCount] names the traveler of every booking
    it was built for. *)
Lemma owner_is_traveler (st : Store) (bookings : list BookingRequest) (b : BookingRequest) :
  In b bookings ->
  (exists a, announcement_of st b = [a]) ->
  owner (owners (Some (filter (selects wide_announcement_matches
                                 [announcement_in_id
                                    (unique (map br_announcement_id bookings))])
                              (announcements st))))
        (br_announcement_id b)
  = traveler_of st b.
Proof.
  intros Hin (a & A). unfold traveler_of. rewrite A.
  apply owner_of_single. rewrite filter_within; [exact A |].
  intros x E. apply String.eqb_eq in E.
  unfold selects. cbn [forallb wide_announcement_matches]. rewrite andb_true_r.
  apply existsb_eqb. apply unique_In. rewrite E. apply in_map. exact Hin.
Qed.

(** The badge is the sum of the inbox.  On a backend that answers, where
    every booking points to its announcement and no two bookings share an
    identity, the number [getUnreadCount] gives is the sum of the
    [unread_count] of the conversations [fetchConversations] lists for the
    same user. *)
Theorem getUnreadCount_is_the_inbox_total (userId : string) (w : World) :
  reliable w ->
  referential (store w) ->
  NoDup (map br_id (booking_requests (store w))) ->
  exists n conversations w1 w2,
    exec (getUnreadCount userId) w = (Resolved n, w1)
    /\ run (fetchConversations userId) w = (Resolved conversations, w2)
    /\ n = unread_total conversations.
Proof.
  intros R Ref ND.
  set (open := filter has_chat (booking_requests (store w))).
  set (mine := filter (participant (store w) userId) open).
  assert (RefOpen : forall b, In b open -> exists a, announcement_of (store w) b = [a]).
  { intros b H. apply Ref. unfold open in H. apply filter_In in H. tauto. }
  assert (Total : forall n,
             n = fold_right (fun id k => unread_in (store w) userId id + k) 0
                   (map br_id mine) ->
             exists conversations w2,
               run (fetchConversations userId) w = (Resolved conversations, w2)
               /\ n = unread_total conversations).
  { intros n Hn. unfold fetchConversations. cbn [run]. unfold perform.
    rewrite (reliable_next_fault R). cbn [serve ok error data].
    rewrite selects_has_chat. fold open. rewrite run_bind.
    destruct (run_conversationsLoop userId open [] (reliable_answered R))
      as (w2 & Hrun & _ & _).
    rewrite Hrun. cbn [run app store answered with_store].
    eexists _, w2. split; [reflexivity |].
    rewrite (unread_total_perm _ _ (sort_perm compareConversations _)).
    rewrite pushed_unread_total by exact RefOpen. exact Hn. }
  unfold getUnreadCount. cbn [exec answer]. unfold perform.
  rewrite (reliable_next_fault R). cbn [serve ok error data].
  rewrite selects_has_chat. fold open. cbn [exec answer].
  rewrite (reliable_next_fault (reliable_answered R)). cbn [ok data].
  cbn [store answered with_store].
  assert (Mine : filter (fun b =>
                   (br_user_id b =? userId)
                   || match owner (owners (Some (filter
                                (selects wide_announcement_matches
                                   [announcement_in_id (unique (map br_announcement_id open))])
                                (announcements (store w)))))
                              (br_announcement_id b) with
                      | Some o => o =? userId
                      | None => false
                      end) open = mine).
  { unfold mine. apply filter_ext_in. intros b Hb. unfold participant.
    rewrite owner_is_traveler by (auto; apply RefOpen; exact Hb). reflexivity. }
  rewrite Mine.
  destruct (List.length (map br_id mine) =? 0)%nat eqn:Z.
  - apply Nat.eqb_eq in Z. apply length_zero_iff_nil in Z.
    destruct (Total 0) as (conversations & w2 & E & H); [now rewrite Z |].
    eexists 0, conversations, _, w2. split; [reflexivity |]. auto.
  - cbn [exec answer].
    rewrite (reliable_next_fault (reliable_answered (reliable_answered R))).
    cbn [count_error count exec].
    cbn [store answered with_store].
    destruct (Total (List.length
                (filter (selects wide_message_matches
                           [message_in_booking_request_id (map br_id mine);
                            message_also (message_neq_sender_id userId);
                            message_also message_is_read_at_null])
                        (messages (store w)))))
      as (conversations & w2 & E & H).
    + symmetry. apply unread_in_all.
      unfold mine, open. apply NoDup_map_filter, NoDup_map_filter. exact ND.
    + eexists _, conversations, _, w2. split; [reflexivity |]. auto.
Qed.

(** The inbox of the traveler [T] with two unread messages in [B1], one
    read and one own message in [B4]. *)
Lemma getUnreadCount_is_the_inbox_total_witness :
  let st := with_messages Inbox.tables
              [Inbox.said 0 "B1" "S" 10; Inbox.said 1 "B1" "S" 11;
               set_read_at 13 (Inbox.said 2 "B4" "U" 12); Inbox.said 3 "B4" "T" 14] in
  exists conversations w1 w2,
    exec (getUnreadCount "T") (Sample.world st) = (Resolved 2, w1)
    /\ run (fetchConversations "T") (Sample.world st) = (Resolved conversations, w2)
    /\ unread_total conversations = 2.
Proof.
  intro st.
  destruct (getUnreadCount_is_the_inbox_total "T" (Sample.world st) eq_refl)
    as (n & conversations & w1 & w2 & E & F & H).
  - intros b Hb. exists Sample.A1. simpl in Hb.
    repeat (destruct Hb as [Hb | Hb]; [subst b; reflexivity |]). contradiction.
  - repeat constructor; simpl; intuition discriminate.
  - assert (N : n = 2).
    { assert (X : fst (exec (getUnreadCount "T") (Sample.world st)) = Resolved n)
        by (rewrite E; reflexivity).
      vm_compute in X. inversion X. reflexivity. }
    exists conversations, w1, w2. rewrite <- H, <- N.
    split; [exact E | split; [exact F | reflexivity]].
Defined.

Lemma filter_length_le {T} (p q : T -> bool) (l : list T) :
  (forall x, p x = true -> q x = true) ->
  List.length (filter p l) <= List.length (filter q l).
Proof.
  intro H. induction l as [| x l IH]; simpl; auto.
  destruct (p x) eqn:P.
  - rewrite (H x P). simpl. lia.
  - destruct (q x); simpl; lia.
Qed.

(** [getUnreadCount] never rejects and never over-counts.  Whatever the
    backend does, the call resolves without writing, to a number that is at
    most the number of unread messages other users have sent; it is 0 when
    the lookup of the bookings fails. *)
Theorem getUnreadCount_never_raises (userId : string) (w : World) :
  exists n w',
    exec (getUnreadCount userId) w = (Resolved n, w')
    /\ store w' = store w
    /\ n <= List.length (unread_for userId (store w))
    /\ (next_fault w = true -> n = 0).
Proof.
  unfold getUnreadCount. cbn [exec answer]. unfold perform.
  destruct (next_fault w) eqn:F0.
  { cbn [refuse failed error data exec]. eexists _, _. split; [reflexivity |].
    repeat split; auto. lia. }
  cbn [serve ok error data exec answer].
  match goal with
  | |- context [if (?len =? 0)%nat then _ else _] => destruct (len =? 0)%nat
  end.
  { cbn [exec]. eexists _, _. split; [reflexivity |].
    repeat split; auto; try discriminate. lia. }
  cbn [exec answer].
  destruct (next_fault (answered (answered w))) eqn:F2.
  { cbn [count_error exec]. eexists _, _. split; [reflexivity |].
    repeat split; auto; try discriminate. lia. }
  cbn [count_error count exec]. eexists _, _. split; [reflexivity |].
  split; [reflexivity |]. split; [| discriminate].
  cbn [store answered with_store]. unfold unread_for.
  apply filter_length_le. intros m H.
  unfold selects in H. cbn [forallb wide_message_matches message_matches] in H.
  apply andb_true_iff in H. destruct H as [_ H]. now rewrite andb_true_r in H.
Qed.

(** The badge of the traveler [T] when the lookup of the bookings fails,
    and when only the count fails. *)
Lemma getUnreadCount_never_raises_witness :
  let st := with_messages Inbox.tables [Inbox.said 0 "B1" "S" 10] in
  (exists w', exec (getUnreadCount "T") (Sample.faulty [true] st) = (Resolved 0, w'))
  /\ (exists w', exec (getUnreadCount "T") (Sample.faulty [false; false; true] st)
                 = (Resolved 0, w'))
  /\ (exists w', exec (getUnreadCount "T") (Sample.world st) = (Resolved 1, w')).
Proof.
  intro st. split; [| split].
  - destruct (getUnreadCount_never_raises "T" (Sample.faulty [true] st))
      as (n & w' & E & _ & _ & Z).
    rewrite (Z eq_refl) in E. exists w'. exact E.
  - eexists. reflexivity.
  - eexists. reflexivity.
Defined.

(* ================================================================= *)
(** ** Reading a conversation clears its badge *)

Lemma run_fetchConversations (userId : string) (w : World) :
  reliable w ->
  exists w',
    run (fetchConversations userId) w
    = (Resolved (JsArray.sort compareConversations
                   (flat_map (pushed (store w) userId)
                             (filter has_chat (booking_requests (store w))))), w')
    /\ store w' = store w.
Proof.
  intro R. unfold fetchConversations. cbn [run]. unfold perform.
  rewrite (reliable_next_fault R). cbn [serve ok error data].
  rewrite selects_has_chat. rewrite run_bind.
  destruct (run_conversationsLoop userId
              (filter has_chat (booking_requests (store w))) [] (reliable_answered R))
    as (w' & Hrun & S & _).
  rewrite Hrun. cbn [run app store answered with_store]. exists w'. auto.
Qed.

Lemma pushed_unread_count (st : Store) (userId : string) (b : BookingRequest)
    (c : ConversationSummary) :
  In c (pushed st userId b) ->
  booking_request_id c = br_id b /\ unread_count c = unread_in st userId (br_id b).
Proof.
  unfold pushed. destruct (data (single _)) as [ann |]; [| intros []].
  destruct (negb (br_user_id b =? userId) && negb (an_user_id ann =? userId));
    [intros [] |].
  intros [E | []]. subst c. cbn [booking_request_id unread_count].
  split; [reflexivity |]. unfold unread_in. f_equal.
  apply filter_ext. intro m. apply selects_unread.
Qed.

Lemma filter_map_length {T} (p : T -> bool) (f : T -> T) (l : list T) :
  List.length (filter p (map f l)) = List.length (filter (fun x => p (f x)) l).
Proof.
  induction l as [| x l IH]; simpl; auto. destruct (p (f x)); simpl; now rewrite IH.
Qed.

(** What [markAsRead] leaves unread: nothing in its conversation, and in
    every other conversation what was unread before. *)
Lemma unread_after_mark (bookingRequestId userId other : string) (t : Z) (m : Message) :
  unread_from_other other userId (mark bookingRequestId userId t m)
  = if other =? bookingRequestId then false else unread_from_other other userId m.
Proof.
  unfold mark. destruct (unread_from_other bookingRequestId userId m) eqn:U.
  - rewrite mark_read_once.
    destruct (String.eqb_spec other bookingRequestId) as [E | N]; [reflexivity |].
    unfold unread_from_other in *.
    apply andb_true_iff in U. destruct U as [U _].
    apply andb_true_iff in U. destruct U as [U _]. apply String.eqb_eq in U.
    rewrite U. apply not_eq_sym, String.eqb_neq in N. now rewrite N.
  - destruct (String.eqb_spec other bookingRequestId) as [E | N]; [| reflexivity].
    subst other. exact U.
Qed.

(** Reading a conversation clears its badge and no other.  On a backend
    that answers, after the user's [markAsRead] of a conversation the inbox
    of [fetchConversations] shows [unread_count] 0 for that conversation,
    and for every other conversation the number of messages that were
    unread before. *)
Theorem markAsRead_clears_the_badge (bookingRequestId userId : string) (w : World) :
  reliable w ->
  exists w1 conversations w2,
    run (markAsRead bookingRequestId userId) w = (Resolved tt, w1)
    /\ run (fetchConversations userId) w1 = (Resolved conversations, w2)
    /\ forall c, In c conversations ->
         (booking_request_id c = bookingRequestId -> unread_count c = 0)
         /\ (booking_request_id c <> bookingRequestId ->
             unread_count c = unread_in (store w) userId (booking_request_id c)).
Proof.
  intro R.
  pose proof (run_markAsRead bookingRequestId userId w (reliable_next_fault R)) as M.
  set (w1 := with_store w _) in M.
  assert (R1 : reliable w1) by (apply reliable_with_store; exact R).
  destruct (run_fetchConversations userId w1 R1) as (w2 & F & _).
  eexists w1, _, w2. split; [exact M |]. split; [exact F |].
  intros c Hc.
  apply (Permutation_in _ (sort_perm compareConversations _)) in Hc.
  apply in_flat_map in Hc. destruct Hc as (b & _ & Hc).
  apply pushed_unread_count in Hc. destruct Hc as [Id U]. rewrite U, Id.
  assert (X : unread_in (store w1) userId (br_id b)
              = if br_id b =? bookingRequestId then 0
                else unread_in (store w) userId (br_id b)).
  { unfold unread_in, w1. cbn [store with_store with_messages messages].
    rewrite filter_map_length.
    rewrite (filter_ext _ _ (fun m => unread_after_mark bookingRequestId userId
                                        (br_id b) (clock w) m)).
    destruct (br_id b =? bookingRequestId); [| reflexivity].
    assert (Z : forall l : list Message,
               List.length (filter (fun _ => false) l) = 0)
      by (intro l; induction l; auto).
    apply Z. }
  rewrite X. split; intro H.
  - rewrite H, String.eqb_refl. reflexivity.
  - apply String.eqb_neq in H. now rewrite H.
Qed.

(** The traveler [T] reads [B1], where two messages wait, and not [B4],
    where one waits. *)
Lemma markAsRead_clears_the_badge_witness :
  let st := with_messages Inbox.tables
              [Inbox.said 0 "B1" "S" 10; Inbox.said 1 "B1" "S" 11;
               Inbox.said 2 "B4" "U" 12] in
  exists w1 conversations w2,
    run (markAsRead "B1" "T") (Sample.world st) = (Resolved tt, w1)
    /\ run (fetchConversations "T") w1 = (Resolved conversations, w2)
    /\ map (fun c => (booking_request_id c, unread_count c)) conversations
       = [("B4", 1); ("B1", 0); ("B2", 0)].
Proof.
  intro st.
  destruct (markAsRead_clears_the_badge "B1" "T" (Sample.world st) eq_refl)
    as (w1 & conversations & w2 & M & F & _).
  exists w1, conversations, w2. split; [exact M |]. split; [exact F |].
  assert (W : w1 = snd (run (markAsRead "B1" "T") (Sample.world st)))
    by (rewrite M; reflexivity).
  assert (C : Resolved conversations = fst (run (fetchConversations "T") w1))
    by (rewrite F; reflexivity).
  rewrite W in C. vm_compute in C. inversion C. reflexivity.
Defined.

(* ========================================================================= *)
(** ** The hook's [markRead] *)

(** [markRead] never rejects.  Without a user it sends nothing.  With one
    it resolves whatever the backend does: a refused update leaves the
    tables as they were and the error goes no further, and an accepted one
    leaves what [markAsRead] leaves. *)
Theorem markRead_never_rejects (bookingRequestId : string) (userId : option string)
    (w : World) :
  exists w',
    run (markRead bookingRequestId userId) w = (Resolved tt, w')
    /\ (userId = None -> w' = w)
    /\ (next_fault w = true -> store w' = store w)
    /\ (forall u, userId = Some u ->
          fst (run (markAsRead bookingRequestId u) w) = Resolved tt ->
          w' = snd (run (markAsRead bookingRequestId u) w)).
Proof.
  destruct userId as [u |].
  - unfold markRead. rewrite run_try_catch.
    destruct (next_fault w) eqn:F.
    + unfold markAsRead. cbn [run perform]. rewrite F. cbn [refuse error run].
      eexists. split; [reflexivity |]. split; [discriminate |].
      split; [reflexivity |]. intros u' _ H. discriminate H.
    + rewrite run_markAsRead by exact F. cbn [run].
      eexists. split; [reflexivity |]. split; [discriminate |].
      split; [discriminate |]. intros u' E _. inversion E; subst u'.
      now rewrite run_markAsRead by exact F.
  - exists w. simpl. repeat split; auto. intros u E. discriminate E.
Qed.

(** The sender [S] opens [B1], where a message of the traveler waits, while
    the backend refuses the update: nothing is marked and nothing is
    raised. *)
Lemma markRead_never_rejects_witness :
  let st := Sample.tables None None [Sample.hello 10] in
  exists w',
    run (markRead "B1" (Some "S")) (Sample.faulty [true] st) = (Resolved tt, w')
    /\ store w' = st.
Proof.
  intro st.
  destruct (markRead_never_rejects "B1" (Some "S") (Sample.faulty [true] st))
    as (w' & E & _ & U & _).
  exists w'. split; [exact E | exact (U eq_refl)].
Defined.
